(** * BufferingAudioSource: the streaming look-ahead audio cache

    A shallow embedding of
    [source/modules/juce_audio_basics/sources/juce_BufferingAudioSource.cpp]
    and the properties of its read path, refill policy, wraparound
    addressing, preroll timer and configuration.

    Conventions of the embedding:
    - [int64] sample positions are unbounded [Z] (signed overflow is undefined
      in C++ and out of reach for sample positions); every explicit [(int)]
      cast is written out as [to_int], the 32-bit two's complement wrap, and
      the [uint32] millisecond counter wraps modulo [2^32];
    - [%] on integers is C++ truncated remainder, [Z.rem];
    - samples and the sample rate are IEEE binary64 values, [PrimFloat.float];
    - the object's methods run in a small writer/state monad: the state is the
      object's fields, the written log records the calls a method issues on
      its buffers, on its source and on the valid-range metadata;
    - the two threads are not interleaved: each method is one atomic step. *)

From Stdlib Require Import ZArith Bool Lia PrimFloat.
From stdpp Require Import base list list_numbers.

Open Scope Z_scope.

(** ** Machine integers *)

Definition INT_MAX : Z := 2 ^ 31 - 1.
Definition UINT32_MAX : Z := 2 ^ 32 - 1.

(** [(int) x] for an [int64] x. *)
Definition to_int (x : Z) : Z := (x + 2 ^ 31) mod 2 ^ 32 - 2 ^ 31.

(** Arithmetic on [uint32] wraps modulo [2^32]. *)
Definition to_uint32 (x : Z) : Z := x mod 2 ^ 32.

(** ** juce_MathsFunctions.h and juce_Range.h *)

(** Modelled from the spec: [jmax], [jmin] and [jlimit] are declared in
    juce_MathsFunctions.h, which is not among the sources; they are the
    "max", "min" and "clamped" of the spec, written as JUCE writes them. *)
Definition jmax (a b : Z) : Z := if a <? b then b else a.
Definition jmin (a b : Z) : Z := if b <? a then b else a.
Definition jlimit (lowerLimit upperLimit valueToConstrain : Z) : Z :=
  if valueToConstrain <? lowerLimit then lowerLimit
  else if upperLimit <? valueToConstrain then upperLimit
  else valueToConstrain.

Module Range.
(** Modelled from the spec: [Range<int>] is declared in juce_Range.h, which
    is not among the sources. A range is a pair [start <= end], the
    constructor raising [end] to [start] when it is given smaller, and it is
    empty when both are equal: the "intersection [a,b)" of the spec. *)
Record t : Type := mk { getStart : Z; getEnd : Z }.

Definition make (startValue endValue : Z) : t :=
  mk startValue (jmax startValue endValue).

Definition isEmpty (r : t) : bool := getStart r =? getEnd r.
End Range.

(** ** juce_AudioSampleBuffer.h *)

Module AudioBuffer.
(** Modelled from the spec: [AudioBuffer<float>] is declared in
    juce_AudioSampleBuffer.h, which is not among the sources. A buffer is
    its per-channel sample arrays and its length in samples; [clear] and
    [copyFrom] are the "clear" and "copy" of the spec's read path. A call
    outside the buffer (refused by a [jassert] in JUCE) leaves it as it
    is. *)
Record t : Type := mk { getNumSamples : Z; channels : list (list float) }.

Definition getNumChannels (b : t) : Z := Z.of_nat (length (channels b)).

(** [setSize (numChannels, numSamples)] followed by [clear ()]. *)
Definition cleared (newNumChannels newNumSamples : Z) : t :=
  mk newNumSamples
     (replicate (Z.to_nat newNumChannels)
                (replicate (Z.to_nat newNumSamples) 0%float)).

Definition inRegion (b : t) (startSample numSamples : Z) : bool :=
  (0 <=? startSample) && (0 <=? numSamples)
  && (startSample + numSamples <=? getNumSamples b).

(** Writes the samples [block] into one channel array from [startSample]. *)
Definition store (startSample : Z) (block chan : list float) : list float :=
  list_inserts (Z.to_nat startSample) block chan.

(** [clear (startSample, numSamples)]: every channel. *)
Definition clear (b : t) (startSample numSamples : Z) : t :=
  if inRegion b startSample numSamples
  then mk (getNumSamples b)
          (store startSample (replicate (Z.to_nat numSamples) 0%float)
             <$> channels b)
  else b.

(** The samples [[startSample, startSample + numSamples)] of a channel. *)
Definition slice (b : t) (chan startSample numSamples : Z) : list float :=
  match channels b !! Z.to_nat chan with
  | Some c => take (Z.to_nat numSamples) (drop (Z.to_nat startSample) c)
  | None => []
  end.

(** [copyFrom (destChannel, destStartSample, source, sourceChannel,
    sourceStartSample, numSamples)]. *)
Definition copyFrom (b : t) (destChannel destStartSample : Z) (source : t)
    (sourceChannel sourceStartSample numSamples : Z) : t :=
  if (0 <=? destChannel) && (0 <=? sourceChannel)
     && inRegion b destStartSample numSamples
     && inRegion source sourceStartSample numSamples
  then mk (getNumSamples b)
          (alter (store destStartSample
                    (slice source sourceChannel sourceStartSample numSamples))
                 (Z.to_nat destChannel) (channels b))
  else b.

(** The sample at an index of a channel, when there is one. *)
Definition sample (b : t) (chan index : Z) : option float :=
  if (0 <=? chan) && (0 <=? index)
  then channels b !! Z.to_nat chan ≫= (λ c, c !! Z.to_nat index)
  else None.

(** Every channel array has the buffer's length. *)
Definition wf (b : t) : Prop :=
  0 <= getNumSamples b
  ∧ Forall (λ c, Z.of_nat (length c) = getNumSamples b) (channels b).
End AudioBuffer.

(** [AudioSourceChannelInfo]: the region of a caller's buffer to fill. The
    buffer itself, which the C++ struct points to, is threaded through the
    state of the method that fills it. *)
Record AudioSourceChannelInfo : Type :=
  { startSample : Z; numSamples : Z }.

(** ** The calls a method issues *)

Inductive Event : Type :=
  (** [bufferValidStart] and [bufferValidEnd] assigned, with the capacity
      [buffer.getNumSamples ()] at that moment *)
  | RangeWritten (validStart validEnd capacity : Z)
  (** [readBufferSection (start, length, bufferOffset)] *)
  | SectionRead (start length bufferOffset : Z)
  (** [bufferReadyEvent.signal ()] *)
  | ReadySignalled
  (** [clear (startSample, numSamples)] on the caller's buffer *)
  | Cleared (clearStart clearLength : Z)
  (** [copyFrom (destChannel, destStartSample, buffer, destChannel,
      sourceStartSample, numSamples)] on the caller's buffer *)
  | Copied (destChannel destStartSample sourceStartSample copyLength : Z).

(** ** The method monad: state passing with a log of events *)

Definition M (Σ A : Type) : Type := Σ → A * Σ * list Event.

Definition ret {Σ A} (a : A) : M Σ A := λ s, (a, s, []).

Definition bind {Σ A B} (m : M Σ A) (k : A → M Σ B) : M Σ B :=
  λ s, let '(a, s1, log1) := m s in
       let '(b, s2, log2) := k a s1 in
       (b, s2, log1 ++ log2).

Definition get {Σ} : M Σ Σ := λ s, (s, s, []).
Definition gets {Σ A} (f : Σ → A) : M Σ A := λ s, (f s, s, []).
Definition modify {Σ} (f : Σ → Σ) : M Σ unit := λ s, (tt, f s, []).
Definition tell {Σ} (e : Event) : M Σ unit := λ s, (tt, s, [e]).
Definition when {Σ} (c : bool) (m : M Σ unit) : M Σ unit :=
  if c then m else ret tt.

Definition result {Σ A} (r : A * Σ * list Event) : A := fst (fst r).
Definition final {Σ A} (r : A * Σ * list Event) : Σ := snd (fst r).
Definition events {Σ A} (r : A * Σ * list Event) : list Event := snd r.

Declare Scope method_scope.
Delimit Scope method_scope with method.
Notation "x ← y ; z" := (bind y (λ x, z))
  (at level 20, y at level 100, z at level 200, only parsing) : method_scope.
Notation "' x ← y ; z" := (bind y (λ x, z))
  (at level 20, x pattern, y at level 100, z at level 200, only parsing)
  : method_scope.
Notation "x ;; z" := (bind x (λ _, z))
  (at level 100, z at level 200, only parsing, right associativity)
  : method_scope.
Open Scope method_scope.

(** [for (int i = n; --i >= 0;) body (i)] *)
Fixpoint forDown {Σ} (n : nat) (body : Z → M Σ unit) : M Σ unit :=
  match n with
  | O => ret tt
  | S n' => body (Z.of_nat n') ;; forDown n' body
  end.

(** ** PositionableAudioSource *)

(** The interface of the wrapped source. [getNextAudioBlock] fills a region of
    a buffer it is handed: here it returns the block of samples it produced,
    one array per channel, and the caller stores it in the region. *)
Class PositionableAudioSource (S : Type) : Type :=
  { source_prepareToPlay : Z → float → S → S;
    source_releaseResources : S → S;
    source_getNextAudioBlock : Z → Z → S → list (list float) * S;
    source_getNextReadPosition : S → Z;
    source_setNextReadPosition : Z → S → S;
    source_getTotalLength : S → Z;
    source_isLooping : S → bool }.

(** ** The object *)

Record State (S : Type) : Type :=
  { source : S;
    numberOfSamplesToBuffer : Z;
    numberOfChannels : Z;
    buffer : AudioBuffer.t;
    bufferValidStart : Z;
    bufferValidEnd : Z;
    nextPlayPos : Z;
    sampleRate : float;
    wasSourceLooping : bool;
    isPrepared : bool;
    prefillBuffer : bool;
    (** whether [backgroundThread] holds this object as a time-slice client *)
    isTimeSliceClient : bool }.

Arguments source {S}.
Arguments numberOfSamplesToBuffer {S}.
Arguments numberOfChannels {S}.
Arguments buffer {S}.
Arguments bufferValidStart {S}.
Arguments bufferValidEnd {S}.
Arguments nextPlayPos {S}.
Arguments sampleRate {S}.
Arguments wasSourceLooping {S}.
Arguments isPrepared {S}.
Arguments prefillBuffer {S}.
Arguments isTimeSliceClient {S}.

Section Fields.
Context {S : Type}.
Implicit Type st : State S.

Definition set_source (v : S) st : State S :=
  {| source := v; numberOfSamplesToBuffer := numberOfSamplesToBuffer st;
     numberOfChannels := numberOfChannels st; buffer := buffer st;
     bufferValidStart := bufferValidStart st;
     bufferValidEnd := bufferValidEnd st; nextPlayPos := nextPlayPos st;
     sampleRate := sampleRate st; wasSourceLooping := wasSourceLooping st;
     isPrepared := isPrepared st; prefillBuffer := prefillBuffer st;
     isTimeSliceClient := isTimeSliceClient st |}.

Definition set_buffer (v : AudioBuffer.t) st : State S :=
  {| source := source st;
     numberOfSamplesToBuffer := numberOfSamplesToBuffer st;
     numberOfChannels := numberOfChannels st; buffer := v;
     bufferValidStart := bufferValidStart st;
     bufferValidEnd := bufferValidEnd st; nextPlayPos := nextPlayPos st;
     sampleRate := sampleRate st; wasSourceLooping := wasSourceLooping st;
     isPrepared := isPrepared st; prefillBuffer := prefillBuffer st;
     isTimeSliceClient := isTimeSliceClient st |}.

Definition set_validRange (vs ve : Z) st : State S :=
  {| source := source st;
     numberOfSamplesToBuffer := numberOfSamplesToBuffer st;
     numberOfChannels := numberOfChannels st; buffer := buffer st;
     bufferValidStart := vs; bufferValidEnd := ve;
     nextPlayPos := nextPlayPos st;
     sampleRate := sampleRate st; wasSourceLooping := wasSourceLooping st;
     isPrepared := isPrepared st; prefillBuffer := prefillBuffer st;
     isTimeSliceClient := isTimeSliceClient st |}.

Definition set_nextPlayPos (v : Z) st : State S :=
  {| source := source st;
     numberOfSamplesToBuffer := numberOfSamplesToBuffer st;
     numberOfChannels := numberOfChannels st; buffer := buffer st;
     bufferValidStart := bufferValidStart st;
     bufferValidEnd := bufferValidEnd st; nextPlayPos := v;
     sampleRate := sampleRate st; wasSourceLooping := wasSourceLooping st;
     isPrepared := isPrepared st; prefillBuffer := prefillBuffer st;
     isTimeSliceClient := isTimeSliceClient st |}.

Definition set_sampleRate (v : float) st : State S :=
  {| source := source st;
     numberOfSamplesToBuffer := numberOfSamplesToBuffer st;
     numberOfChannels := numberOfChannels st; buffer := buffer st;
     bufferValidStart := bufferValidStart st;
     bufferValidEnd := bufferValidEnd st; nextPlayPos := nextPlayPos st;
     sampleRate := v; wasSourceLooping := wasSourceLooping st;
     isPrepared := isPrepared st; prefillBuffer := prefillBuffer st;
     isTimeSliceClient := isTimeSliceClient st |}.

Definition set_wasSourceLooping (v : bool) st : State S :=
  {| source := source st;
     numberOfSamplesToBuffer := numberOfSamplesToBuffer st;
     numberOfChannels := numberOfChannels st; buffer := buffer st;
     bufferValidStart := bufferValidStart st;
     bufferValidEnd := bufferValidEnd st; nextPlayPos := nextPlayPos st;
     sampleRate := sampleRate st; wasSourceLooping := v;
     isPrepared := isPrepared st; prefillBuffer := prefillBuffer st;
     isTimeSliceClient := isTimeSliceClient st |}.

Definition set_isPrepared (v : bool) st : State S :=
  {| source := source st;
     numberOfSamplesToBuffer := numberOfSamplesToBuffer st;
     numberOfChannels := numberOfChannels st; buffer := buffer st;
     bufferValidStart := bufferValidStart st;
     bufferValidEnd := bufferValidEnd st; nextPlayPos := nextPlayPos st;
     sampleRate := sampleRate st; wasSourceLooping := wasSourceLooping st;
     isPrepared := v; prefillBuffer := prefillBuffer st;
     isTimeSliceClient := isTimeSliceClient st |}.

Definition set_isTimeSliceClient (v : bool) st : State S :=
  {| source := source st;
     numberOfSamplesToBuffer := numberOfSamplesToBuffer st;
     numberOfChannels := numberOfChannels st; buffer := buffer st;
     bufferValidStart := bufferValidStart st;
     bufferValidEnd := bufferValidEnd st; nextPlayPos := nextPlayPos st;
     sampleRate := sampleRate st; wasSourceLooping := wasSourceLooping st;
     isPrepared := isPrepared st; prefillBuffer := prefillBuffer st;
     isTimeSliceClient := v |}.
End Fields.

(** ** The methods of BufferingAudioSource *)

Section Methods.
Context {S : Type} `{PositionableAudioSource S}.

Abbreviation Obj := (State S).

(** The constructor. The initial values of the fields that its initialiser
    list leaves out are those of the class declaration. *)
Definition construct (s : S) (bufferSizeSamples numChannels : Z)
    (prefillBufferOnPrepareToPlay : bool) : Obj :=
  {| source := s;
     numberOfSamplesToBuffer := jmax 1024 bufferSizeSamples;
     numberOfChannels := numChannels;
     buffer := AudioBuffer.mk 0 [];
     bufferValidStart := 0;
     bufferValidEnd := 0;
     nextPlayPos := 0;
     sampleRate := 0%float;
     wasSourceLooping := false;
     isPrepared := false;
     prefillBuffer := prefillBufferOnPrepareToPlay;
     isTimeSliceClient := false |}.

Definition capacity (st : Obj) : Z := AudioBuffer.getNumSamples (buffer st).

(** [bufferValidStart = vs; bufferValidEnd = ve;] *)
Definition setValidRange (vs ve : Z) : M Obj unit :=
  modify (set_validRange vs ve) ;;
  n ← gets capacity;
  tell (RangeWritten vs ve n).

Definition onSource (f : S → S) : M Obj unit :=
  modify (λ st, set_source (f (source st)) st).

Definition isLooping : M Obj bool :=
  gets (λ st, source_isLooping (source st)).

Definition getTotalLength : M Obj Z :=
  gets (λ st, source_getTotalLength (source st)).

(** Lines 50-73 of [prepareToPlay]: the object as the call's own writes
    leave it, which is the state the prefill loop of lines 75-83 starts from.
    The loop writes no field: each of its turns hands the processor to the
    background thread ([moveToFrontOfQueue], [Thread::sleep]), and the turns
    go on while the test of line 83 holds ([prefillPending] below), so the
    call returns in this state only when [prefillBuffer] is false and the
    thread has not refilled the cache meanwhile. Line 52 multiplies two
    [int]s; the product here is the one of the integers, which is the code's
    when twice the block size is an [int]. *)
Definition prepareToPlay (samplesPerBlockExpected : Z)
    (newSampleRate : float) : M Obj unit :=
  st ← get;
  let bufferSizeNeeded :=
    jmax (samplesPerBlockExpected * 2) (numberOfSamplesToBuffer st) in
  if negb (PrimFloat.eqb newSampleRate (sampleRate st))
     || negb (bufferSizeNeeded =? capacity st)
     || negb (isPrepared st)
  then
    modify (set_isTimeSliceClient false) ;;
    modify (set_isPrepared true) ;;
    modify (set_sampleRate newSampleRate) ;;
    onSource (source_prepareToPlay samplesPerBlockExpected newSampleRate) ;;
    modify (set_buffer
              (AudioBuffer.cleared (numberOfChannels st) bufferSizeNeeded)) ;;
    setValidRange 0 0 ;;
    modify (set_isTimeSliceClient true)
  else ret tt.

Definition releaseResources : M Obj unit :=
  modify (set_isPrepared false) ;;
  modify (set_isTimeSliceClient false) ;;
  st ← get;
  modify (set_buffer
            (AudioBuffer.mk 0 (replicate (Z.to_nat (numberOfChannels st)) []))) ;;
  onSource source_releaseResources.

Definition getValidBufferRange (numSamples : Z) : M Obj Range.t :=
  st ← get;
  let pos := nextPlayPos st in
  ret (Range.make
         (to_int (jlimit (bufferValidStart st) (bufferValidEnd st) pos - pos))
         (to_int (jlimit (bufferValidStart st) (bufferValidEnd st)
                    (pos + numSamples) - pos))).

(** *** The read path: state is the caller's buffer and the object *)

Abbreviation Call := (AudioBuffer.t * Obj)%type.

Definition self {A} (m : M Obj A) : M Call A :=
  λ '(out, st), let '(a, st', log) := m st in (a, (out, st'), log).

Definition out_clear (startSample numSamples : Z) : M Call unit :=
  modify (λ '(out, st), (AudioBuffer.clear out startSample numSamples, st)) ;;
  tell (Cleared startSample numSamples).

Definition out_copyFrom (destChannel destStartSample sourceChannel
    sourceStartSample numSamples : Z) : M Call unit :=
  modify (λ '(out, st),
            (AudioBuffer.copyFrom out destChannel destStartSample (buffer st)
               sourceChannel sourceStartSample numSamples, st)) ;;
  tell (Copied destChannel destStartSample sourceStartSample numSamples).

(** Lines 130-153: the copy of one channel, split where the cache wraps.
    [%] is [Z.rem], which is total, where the code divides by the capacity:
    the copy needs [0 < capacity] (the [jassert] of line 128), and the
    theorems about a read that copies assume it. *)
Definition copyChannel (info : AudioSourceChannelInfo)
    (validStart validEnd chan : Z) : M Call unit :=
  st ← self get;
  let startBufferIndex :=
    to_int (Z.rem (validStart + nextPlayPos st) (capacity st)) in
  let endBufferIndex :=
    to_int (Z.rem (validEnd + nextPlayPos st) (capacity st)) in
  if startBufferIndex <? endBufferIndex
  then
    out_copyFrom chan (startSample info + validStart)
                 chan startBufferIndex
                 (validEnd - validStart)
  else
    let initialSize := capacity st - startBufferIndex in
    out_copyFrom chan (startSample info + validStart)
                 chan startBufferIndex
                 initialSize ;;
    out_copyFrom chan (startSample info + validStart + initialSize)
                 chan 0
                 ((validEnd - validStart) - initialSize).

Definition getNextAudioBlock (info : AudioSourceChannelInfo) : M Call unit :=
  bufferRange ← self (getValidBufferRange (numSamples info));
  if Range.isEmpty bufferRange
  then
    (* total cache miss *)
    out_clear (startSample info) (numSamples info)
  else
    let validStart := Range.getStart bufferRange in
    let validEnd := Range.getEnd bufferRange in
    when (0 <? validStart)
         (out_clear (startSample info) validStart) ;;
    when (validEnd <? numSamples info)
         (out_clear (startSample info + validEnd)
                    (numSamples info - validEnd)) ;;
    when (validStart <? validEnd)
         ('(out, st) ← get;
          forDown (Z.to_nat (jmin (numberOfChannels st)
                                  (AudioBuffer.getNumChannels out)))
                  (copyChannel info validStart validEnd)) ;;
    self (modify (λ st, set_nextPlayPos (nextPlayPos st + numSamples info) st)).

(** Lines 172-173 and 196-197 of [waitForNextAudioBlockReady]: the time
    elapsed between two readings of the [uint32] millisecond counter. *)
Definition elapsed (startTime now : Z) : Z :=
  if now >=? startTime
  then to_uint32 (now - startTime)
  else to_uint32 (to_uint32 (UINT32_MAX - startTime) + now).

Definition getNextReadPosition : M Obj Z :=
  st ← get;
  let pos := nextPlayPos st in
  ret (if source_isLooping (source st) && (0 <? nextPlayPos st)
       then Z.rem pos (source_getTotalLength (source st))
       else pos).

(** Line 217 of [setNextReadPosition]: the cursor is stored. The call
    [backgroundThread.moveToFrontOfQueue (this)] of line 218 asks the thread
    to serve this object next; it writes no field of the object. Here the
    methods run one at a time and a time slice of the thread is a step of its
    own ([useTimeSlice]), so there is no queue to reorder and the call has no
    counterpart. *)
Definition setNextReadPosition (newPosition : Z) : M Obj unit :=
  modify (set_nextPlayPos newPosition).

(** *** The refill path *)

(** Stores a block the source produced in the region
    [[bufferOffset, bufferOffset + length)] of the cache. *)
Definition storeBlock (b : AudioBuffer.t) (bufferOffset length : Z)
    (block : list (list float)) : AudioBuffer.t :=
  if AudioBuffer.inRegion b bufferOffset length
  then AudioBuffer.mk (AudioBuffer.getNumSamples b)
         (imap (λ chan c,
                  match block !! chan with
                  | Some samples =>
                      AudioBuffer.store bufferOffset
                        (take (Z.to_nat length) samples) c
                  | None => c
                  end)
               (AudioBuffer.channels b))
  else b.

Definition readBufferSection (start length bufferOffset : Z) : M Obj unit :=
  tell (SectionRead start length bufferOffset) ;;
  st ← get;
  when (negb (source_getNextReadPosition (source st) =? start))
       (onSource (source_setNextReadPosition start)) ;;
  st ← get;
  let '(block, s') :=
    source_getNextAudioBlock (AudioBuffer.getNumChannels (buffer st))
      length (source st) in
  modify (set_buffer (storeBlock (buffer st) bufferOffset length block)) ;;
  modify (set_source s').

Definition maxChunkSize : Z := 2048.

(** Lines 235-273: the decisions taken under [bufferRangeLock]. The result is
    [(newBVS, newBVE, sectionToReadStart, sectionToReadEnd)]. *)
Definition chooseSection : M Obj (Z * Z * Z * Z) :=
  looping ← isLooping;
  st ← get;
  when (negb (Bool.eqb (wasSourceLooping st) looping))
       (modify (set_wasSourceLooping looping) ;;
        setValidRange 0 0) ;;
  st ← get;
  let newBVS := jmax 0 (nextPlayPos st) in
  let newBVE := newBVS + capacity st - 4 in
  if (newBVS <? bufferValidStart st) || (newBVS >=? bufferValidEnd st)
  then
    let newBVE := jmin newBVE (newBVS + maxChunkSize) in
    setValidRange 0 0 ;;
    ret (newBVS, newBVE, newBVS, newBVE)
  else if (512 <? Z.abs (to_int (newBVS - bufferValidStart st)))
          || (512 <? Z.abs (to_int (newBVE - bufferValidEnd st)))
  then
    let newBVE := jmin newBVE (bufferValidEnd st + maxChunkSize) in
    setValidRange newBVS (jmin (bufferValidEnd st) newBVE) ;;
    ret (newBVS, newBVE, bufferValidEnd st, newBVE)
  else
    ret (newBVS, newBVE, 0, 0).

(** Lines 280-300: the read of the chosen section, split where the cache
    wraps. *)
Definition readSection (sectionToReadStart sectionToReadEnd : Z)
    : M Obj unit :=
  st ← get;
  let bufferIndexStart := to_int (Z.rem sectionToReadStart (capacity st)) in
  let bufferIndexEnd := to_int (Z.rem sectionToReadEnd (capacity st)) in
  if bufferIndexStart <? bufferIndexEnd
  then
    readBufferSection sectionToReadStart
                      (to_int (sectionToReadEnd - sectionToReadStart))
                      bufferIndexStart
  else
    let initialSize := capacity st - bufferIndexStart in
    readBufferSection sectionToReadStart
                      initialSize
                      bufferIndexStart ;;
    readBufferSection (sectionToReadStart + initialSize)
                      (to_int (sectionToReadEnd - sectionToReadStart)
                       - initialSize)
                      0.

Definition readNextBufferChunk : M Obj bool :=
  '(newBVS, newBVE, sectionToReadStart, sectionToReadEnd) ← chooseSection;
  if sectionToReadStart =? sectionToReadEnd
  then ret false
  else
    readSection sectionToReadStart sectionToReadEnd ;;
    setValidRange newBVS newBVE ;;
    tell ReadySignalled ;;
    ret true.

Definition useTimeSlice : M Obj Z :=
  didWork ← readNextBufferChunk;
  ret (if didWork then 1 else 100).

End Methods.

(** ** A source for the examples: an array of samples played on every channel *)

Record ArraySource : Type :=
  { recorded : list float; position : Z; looping : bool }.

Definition recordedLength (s : ArraySource) : Z := Z.of_nat (length (recorded s)).

(** The sample at an absolute position: wrapped when looping, silence past the
    end otherwise. *)
Definition recordedSample (s : ArraySource) (p : Z) : float :=
  let i := if looping s then p mod recordedLength s else p in
  if 0 <=? i then default 0%float (recorded s !! Z.to_nat i) else 0%float.

#[export] Instance ArraySource_source : PositionableAudioSource ArraySource :=
  {| source_prepareToPlay _ _ s := s;
     source_releaseResources s := s;
     source_getNextAudioBlock numChannels n s :=
       (replicate (Z.to_nat numChannels)
          ((λ i, recordedSample s (position s + i)) <$> seqZ 0 n),
        {| recorded := recorded s; position := position s + n;
           looping := looping s |});
     source_getNextReadPosition := position;
     source_setNextReadPosition p s :=
       {| recorded := recorded s; position := p; looping := looping s |};
     source_getTotalLength := recordedLength;
     source_isLooping := looping |}.

(** ** Reachable states *)

Section Reachable.
Context {S : Type} `{PositionableAudioSource S}.

(** The states an object goes through: built by the constructor, then driven
    by its owner ([prepareToPlay], [releaseResources], [setNextReadPosition],
    a change made to the wrapped source), by the audio callback
    ([getNextAudioBlock]) and, while it is a time-slice client, by the
    background thread ([readNextBufferChunk]). *)
Inductive reachable : State S → Prop :=
  | reach_construct s bufferSizeSamples numChannels prefill :
      reachable (construct s bufferSizeSamples numChannels prefill)
  | reach_prepareToPlay st samplesPerBlockExpected newSampleRate :
      reachable st →
      reachable (final (prepareToPlay samplesPerBlockExpected newSampleRate st))
  | reach_releaseResources st :
      reachable st → reachable (final (releaseResources st))
  | reach_setNextReadPosition st newPosition :
      reachable st → reachable (final (setNextReadPosition newPosition st))
  | reach_source st s' :
      reachable st → reachable (set_source s' st)
  | reach_getNextAudioBlock st info out :
      reachable st → reachable (snd (final (getNextAudioBlock info (out, st))))
  | reach_readNextBufferChunk st :
      reachable st → isTimeSliceClient st = true →
      reachable (final (readNextBufferChunk st)).

End Reachable.

(** ** Vocabulary of the properties *)

(** The data-model invariant at a write of the valid range:
    [0 <= validEnd - validStart <= capacity]. *)
Definition rangeWithinCapacity (e : Event) : Prop :=
  match e with
  | RangeWritten validStart validEnd capacity =>
      0 <= validEnd - validStart <= capacity
  | _ => True
  end.

(** A clear or a copy stays inside the block [info] of the caller's buffer. *)
Definition insideBlock (info : AudioSourceChannelInfo) (e : Event) : Prop :=
  match e with
  | Cleared start len | Copied _ start _ len =>
      startSample info <= start ∧ 0 <= len
      ∧ start + len <= startSample info + numSamples info
  | _ => True
  end.

(** A clear that zeroes at least one sample. *)
Definition zeroFills (e : Event) : Prop :=
  match e with
  | Cleared _ len => 0 < len
  | _ => False
  end.

(** The physical segments [(offset, length)] of the cache that a run reads
    from (copies) or writes to (section reads), in the order of the calls. *)
Definition segmentsOf (log : list Event) : list (Z * Z) :=
  log ≫= (λ e, match e with
               | SectionRead _ len offset => [(offset, len)]
               | Copied _ _ offset len => [(offset, len)]
               | _ => []
               end).


Definition totalLength (segments : list (Z * Z)) : Z :=
  foldr (λ '(_, len) acc, len + acc) 0 segments.


(** The split of the absolute range [[s, s + len)] over a buffer of capacity
    [C], in the words of the design: one segment when the range ends before
    the physical end, otherwise the part up to the physical end and the rest
    from index 0. *)
Definition wrapSplit (C s len : Z) : list (Z * Z) :=
  if s mod C + len <? C
  then [(s mod C, len)]
  else [(s mod C, C - s mod C); (0, len - (C - s mod C))].

(** What a refill and a read leave alone in the object: its configuration,
    its capacity and its registration with the background thread. *)
Definition sameSetup {S} (st st' : State S) : Prop :=
  numberOfSamplesToBuffer st' = numberOfSamplesToBuffer st
  ∧ numberOfChannels st' = numberOfChannels st
  ∧ capacity st' = capacity st
  ∧ isPrepared st' = isPrepared st
  ∧ isTimeSliceClient st' = isTimeSliceClient st.

(** The data-model invariant as a property of the object: the valid range is
    a range of positions from 0 on and, while the background thread serves the
    object, it fits in the cache less the guard margin, whose channel arrays
    all have the cache's length. *)
Definition cacheInvariant {S} (st : State S) : Prop :=
  0 <= bufferValidStart st <= bufferValidEnd st
  ∧ (isTimeSliceClient st = true →
     1024 <= capacity st
     ∧ bufferValidEnd st - bufferValidStart st <= capacity st - 4
     ∧ AudioBuffer.wf (buffer st)
     ∧ numberOfChannels st <= AudioBuffer.getNumChannels (buffer st)).

(** The true time between two readings of a counter that wraps at [2^32]. *)
Definition elapsedModulo (startTime now : Z) : Z := (now - startTime) mod 2 ^ 32.

(** ** The properties as the design document words them *)

Section Worded.
Context {S : Type} `{PositionableAudioSource S}.


(** On a full hit every channel of the caller's buffer receives the cached
    samples of the block. *)
Definition fullHitFillsEveryChannel (info : AudioSourceChannelInfo)
    (out : AudioBuffer.t) (st : State S) : Prop :=
  (∀ p, nextPlayPos st <= p < nextPlayPos st + numSamples info →
        bufferValidStart st <= p < bufferValidEnd st) →
  ∀ chan i,
    0 <= chan < AudioBuffer.getNumChannels out → 0 <= i < numSamples info →
    ∃ v, AudioBuffer.sample (buffer st) chan
           ((nextPlayPos st + i) mod capacity st) = Some v
         ∧ AudioBuffer.sample
             (fst (final (getNextAudioBlock info (out, st))))
             chan (startSample info + i)
           = Some v.


(** A configured minimum below twice the block size is rejected: the object
    is not prepared. *)
Definition rejectsSmallMinimum (st : State S) (samplesPerBlockExpected : Z)
    (newSampleRate : float) : Prop :=
  numberOfSamplesToBuffer st < 2 * samplesPerBlockExpected →
  isPrepared (final (prepareToPlay samplesPerBlockExpected newSampleRate st))
  = false.

End Worded.

(** ** Example objects *)

Definition tone : ArraySource :=
  {| recorded := [1; 2; 3; 4; 5; 6; 7; 8]%float; position := 0;
     looping := false |}.

(** A stereo cache of 4096 samples, as built, *)
Definition fresh : State ArraySource := construct tone 4096 2 false.

(** prepared for blocks of 512 samples, *)
Definition prepared : State ArraySource :=
  final (prepareToPlay 512 44100%float fresh).

(** after one refill, which caches [[0, 2048)], *)
Definition filled : State ArraySource := final (readNextBufferChunk prepared).

(** and after a seek to the middle of the cache's capacity. *)
Definition sought : State ArraySource :=
  final (setNextReadPosition 2048 filled).

(** The same cache once the owner has switched the source to looping. *)
Definition toggled : State ArraySource :=
  set_source {| recorded := recorded tone; position := 2048; looping := true |}
             filled.

(** The first refill followed by a seek close to the end of what is cached. *)
Definition nearEnd : State ArraySource :=
  final (setNextReadPosition 1800 filled).

(** The cache released after its first refill. *)
Definition released : State ArraySource := final (releaseResources filled).

(** A stereo block of 512 samples to fill. *)
Definition block512 : AudioSourceChannelInfo :=
  {| startSample := 0; numSamples := 512 |}.
Definition out512 : AudioBuffer.t := AudioBuffer.cleared 2 512.

(** A block of three channels, one more than the cache has, that holds 9
    throughout. *)
Definition out3 : AudioBuffer.t :=
  AudioBuffer.mk 512 (replicate 3 (replicate 512 9%float)).

(** ** The preroll wait and the background thread *)

(** What the thread in [waitForNextAudioBlockReady] meets at a turn of its
    loop that does not return: whether [bufferReadyEvent.wait] was signalled
    before its time-out (looked at only when the wait is made), the
    millisecond counter read after it, and the object as the other threads
    have left it by then. *)
Record Turn (S : Type) : Type :=
  { signalled : bool; counter : Z; objectThen : State S }.

Arguments signalled {S}.
Arguments counter {S}.
Arguments objectThen {S}.

Section Waiting.
Context {S : Type} `{PositionableAudioSource S}.

(** Lines 177-187: the block is ready when the valid range covers it. *)
Definition blockReady (info : AudioSourceChannelInfo) (st : State S) : bool :=
  let bufferRange := result (getValidBufferRange (numSamples info) st) in
  let validStart := Range.getStart bufferRange in
  let validEnd := Range.getEnd bufferRange in
  (validStart <=? 0) && (validStart <? validEnd)
  && (validEnd >=? numSamples info).

(** Lines 175-198: the loop. The result is the value returned, if the turns
    given reach a [return], and the arguments of the waits made. *)
Fixpoint waitLoop (info : AudioSourceChannelInfo) (timeout startTime : Z)
    (elapsedNow : Z) (st : State S) (turns : list (Turn S))
    : option bool * list Z :=
  if elapsedNow <=? timeout
  then
    if blockReady info st
    then (Some true, [])
    else
      match turns with
      | [] => (None, [])
      | turn :: turns' =>
          let next :=
            waitLoop info timeout startTime
                     (elapsed startTime (counter turn)) (objectThen turn)
                     turns' in
          if elapsedNow <? timeout
          then
            let budget := to_int (to_uint32 (timeout - elapsedNow)) in
            if negb (signalled turn)
            then (Some false, [budget])
            else (fst next, budget :: snd next)
          else next
      end
  else (Some false, []).

(** [waitForNextAudioBlockReady (info, timeout)], entered when the counter
    reads [startTime]. *)
Definition waitForNextAudioBlockReady (info : AudioSourceChannelInfo)
    (timeout startTime : Z) (st : State S) (turns : list (Turn S))
    : option bool * list Z :=
  if source_getTotalLength (source st) <=? 0
  then (Some false, [])
  else if (nextPlayPos st + numSamples info <? 0)
          || (negb (source_isLooping (source st))
              && (nextPlayPos st >? source_getTotalLength (source st)))
  then (Some true, [])
  else waitLoop info timeout startTime (elapsed startTime startTime) st turns.

(** [k] calls of [useTimeSlice] in a row by the background thread, with
    nothing else touching the object in between. *)
Fixpoint timeSlices (k : nat) (st : State S) : State S :=
  match k with
  | O => st
  | Datatypes.S k' => timeSlices k' (final (useTimeSlice st))
  end.

(** The cache holds the samples [played]: every position of the valid range
    is present, on every channel, at its physical index. *)
Definition holds (played : Z → Z → float) (st : State S) : Prop :=
  ∀ chan p,
    0 <= chan < AudioBuffer.getNumChannels (buffer st) →
    bufferValidStart st <= p < bufferValidEnd st →
    AudioBuffer.sample (buffer st) chan (p mod capacity st)
    = Some (played chan p).

(** The sources in [good] play the samples [played]: a block read at a
    position holds the samples from that position on, on every channel, and
    seeking and reading stay within [good]. *)
Definition plays (played : Z → Z → float) (good : S → Prop) : Prop :=
  (∀ s p, good s →
     good (source_setNextReadPosition p s)
     ∧ source_getNextReadPosition (source_setNextReadPosition p s) = p)
  ∧ (∀ s numChannels n, good s →
       good (snd (source_getNextAudioBlock numChannels n s))
       ∧ ∀ chan j, 0 <= chan < numChannels → 0 <= j < n →
           fst (source_getNextAudioBlock numChannels n s) !! Z.to_nat chan
             ≫= (λ samples, samples !! Z.to_nat j)
           = Some (played chan (source_getNextReadPosition s + j))).

(** The object at rest between refills: the looping flag remembered is the
    source's and [max (0, nextPlayPos)] is cached no more than 512 samples
    after the start of the valid range. *)
Definition settled (st : State S) : Prop :=
  wasSourceLooping st = source_isLooping (source st)
  ∧ bufferValidStart st <= Z.max 0 (nextPlayPos st) < bufferValidEnd st
  ∧ Z.max 0 (nextPlayPos st) - bufferValidStart st <= 512.

(** What is left to fill: from the end of the valid range to the end of the
    window, [max (0, nextPlayPos) + capacity - 4]. *)
Definition shortfall (st : State S) : Z :=
  Z.max 0 (nextPlayPos st) + capacity st - 4 - bufferValidEnd st.

(** Lines 83-84 of [prepareToPlay]: the test of the prefill loop, which keeps
    the caller yielding to the background thread and sleeping while it
    holds; [rate] is [(int) newSampleRate]. *)
Definition prefillPending (rate : Z) (st : State S) : bool :=
  prefillBuffer st
  && (bufferValidEnd st - bufferValidStart st
      <? jmin (rate ÷ 4) (capacity st ÷ 2)).

End Waiting.

(** * Properties *)

(** ** Runs of the example objects *)

Example prepared_capacity :
  capacity prepared = 4096
  ∧ events (prepareToPlay 512 44100%float fresh) = [RangeWritten 0 0 4096].
Proof. split; reflexivity. Qed.

(** The first refill is a cold start: one chunk of 2048 samples from 0. *)
Example first_refill :
  events (readNextBufferChunk prepared)
  = [RangeWritten 0 0 4096; SectionRead 0 2048 0; RangeWritten 0 2048 4096;
     ReadySignalled]
  ∧ useTimeSlice prepared = (1, filled, events (readNextBufferChunk prepared)).
Proof. split; reflexivity. Qed.

(** The second refill extends the tail up to the guard margin, and the third
    has nothing to do. *)
Example second_refill :
  events (readNextBufferChunk filled)
  = [RangeWritten 0 2048 4096; SectionRead 2048 2044 2048;
     RangeWritten 0 4092 4096; ReadySignalled].
Proof. reflexivity. Qed.

Example steady_refill :
  let full := final (readNextBufferChunk filled) in
  result (readNextBufferChunk full) = false
  ∧ events (readNextBufferChunk full) = []
  ∧ result (useTimeSlice full) = 100.
Proof. repeat split; reflexivity. Qed.

(** With the cursor at 1800 the window has drifted: the tail is extended by
    one chunk, up to the physical end of the cache, and the head is
    tightened to the cursor. *)
Example drift_refill :
  events (readNextBufferChunk nearEnd)
  = [RangeWritten 1800 2048 4096; SectionRead 2048 2048 2048;
     SectionRead 4096 0 0; RangeWritten 1800 4096 4096; ReadySignalled].
Proof. reflexivity. Qed.

(** A read of the cached start of the recording, and a read that runs past
    what is cached. *)
Example read_after_refill :
  let r := getNextAudioBlock block512 (out512, filled) in
  events r = [Copied 1 0 0 512; Copied 0 0 0 512]
  ∧ AudioBuffer.sample (fst (final r)) 1 5 = Some 6%float
  ∧ nextPlayPos (snd (final r)) = 512.
Proof. repeat split; reflexivity. Qed.

Example read_near_end :
  events (getNextAudioBlock block512 (out512, nearEnd))
  = [Cleared 248 264; Copied 1 0 1800 248; Copied 0 0 1800 248].
Proof. reflexivity. Qed.

(** [releaseResources] shrinks the cache to nothing and leaves the valid
    range as it was: until the next [prepareToPlay] resets it, the range is
    wider than the capacity. *)
Example released_range :
  capacity released = 0
  ∧ bufferValidEnd released - bufferValidStart released = 2048
  ∧ isTimeSliceClient released = false.
Proof. repeat split; reflexivity. Qed.

(** ** Arithmetic of the helpers *)

Lemma to_int_small x : - 2 ^ 31 <= x < 2 ^ 31 → to_int x = x.
Proof. intros Hx. unfold to_int. rewrite Z.mod_small; lia. Qed.

Lemma jmax_max a b : jmax a b = Z.max a b.
Proof. unfold jmax. destruct (Z.ltb_spec a b); lia. Qed.

Lemma jmin_min a b : jmin a b = Z.min a b.
Proof. unfold jmin. destruct (Z.ltb_spec b a); lia. Qed.

Lemma jlimit_clamp lo hi v :
  lo <= hi → jlimit lo hi v = Z.max lo (Z.min hi v).
Proof.
  intros Hle. unfold jlimit.
  destruct (Z.ltb_spec v lo); [lia|]. destruct (Z.ltb_spec hi v); lia.
Qed.

Lemma elapsed_no_rollover startTime now :
  0 <= startTime <= now → now <= UINT32_MAX →
  elapsed startTime now = elapsedModulo startTime now.
Proof.
  intros H1 H2. unfold elapsed, elapsedModulo, to_uint32.
  destruct (Z.geb_spec now startTime); [reflexivity | lia].
Qed.

(** Past a rollover the expression is one millisecond short. *)
Lemma elapsed_rollover startTime now :
  0 <= now < startTime → startTime <= UINT32_MAX →
  elapsed startTime now = elapsedModulo startTime now - 1.
Proof.
  unfold UINT32_MAX. intros H1 H2. unfold elapsed, elapsedModulo, to_uint32.
  destruct (Z.geb_spec now startTime); [lia|].
  rewrite (Z.mod_small (2 ^ 32 - 1 - startTime)) by lia.
  rewrite (Z.mod_small (2 ^ 32 - 1 - startTime + now)) by lia.
  replace (now - startTime) with (now - startTime + 2 ^ 32 + (-1) * 2 ^ 32) by lia.
  rewrite Z.mod_add by lia. rewrite Z.mod_small; lia.
Qed.

(** C8: at the counter readings [startTime = 2^32 - 1], [now = 0], one
    millisecond apart across the rollover, the expression of
    [waitForNextAudioBlockReady] evaluates to 0 where the elapsed time
    modulo [2^32] is 1. *)
Theorem elapsed_across_rollover_is_short :
  elapsed 4294967295 0 = 0 ∧ elapsedModulo 4294967295 0 = 1.
Proof. split; reflexivity. Qed.

(** ** The block-relative valid range *)

Section ReadPath.
Context {S : Type} `{PositionableAudioSource S}.
Implicit Type st : State S.

Lemma getValidBufferRange_run n st :
  getValidBufferRange n st
  = (Range.make
       (to_int (jlimit (bufferValidStart st) (bufferValidEnd st) (nextPlayPos st)
                - nextPlayPos st))
       (to_int (jlimit (bufferValidStart st) (bufferValidEnd st)
                  (nextPlayPos st + n) - nextPlayPos st)),
     st, []).
Proof. reflexivity. Qed.

Lemma Range_make_empty a : Range.isEmpty (Range.make a a) = true.
Proof.
  unfold Range.isEmpty, Range.make, jmax. simpl.
  rewrite Z.ltb_irrefl. apply Z.eqb_refl.
Qed.

(** The range is empty, or it is the clamped cursor range made relative to
    the cursor, unharmed by the casts. *)
Lemma validRange_shape st n :
  bufferValidStart st <= bufferValidEnd st → 0 <= n <= INT_MAX →
  let r := result (getValidBufferRange n st) in
  let a := jlimit (bufferValidStart st) (bufferValidEnd st) (nextPlayPos st) in
  let b := jlimit (bufferValidStart st) (bufferValidEnd st)
             (nextPlayPos st + n) in
  Range.isEmpty r = true
  ∨ (Range.isEmpty r = false
     ∧ Range.getStart r = a - nextPlayPos st
     ∧ Range.getEnd r = b - nextPlayPos st
     ∧ 0 <= a - nextPlayPos st < b - nextPlayPos st
     ∧ b - nextPlayPos st <= n).
Proof.
  unfold INT_MAX. cbv zeta. intros Hrange Hn.
  rewrite getValidBufferRange_run. unfold result. simpl fst.
  set (a := jlimit _ _ (nextPlayPos st)).
  set (b := jlimit _ _ (nextPlayPos st + n)).
  destruct (decide (a = b)) as [Hab | Hab].
  { left. rewrite Hab. apply Range_make_empty. }
  right.
  assert (Ha : a = Z.max (bufferValidStart st)
                 (Z.min (bufferValidEnd st) (nextPlayPos st)))
    by (apply jlimit_clamp; lia).
  assert (Hb : b = Z.max (bufferValidStart st)
                 (Z.min (bufferValidEnd st) (nextPlayPos st + n)))
    by (apply jlimit_clamp; lia).
  assert (Hbounds : 0 <= a - nextPlayPos st < b - nextPlayPos st
                    ∧ b - nextPlayPos st <= n) by lia.
  rewrite !to_int_small by lia.
  unfold Range.isEmpty, Range.make, jmax. simpl.
  destruct (Z.ltb_spec (a - nextPlayPos st) (b - nextPlayPos st)); [|lia].
  repeat split; lia.
Qed.

(** An empty intersection of the requested range with the valid range makes
    the block-relative range empty. *)
Lemma validRange_empty st n :
  bufferValidStart st <= bufferValidEnd st → 0 <= n →
  (∀ p, nextPlayPos st <= p < nextPlayPos st + n →
        ¬ (bufferValidStart st <= p < bufferValidEnd st)) →
  Range.isEmpty (result (getValidBufferRange n st)) = true.
Proof.
  intros Hrange Hn Hdisjoint.
  rewrite getValidBufferRange_run. unfold result. simpl fst.
  set (a := jlimit _ _ (nextPlayPos st)). set (b := jlimit _ _ (nextPlayPos st + n)).
  assert (Hab : a = b); [|rewrite Hab; apply Range_make_empty].
  subst a b. unfold jlimit.
  pose proof (Hdisjoint (nextPlayPos st)) as H0.
  pose proof (Hdisjoint (bufferValidStart st)) as H1.
  repeat match goal with
         | |- context [?x <? ?y] => destruct (Z.ltb_spec x y)
         end; lia.
Qed.

End ReadPath.

(** ** Running the monad *)

Lemma bind_run {Σ A B} (m : M Σ A) (k : A → M Σ B) s :
  bind m k s
  = (result (k (result (m s)) (final (m s))),
     final (k (result (m s)) (final (m s))),
     events (m s) ++ events (k (result (m s)) (final (m s)))).
Proof.
  unfold bind, result, final, events.
  destruct (m s) as [[a s1] log1]. simpl.
  destruct (k a s1) as [[b s2] log2]. reflexivity.
Qed.

Lemma bind_final {Σ A B} (m : M Σ A) (k : A → M Σ B) s :
  final (bind m k s) = final (k (result (m s)) (final (m s))).
Proof. rewrite bind_run. reflexivity. Qed.

Lemma bind_events {Σ A B} (m : M Σ A) (k : A → M Σ B) s :
  events (bind m k s)
  = events (m s) ++ events (k (result (m s)) (final (m s))).
Proof. rewrite bind_run. reflexivity. Qed.

Lemma bind_result {Σ A B} (m : M Σ A) (k : A → M Σ B) s :
  result (bind m k s) = result (k (result (m s)) (final (m s))).
Proof. rewrite bind_run. reflexivity. Qed.

(** ** The read path, call by call *)

Section ReadPathRuns.
Context {S : Type} `{PositionableAudioSource S}.
Implicit Type st : State S.

Lemma out_clear_run start len out st :
  out_clear start len (out, st)
  = (tt, (AudioBuffer.clear out start len, st), [Cleared start len]).
Proof. reflexivity. Qed.

Lemma out_copyFrom_run dc ds sc ss len out st :
  out_copyFrom dc ds sc ss len (out, st)
  = (tt, (AudioBuffer.copyFrom out dc ds (buffer st) sc ss len, st),
     [Copied dc ds ss len]).
Proof. reflexivity. Qed.

Lemma copyChannel_object info vs ve chan out st :
  snd (final (copyChannel info vs ve chan (out, st))) = st.
Proof.
  unfold copyChannel. rewrite bind_final. cbn [self get result final fst snd].
  destruct (_ <? _); [reflexivity|].
  rewrite bind_final, !out_copyFrom_run. reflexivity.
Qed.

Lemma forDown_object (body : Z → M (AudioBuffer.t * State S) unit) k :
  (∀ chan out st, snd (final (body chan (out, st))) = st) →
  ∀ out st, snd (final (forDown k body (out, st))) = st.
Proof.
  intros Hbody. induction k as [|k IH]; intros out st; [reflexivity|].
  cbn [forDown]. rewrite bind_final.
  specialize (Hbody (Z.of_nat k) out st).
  destruct (final (body (Z.of_nat k) (out, st))) as [out' st'].
  simpl in Hbody. subst st'. apply IH.
Qed.

(** A total cache miss: the block is cleared and the method returns. *)
Lemma getNextAudioBlock_miss info out st :
  Range.isEmpty (result (getValidBufferRange (numSamples info) st)) = true →
  getNextAudioBlock info (out, st)
  = (tt, (AudioBuffer.clear out (startSample info) (numSamples info), st),
     [Cleared (startSample info) (numSamples info)]).
Proof.
  intros Hempty. unfold getNextAudioBlock. rewrite bind_run.
  rewrite getValidBufferRange_run in Hempty. unfold result in Hempty.
  simpl fst in Hempty.
  cbn [self getValidBufferRange bind get ret result final events fst snd].
  rewrite Hempty. rewrite out_clear_run. reflexivity.
Qed.

(** Otherwise the object changes by its cursor alone, which advances. *)
Lemma getNextAudioBlock_hit_object info out st :
  Range.isEmpty (result (getValidBufferRange (numSamples info) st)) = false →
  snd (final (getNextAudioBlock info (out, st)))
  = set_nextPlayPos (nextPlayPos st + numSamples info) st.
Proof.
  intros Hempty. unfold getNextAudioBlock. rewrite bind_final.
  rewrite getValidBufferRange_run in Hempty. unfold result in Hempty.
  simpl fst in Hempty.
  cbn [self getValidBufferRange bind get ret result final events fst snd].
  rewrite Hempty.
  set (r := Range.make _ _).
  rewrite bind_final.
  assert (Hwhen1 : ∀ c a b o, snd (final (when c (out_clear a b) (o, st))) = st)
    by (intros [] ? ? ?; reflexivity).
  pose proof (Hwhen1 (0 <? Range.getStart r) (startSample info)
                (Range.getStart r) out) as H1.
  destruct (final (when (0 <? Range.getStart r) _ (out, st))) as [out1 st1].
  simpl in H1. subst st1.
  rewrite bind_final.
  pose proof (Hwhen1 (Range.getEnd r <? numSamples info)
                (startSample info + Range.getEnd r)
                (numSamples info - Range.getEnd r) out1) as H2.
  destruct (final (when (Range.getEnd r <? numSamples info) _ (out1, st)))
    as [out2 st2].
  simpl in H2. subst st2.
  rewrite bind_final.
  match goal with
  | |- context [final (when ?c ?m (out2, st))] =>
      assert (H3 : snd (final (when c m (out2, st))) = st)
  end.
  { destruct (_ <? _); [|reflexivity]. unfold when.
    rewrite bind_final. cbn [get result final fst snd].
    apply forDown_object. intros. apply copyChannel_object. }
  match goal with
  | |- context [final (when ?c ?m (out2, st))] =>
      destruct (final (when c m (out2, st))) as [out3 st3]
  end.
  simpl in H3. subst st3. reflexivity.
Qed.

End ReadPathRuns.

(** ** The cursor *)

Section Cursor.
Context {S : Type} `{PositionableAudioSource S}.
Implicit Type st : State S.


(** The whole object is left as it was by a total cache miss. *)
Lemma total_miss_keeps_object info out st :
  Range.isEmpty (result (getValidBufferRange (numSamples info) st)) = true →
  snd (final (getNextAudioBlock info (out, st))) = st.
Proof. intros Hempty. rewrite getNextAudioBlock_miss by assumption. reflexivity. Qed.

End Cursor.



(** ** Configuration *)

Section Configure.
Context {S : Type} `{PositionableAudioSource S}.
Implicit Type st : State S.

Lemma prepareToPlay_prepared st samplesPerBlockExpected newSampleRate :
  let st' := final (prepareToPlay samplesPerBlockExpected newSampleRate st) in
  isPrepared st' = true
  ∧ capacity st'
    = jmax (samplesPerBlockExpected * 2) (numberOfSamplesToBuffer st)
  ∧ numberOfSamplesToBuffer st' = numberOfSamplesToBuffer st.
Proof.
  cbv zeta. unfold prepareToPlay. rewrite bind_final.
  cbn [get result final fst snd].
  destruct (negb (PrimFloat.eqb _ _)) eqn:Hrate; cbn [orb].
  { repeat split. }
  destruct (negb (_ =? _)) eqn:Hsize; cbn [orb].
  { repeat split. }
  destruct (isPrepared st) eqn:Hprepared; cbn [negb].
  - apply negb_false_iff, Z.eqb_eq in Hsize.
    cbn [ret final fst snd]. auto.
  - repeat split.
Qed.

(** C9, amended: a [prepareToPlay] whose configured minimum is smaller than
    twice the requested block size, twice the block size being an [int] (the
    product of line 52 does not overflow), is accepted; the object is
    prepared with a capacity of twice the block size, and the configured
    minimum is kept. *)
Theorem small_minimum_is_raised st samplesPerBlockExpected newSampleRate :
  - 2 ^ 31 <= 2 * samplesPerBlockExpected <= INT_MAX →
  numberOfSamplesToBuffer st < 2 * samplesPerBlockExpected →
  let st' := final (prepareToPlay samplesPerBlockExpected newSampleRate st) in
  isPrepared st' = true
  ∧ capacity st' = 2 * samplesPerBlockExpected
  ∧ numberOfSamplesToBuffer st' = numberOfSamplesToBuffer st.
Proof.
  intros _ Hsmall.
  pose proof (prepareToPlay_prepared st samplesPerBlockExpected newSampleRate)
    as (Hprepared & Hcapacity & Hminimum).
  cbv zeta. repeat split; [assumption | | assumption].
  rewrite Hcapacity, jmax_max. lia.
Qed.

End Configure.

Lemma small_minimum_is_raised_witness :
  - 2 ^ 31 <= 2 * 4096 <= INT_MAX
  ∧ numberOfSamplesToBuffer fresh < 2 * 4096
  ∧ isPrepared (final (prepareToPlay 4096 44100%float fresh)) = true
  ∧ capacity (final (prepareToPlay 4096 44100%float fresh)) = 2 * 4096
  ∧ numberOfSamplesToBuffer (final (prepareToPlay 4096 44100%float fresh))
    = numberOfSamplesToBuffer fresh.
Proof.
  assert (Hint : - 2 ^ 31 <= 2 * 4096 <= INT_MAX)
    by (split; vm_compute; discriminate).
  split; [exact Hint|]. split; [reflexivity|].
  apply (small_minimum_is_raised fresh 4096 44100%float Hint). reflexivity.
Defined.

(** C9, as worded, fails: built with a minimum of 4096 samples and prepared
    for blocks of 4096 samples, the object is prepared (with 8192 samples)
    rather than turned down. *)
Lemma small_minimum_is_not_rejected :
  ¬ rejectsSmallMinimum fresh 4096 44100%float.
Proof.
  unfold rejectsSmallMinimum. intros Hrejected.
  assert (Hsmall : numberOfSamplesToBuffer fresh < 2 * 4096) by reflexivity.
  apply Hrejected in Hsmall. vm_compute in Hsmall. discriminate.
Qed.

(** ** The refill, call by call *)

Section Refill.
Context {S : Type} `{PositionableAudioSource S}.
Implicit Type st : State S.

Lemma storeBlock_numSamples b offset len block :
  AudioBuffer.getNumSamples (storeBlock b offset len block)
  = AudioBuffer.getNumSamples b.
Proof. unfold storeBlock. destruct (AudioBuffer.inRegion _ _ _); reflexivity. Qed.

(** A section read logs itself and touches the source and the samples of the
    cache, nothing else. *)
Lemma readBufferSection_run start len offset st :
  ∃ s' b',
    readBufferSection start len offset st
    = (tt, set_source s' (set_buffer b' st), [SectionRead start len offset])
    ∧ AudioBuffer.getNumSamples b' = capacity st.
Proof.
  unfold readBufferSection. rewrite !bind_run.
  cbn [tell get result final events fst snd].
  destruct (negb (_ =? start));
    cbn [when onSource modify ret get result final events fst snd source buffer
         set_source];
    match goal with
    | |- context [source_getNextAudioBlock ?c ?n ?s] =>
        destruct (source_getNextAudioBlock c n s) as [block s'] eqn:Hblock
    end;
    rewrite ?bind_run;
    cbn [modify result final events fst snd app set_source set_buffer buffer];
    eexists s', _; (split; [reflexivity|]); apply storeBlock_numSamples.
Qed.

Lemma readSection_run sectionStart sectionEnd st :
  ∃ s' b',
    final (readSection sectionStart sectionEnd st)
    = set_source s' (set_buffer b' st)
    ∧ AudioBuffer.getNumSamples b' = capacity st
    ∧ events (readSection sectionStart sectionEnd st)
      = let indexStart := to_int (Z.rem sectionStart (capacity st)) in
        let indexEnd := to_int (Z.rem sectionEnd (capacity st)) in
        if indexStart <? indexEnd
        then [SectionRead sectionStart (to_int (sectionEnd - sectionStart))
                indexStart]
        else [SectionRead sectionStart (capacity st - indexStart) indexStart;
              SectionRead (sectionStart + (capacity st - indexStart))
                (to_int (sectionEnd - sectionStart)
                 - (capacity st - indexStart)) 0].
Proof.
  unfold readSection. rewrite bind_run. cbn [get result final events fst snd app].
  cbv zeta. destruct (_ <? _).
  - destruct (readBufferSection_run sectionStart
                (to_int (sectionEnd - sectionStart))
                (to_int (Z.rem sectionStart (capacity st))) st)
      as (s' & b' & -> & Hsize).
    exists s', b'. repeat split. assumption.
  - rewrite bind_run.
    destruct (readBufferSection_run sectionStart
                (capacity st - to_int (Z.rem sectionStart (capacity st)))
                (to_int (Z.rem sectionStart (capacity st))) st)
      as (s1 & b1 & -> & Hsize1).
    cbn [result final events fst snd].
    match goal with
    | |- context [readBufferSection ?a ?b ?c ?s] =>
        destruct (readBufferSection_run a b c s) as (s2 & b2 & -> & Hsize2)
    end.
    exists s2, b2. repeat split. rewrite Hsize2. exact Hsize1.
Qed.

End Refill.

(** ** The refill policy *)

Section Policy.
Context {S : Type} `{PositionableAudioSource S}.
Implicit Type st : State S.

(** The decisions of [chooseSection], branch by branch. [st1] is the object
    once a change of the looping flag has been handled. *)
Lemma chooseSection_run st :
  let looping := source_isLooping (source st) in
  let changed := negb (Bool.eqb (wasSourceLooping st) looping) in
  let st1 :=
    if changed then set_validRange 0 0 (set_wasSourceLooping looping st)
    else st in
  let log1 := if changed then [RangeWritten 0 0 (capacity st)] else [] in
  let newBVS := jmax 0 (nextPlayPos st) in
  let newBVE := newBVS + capacity st - 4 in
  chooseSection st
  = if (newBVS <? bufferValidStart st1) || (newBVS >=? bufferValidEnd st1)
    then
      let newBVE' := jmin newBVE (newBVS + maxChunkSize) in
      ((newBVS, newBVE', newBVS, newBVE'),
       set_validRange 0 0 st1,
       log1 ++ [RangeWritten 0 0 (capacity st)])
    else if (512 <? Z.abs (to_int (newBVS - bufferValidStart st1)))
            || (512 <? Z.abs (to_int (newBVE - bufferValidEnd st1)))
    then
      let newBVE' := jmin newBVE (bufferValidEnd st1 + maxChunkSize) in
      ((newBVS, newBVE', bufferValidEnd st1, newBVE'),
       set_validRange newBVS (jmin (bufferValidEnd st1) newBVE') st1,
       log1 ++ [RangeWritten newBVS (jmin (bufferValidEnd st1) newBVE')
                  (capacity st)])
    else ((newBVS, newBVE, 0, 0), st1, log1).
Proof.
  cbv zeta. unfold chooseSection. rewrite bind_run.
  cbn [isLooping gets result final events fst snd]. rewrite bind_run.
  cbn [get result final events fst snd app]. rewrite bind_run.
  destruct (negb (Bool.eqb _ _));
    cbn -[jmax jmin to_int Z.abs Z.ltb Z.geb Z.add Z.sub maxChunkSize];
    destruct (_ || _); [reflexivity| |reflexivity|];
    destruct (_ || _); reflexivity.
Qed.

(** The whole refill after the decisions: nothing when no section was chosen,
    otherwise the read, the commit and the signal. *)
Lemma readNextBufferChunk_run st :
  let chosen := chooseSection st in
  let '(newBVS, newBVE, sectionStart, sectionEnd) := result chosen in
  readNextBufferChunk st
  = if sectionStart =? sectionEnd
    then (false, final chosen, events chosen)
    else
      let read := readSection sectionStart sectionEnd (final chosen) in
      (true,
       set_validRange newBVS newBVE (final read),
       events chosen ++ events read
       ++ [RangeWritten newBVS newBVE (capacity (final read)); ReadySignalled]).
Proof.
  cbv zeta. unfold readNextBufferChunk. rewrite bind_run.
  destruct (result (chooseSection st)) as [[[newBVS newBVE] sStart] sEnd].
  destruct (sStart =? sEnd).
  - cbn [ret result final events fst snd]. rewrite ?app_nil_r.
    destruct (chooseSection st) as [[? ?] ?]. reflexivity.
  - rewrite !bind_run.
    cbn [setValidRange bind modify gets tell ret result final events fst snd app
         capacity set_validRange buffer].
    rewrite ?app_nil_r. reflexivity.
Qed.

End Policy.

(** ** What a refill leaves alone *)

Section Frame.
Context {S : Type} `{PositionableAudioSource S}.
Implicit Type st : State S.

Lemma chooseSection_frame st :
  sameSetup st (final (chooseSection st))
  ∧ nextPlayPos (final (chooseSection st)) = nextPlayPos st.
Proof.
  pose proof (chooseSection_run st) as Hrun. cbv zeta in Hrun. rewrite Hrun.
  unfold sameSetup.
  destruct (negb (Bool.eqb _ _)); destruct (_ || _);
    try destruct (_ || _); repeat split.
Qed.

Lemma readSection_frame sectionStart sectionEnd st :
  sameSetup st (final (readSection sectionStart sectionEnd st))
  ∧ nextPlayPos (final (readSection sectionStart sectionEnd st))
    = nextPlayPos st
  ∧ wasSourceLooping (final (readSection sectionStart sectionEnd st))
    = wasSourceLooping st.
Proof.
  destruct (readSection_run sectionStart sectionEnd st)
    as (s' & b' & -> & Hsize & _).
  unfold sameSetup. repeat split. exact Hsize.
Qed.

Lemma readNextBufferChunk_frame st :
  sameSetup st (final (readNextBufferChunk st))
  ∧ nextPlayPos (final (readNextBufferChunk st)) = nextPlayPos st.
Proof.
  pose proof (readNextBufferChunk_run st) as Hrun. cbv zeta in Hrun.
  destruct (chooseSection_frame st) as [Hchosen Hpos].
  destruct (result (chooseSection st)) as [[[newBVS newBVE] sStart] sEnd].
  rewrite Hrun. destruct (sStart =? sEnd); [split; assumption|].
  destruct (readSection_frame sStart sEnd (final (chooseSection st)))
    as (Hread & Hpos' & _).
  unfold sameSetup in *. cbn [final fst snd].
  cbn [set_validRange numberOfSamplesToBuffer numberOfChannels capacity buffer
       isPrepared isTimeSliceClient nextPlayPos].
  match goal with
  | |- context [capacity (set_validRange ?a ?b ?s)] =>
      change (capacity (set_validRange a b s)) with (capacity s)
  end.
  intuition congruence.
Qed.

(** In every reachable state the configured minimum is at least 1024 samples
    and, while the background thread serves the object, so is the capacity. *)
Lemma reachable_capacity st :
  reachable st →
  1024 <= numberOfSamplesToBuffer st
  ∧ (isTimeSliceClient st = true → 1024 <= capacity st).
Proof.
  induction 1 as [s size chans prefill
                 | st spbe rate Hreach [IHmin IHcap]
                 | st Hreach [IHmin IHcap]
                 | st pos Hreach [IHmin IHcap]
                 | st s' Hreach [IHmin IHcap]
                 | st info out Hreach [IHmin IHcap]
                 | st Hreach [IHmin IHcap] Hclient].
  - cbn. rewrite jmax_max. split; [lia | discriminate].
  - pose proof (prepareToPlay_prepared st spbe rate) as (_ & Hcap & Hmin).
    cbv zeta in Hcap, Hmin. rewrite Hcap, Hmin, jmax_max. split; lia.
  - cbn. split; [assumption | discriminate].
  - cbn. split; assumption.
  - cbn. split; assumption.
  - destruct (Range.isEmpty (result (getValidBufferRange (numSamples info) st)))
      eqn:Hempty.
    + rewrite total_miss_keeps_object by assumption. split; assumption.
    + rewrite getNextAudioBlock_hit_object by assumption. split; assumption.
  - destruct (readNextBufferChunk_frame st)
      as [(Hmin & _ & Hcap & _ & Hcl) _].
    rewrite Hmin, Hcap, Hcl. split; assumption.
Qed.

End Frame.

(** ** The invariant of the valid range *)

Section RangeInvariant.
Context {S : Type} `{PositionableAudioSource S}.
Implicit Type st : State S.

Lemma readSection_writes_no_range sectionStart sectionEnd st :
  Forall rangeWithinCapacity (events (readSection sectionStart sectionEnd st)).
Proof.
  destruct (readSection_run sectionStart sectionEnd st)
    as (s' & b' & _ & _ & ->).
  cbv zeta. destruct (_ <? _); repeat constructor.
Qed.

(** The writes of [prepareToPlay]: the reset, over the new capacity. *)
Lemma prepareToPlay_writes st samplesPerBlockExpected newSampleRate :
  0 <= numberOfSamplesToBuffer st →
  Forall rangeWithinCapacity
    (events (prepareToPlay samplesPerBlockExpected newSampleRate st)).
Proof.
  intros Hmin. unfold prepareToPlay. rewrite bind_events.
  cbn [get result final events fst snd app].
  destruct (_ || _); [|constructor].
  cbn -[jmax Z.mul]. repeat constructor; rewrite ?jmax_max; lia.
Qed.

(** The writes of a refill: the discards, the drift update and the commit. *)
Lemma readNextBufferChunk_writes st :
  4 <= capacity st →
  Forall rangeWithinCapacity (events (readNextBufferChunk st)).
Proof.
  intros Hcap.
  pose proof (readNextBufferChunk_run st) as Hrun. cbv zeta in Hrun.
  pose proof (chooseSection_run st) as Hchoose. cbv zeta in Hchoose.
  destruct (chooseSection_frame st) as [(_ & _ & Hcap1 & _) _].
  revert Hrun Hcap1. rewrite Hchoose. clear Hchoose.
  set (st1 := if negb _ then _ else st).
  set (log1 := if negb _ then _ else []).
  assert (Hlog1 : Forall rangeWithinCapacity log1).
  { subst log1. destruct (negb _); repeat constructor; simpl; lia. }
  destruct ((jmax 0 (nextPlayPos st) <? bufferValidStart st1) || _) eqn:Hcold;
    [|destruct ((512 <? _) || _) eqn:Hdrift];
    cbn [result final events fst snd]; intros Hrun Hcap1.
  - destruct (_ =? _) eqn:Hnone; rewrite Hrun; cbn [events snd].
    + apply Forall_app. split; [assumption|].
      repeat constructor; simpl; lia.
    + destruct (readSection_frame (jmax 0 (nextPlayPos st))
                  (jmin (jmax 0 (nextPlayPos st) + capacity st - 4)
                        (jmax 0 (nextPlayPos st) + maxChunkSize))
                  (set_validRange 0 0 st1)) as [(_ & _ & Hcap2 & _) _].
      rewrite Hcap2, Hcap1.
      repeat (apply Forall_app; split); try assumption.
      * repeat constructor; simpl; lia.
      * apply readSection_writes_no_range.
      * repeat constructor; simpl;
          rewrite ?jmin_min, ?jmax_max; unfold maxChunkSize; lia.
  - assert (Hin : bufferValidStart st1 <= jmax 0 (nextPlayPos st)
                  < bufferValidEnd st1) by lia.
    rewrite jmax_max in Hin.
    destruct (_ =? _) eqn:Hnone; rewrite Hrun; cbn [events snd].
    + apply Forall_app. split; [assumption|].
      repeat constructor; simpl;
        rewrite ?jmin_min, ?jmax_max; unfold maxChunkSize; lia.
    + match goal with
      | |- context [readSection ?a ?b ?s] =>
          destruct (readSection_frame a b s) as [(_ & _ & Hcap2 & _) _]
      end.
      rewrite Hcap2, Hcap1.
      repeat (apply Forall_app; split); try assumption.
      * repeat constructor; simpl;
          rewrite ?jmin_min, ?jmax_max; unfold maxChunkSize; lia.
      * apply readSection_writes_no_range.
      * repeat constructor; simpl;
          rewrite ?jmin_min, ?jmax_max; unfold maxChunkSize; lia.
  - rewrite Z.eqb_refl in Hrun. rewrite Hrun. assumption.
Qed.

(** C3: in every reachable state, each write of the valid range that
    [prepareToPlay] makes (the reset) and each one that [readNextBufferChunk]
    makes while the background thread serves the object (the discard on a
    change of the looping flag, the cold/seek discard, the drift update and
    the final commit) leaves [0 <= bufferValidEnd - bufferValidStart <=
    capacity]. *)
Theorem valid_range_stays_within_capacity st :
  reachable st →
  (∀ samplesPerBlockExpected newSampleRate,
     Forall rangeWithinCapacity
       (events (prepareToPlay samplesPerBlockExpected newSampleRate st)))
  ∧ (isTimeSliceClient st = true →
     Forall rangeWithinCapacity (events (readNextBufferChunk st))).
Proof.
  intros Hreach. destruct (reachable_capacity st Hreach) as [Hmin Hcap].
  split.
  - intros spbe rate. apply prepareToPlay_writes. lia.
  - intros Hclient. apply readNextBufferChunk_writes.
    specialize (Hcap Hclient). lia.
Qed.

End RangeInvariant.

(** ** The invariant of the cache in every reachable state *)

Section CacheInvariant.
Context {S : Type} `{PositionableAudioSource S}.
Implicit Type st : State S.

Lemma storeBlock_shape b offset len block :
  AudioBuffer.wf b →
  AudioBuffer.wf (storeBlock b offset len block)
  ∧ AudioBuffer.getNumChannels (storeBlock b offset len block)
    = AudioBuffer.getNumChannels b.
Proof.
  intros [Hsize Hwf]. unfold storeBlock.
  destruct (AudioBuffer.inRegion _ _ _); [|split; [split|]; auto].
  unfold AudioBuffer.wf, AudioBuffer.getNumChannels.
  cbn [AudioBuffer.getNumSamples AudioBuffer.channels].
  rewrite length_imap. split; [|reflexivity]. split; [assumption|].
  apply Forall_lookup. intros chan c Hc.
  apply list_lookup_imap_Some in Hc as (c0 & Hc0 & ->).
  pose proof (Forall_lookup_1 _ _ _ _ Hwf Hc0) as Hlen. cbn beta in Hlen.
  destruct (block !! chan); [|assumption].
  unfold AudioBuffer.store. rewrite length_inserts. assumption.
Qed.

Lemma readBufferSection_buffer start len offset st :
  AudioBuffer.wf (buffer st) →
  AudioBuffer.wf (buffer (final (readBufferSection start len offset st)))
  ∧ AudioBuffer.getNumChannels
      (buffer (final (readBufferSection start len offset st)))
    = AudioBuffer.getNumChannels (buffer st).
Proof.
  intros Hwf. unfold readBufferSection. rewrite !bind_run.
  cbn [tell get result final events fst snd].
  destruct (negb (_ =? start));
    cbn [when onSource modify ret get result final events fst snd source buffer
         set_source];
    match goal with
    | |- context [source_getNextAudioBlock ?c ?n ?s] =>
        destruct (source_getNextAudioBlock c n s) as [block s']
    end;
    rewrite ?bind_run;
    cbn [modify result final events fst snd app set_source set_buffer buffer];
    apply storeBlock_shape; assumption.
Qed.

Lemma readSection_buffer sectionStart sectionEnd st :
  AudioBuffer.wf (buffer st) →
  AudioBuffer.wf (buffer (final (readSection sectionStart sectionEnd st)))
  ∧ AudioBuffer.getNumChannels
      (buffer (final (readSection sectionStart sectionEnd st)))
    = AudioBuffer.getNumChannels (buffer st).
Proof.
  intros Hwf. unfold readSection. rewrite bind_final.
  cbn [get result final fst snd]. destruct (_ <? _).
  - apply readBufferSection_buffer. assumption.
  - rewrite bind_final.
    match goal with
    | |- context [final (readBufferSection ?a ?b ?c st)] =>
        destruct (readBufferSection_buffer a b c st Hwf) as [Hwf1 Hchans1];
        set (st1 := final (readBufferSection a b c st)) in *
    end.
    match goal with
    | |- context [final (readBufferSection ?a ?b ?c st1)] =>
        destruct (readBufferSection_buffer a b c st1 Hwf1) as [Hwf2 Hchans2]
    end.
    split; [assumption | congruence].
Qed.

Lemma cacheInvariant_commit st a b :
  0 <= a <= b →
  (isTimeSliceClient st = true →
   1024 <= capacity st ∧ b - a <= capacity st - 4
   ∧ AudioBuffer.wf (buffer st)
   ∧ numberOfChannels st <= AudioBuffer.getNumChannels (buffer st)) →
  cacheInvariant (set_validRange a b st).
Proof. intros Hrange Hprepared. split; assumption. Qed.

(** What a section read leaves of the facts the invariant needs. *)
Lemma readSection_keeps sectionStart sectionEnd st :
  isTimeSliceClient st = true → 1024 <= capacity st →
  AudioBuffer.wf (buffer st) →
  numberOfChannels st <= AudioBuffer.getNumChannels (buffer st) →
  let st' := final (readSection sectionStart sectionEnd st) in
  capacity st' = capacity st
  ∧ AudioBuffer.wf (buffer st')
  ∧ numberOfChannels st' <= AudioBuffer.getNumChannels (buffer st').
Proof.
  intros Hclient Hcap Hwf Hchans. cbv zeta.
  destruct (readSection_frame sectionStart sectionEnd st)
    as [(_ & Hnc & Hcap' & _) _].
  destruct (readSection_buffer sectionStart sectionEnd st Hwf) as [Hwf' Hch'].
  rewrite Hnc, Hch'. auto.
Qed.

Lemma refill_keeps_cacheInvariant st :
  cacheInvariant st → isTimeSliceClient st = true →
  cacheInvariant (final (readNextBufferChunk st)).
Proof.
  intros [Hrange Hprepared] Hclient.
  destruct (Hprepared Hclient) as (Hcap & Hfit & Hwf & Hchans).
  pose proof (readNextBufferChunk_run st) as Hrun. cbv zeta in Hrun.
  pose proof (chooseSection_run st) as Hchoose. cbv zeta in Hchoose.
  revert Hrun. rewrite Hchoose. clear Hchoose.
  set (st1 := if negb _ then _ else st).
  set (log1 := if negb _ then _ else []). clearbody log1.
  assert (Hst1 : (buffer st1 = buffer st
                  ∧ isTimeSliceClient st1 = isTimeSliceClient st
                  ∧ numberOfChannels st1 = numberOfChannels st)
                 ∧ 0 <= bufferValidStart st1 <= bufferValidEnd st1
                 ∧ bufferValidEnd st1 - bufferValidStart st1
                   <= capacity st - 4).
  { subst st1. destruct (negb _);
      cbn [buffer isTimeSliceClient numberOfChannels bufferValidStart
           bufferValidEnd set_validRange set_wasSourceLooping];
      repeat split; lia. }
  clearbody st1. destruct Hst1 as ((Hbuf & Hcl & Hnc) & Hrange1 & Hfit1).
  assert (Hprepared1 :
            ∀ a b, isTimeSliceClient (set_validRange a b st1) = true
                   ∧ 1024 <= capacity (set_validRange a b st1)
                   ∧ AudioBuffer.wf (buffer (set_validRange a b st1))
                   ∧ numberOfChannels (set_validRange a b st1)
                     <= AudioBuffer.getNumChannels
                          (buffer (set_validRange a b st1))).
  { intros a b. unfold capacity.
    cbn [buffer isTimeSliceClient numberOfChannels set_validRange].
    rewrite Hbuf, Hcl, Hnc. auto. }
  assert (Hcap1 : capacity st1 = capacity st)
    by (unfold capacity; rewrite Hbuf; reflexivity).
  set (newBVS := jmax 0 (nextPlayPos st)).
  assert (HnewBVS : 0 <= newBVS) by (subst newBVS; rewrite jmax_max; lia).
  clearbody newBVS.
  destruct ((newBVS <? bufferValidStart st1) || _) eqn:Hcold;
    [|destruct ((512 <? _) || _) eqn:Hdrift];
    cbn [result final events fst snd]; intros Hrun.
  - destruct (_ =? _) eqn:Hnone; rewrite Hrun; cbn [final fst snd].
    + exfalso. rewrite jmin_min in Hnone. unfold maxChunkSize in Hnone. lia.
    + destruct (Hprepared1 0 0) as (Hcl' & Hcap' & Hwf' & Hch').
      match goal with
      | |- context [readSection ?a ?b ?s] =>
          pose proof (readSection_keeps a b s Hcl' Hcap' Hwf' Hch') as Hkeep;
          destruct (readSection_frame a b s) as [(_ & _ & _ & _ & Hcl2) _]
      end.
      cbv zeta in Hkeep. destruct Hkeep as (Hcap2 & Hwf2 & Hch2).
      change (capacity (set_validRange 0 0 st1)) with (capacity st1) in *.
      apply cacheInvariant_commit.
      * rewrite jmin_min. unfold maxChunkSize. lia.
      * intros _. rewrite Hcap2, Hcap1.
        split; [|split; [|split]]; try assumption; try lia.
        rewrite jmin_min. unfold maxChunkSize. lia.
  - assert (Hin : bufferValidStart st1 <= newBVS < bufferValidEnd st1) by lia.
    destruct (_ =? _) eqn:Hnone; rewrite Hrun; cbn [final fst snd].
    + apply cacheInvariant_commit.
      * rewrite !jmin_min. unfold maxChunkSize. lia.
      * intros _. rewrite Hcap1. unfold capacity. rewrite Hbuf, Hnc.
        fold (capacity st).
        split; [|split; [|split]]; try assumption; try lia.
        rewrite !jmin_min. unfold maxChunkSize. lia.
    + match goal with
      | |- context [readSection ?a ?b (set_validRange ?x ?y st1)] =>
          destruct (Hprepared1 x y) as (Hcl' & Hcap' & Hwf' & Hch');
          pose proof (readSection_keeps a b (set_validRange x y st1)
                        Hcl' Hcap' Hwf' Hch') as Hkeep;
          destruct (readSection_frame a b (set_validRange x y st1))
            as [(_ & _ & _ & _ & Hcl2) _]
      end.
      cbv zeta in Hkeep. destruct Hkeep as (Hcap2 & Hwf2 & Hch2).
      match type of Hcap2 with
      | _ = capacity (set_validRange ?x ?y st1) =>
          change (capacity (set_validRange x y st1)) with (capacity st1) in *
      end.
      apply cacheInvariant_commit.
      * rewrite !jmin_min. unfold maxChunkSize. lia.
      * intros _. rewrite Hcap2, Hcap1.
        split; [|split; [|split]]; try assumption; try lia.
        rewrite !jmin_min. unfold maxChunkSize. lia.
  - rewrite Z.eqb_refl in Hrun. rewrite Hrun. cbn [final fst snd].
    split; [lia|]. intros _. rewrite Hcap1. unfold capacity.
    rewrite Hbuf, Hnc. fold (capacity st). auto.
Qed.

Lemma cleared_shape numChannels numSamples :
  0 <= numSamples →
  AudioBuffer.wf (AudioBuffer.cleared numChannels numSamples)
  ∧ numChannels
    <= AudioBuffer.getNumChannels (AudioBuffer.cleared numChannels numSamples).
Proof.
  intros Hn. unfold AudioBuffer.wf, AudioBuffer.getNumChannels,
    AudioBuffer.cleared.
  cbn [AudioBuffer.getNumSamples AudioBuffer.channels].
  rewrite length_replicate. split; [split; [assumption|] | lia].
  apply Forall_replicate. rewrite length_replicate. lia.
Qed.

Lemma prepareToPlay_keeps_cacheInvariant st samplesPerBlockExpected
    newSampleRate :
  1024 <= numberOfSamplesToBuffer st → cacheInvariant st →
  cacheInvariant
    (final (prepareToPlay samplesPerBlockExpected newSampleRate st)).
Proof.
  intros Hmin Hinv. unfold prepareToPlay. rewrite bind_final.
  cbn [get result final fst snd].
  destruct (_ || _); [|exact Hinv].
  set (needed := jmax _ _).
  assert (Hneeded : 1024 <= needed) by (subst needed; rewrite jmax_max; lia).
  destruct (cleared_shape (numberOfChannels st) needed ltac:(lia))
    as [Hwf Hchans].
  split; [cbn; lia|]. intros _. unfold capacity.
  cbn -[AudioBuffer.cleared]. fold needed.
  split; [|split; [|split]]; try assumption; cbn; lia.
Qed.

(** The data-model invariant holds in every reachable state. *)
Lemma reachable_cacheInvariant st : reachable st → cacheInvariant st.
Proof.
  induction 1 as [s size chans prefill
                 | st spbe rate Hreach IH
                 | st Hreach IH
                 | st pos Hreach IH
                 | st s' Hreach IH
                 | st info out Hreach IH
                 | st Hreach IH Hclient].
  - split; [cbn; lia | discriminate].
  - apply prepareToPlay_keeps_cacheInvariant; [|assumption].
    apply (reachable_capacity st Hreach).
  - destruct IH as [Hrange _]. split; [exact Hrange | discriminate].
  - exact IH.
  - exact IH.
  - destruct (Range.isEmpty (result (getValidBufferRange (numSamples info) st)))
      eqn:Hempty.
    + rewrite total_miss_keeps_object by assumption. exact IH.
    + rewrite getNextAudioBlock_hit_object by assumption. exact IH.
  - apply refill_keeps_cacheInvariant; assumption.
Qed.

(** While the background thread serves a reachable object, its valid range
    fits in its cache: [0 <= bufferValidEnd - bufferValidStart <= capacity]. *)
Lemma served_range_within_capacity st :
  reachable st → isTimeSliceClient st = true →
  0 <= bufferValidEnd st - bufferValidStart st <= capacity st.
Proof.
  intros Hreach Hclient.
  destruct (reachable_cacheInvariant st Hreach) as [Hrange Hserved].
  destruct (Hserved Hclient) as (Hcap & Hfit & _). lia.
Qed.

End CacheInvariant.

Lemma fresh_reachable : reachable fresh.
Proof. apply reach_construct. Qed.

Lemma prepared_reachable : reachable prepared.
Proof. apply reach_prepareToPlay, fresh_reachable. Qed.

Lemma filled_reachable : reachable filled.
Proof. apply reach_readNextBufferChunk; [apply prepared_reachable | reflexivity]. Qed.

Lemma sought_reachable : reachable sought.
Proof. apply reach_setNextReadPosition, filled_reachable. Qed.

Lemma valid_range_stays_within_capacity_witness :
  reachable sought
  ∧ (∀ samplesPerBlockExpected newSampleRate,
       Forall rangeWithinCapacity
         (events (prepareToPlay samplesPerBlockExpected newSampleRate sought)))
  ∧ (isTimeSliceClient sought = true →
     Forall rangeWithinCapacity (events (readNextBufferChunk sought))).
Proof.
  split; [exact sought_reachable|].
  apply (valid_range_stays_within_capacity sought). exact sought_reachable.
Defined.

(** ** The cold/seek path and the change of the looping flag *)

Section ColdPath.
Context {S : Type} `{PositionableAudioSource S}.
Implicit Type st : State S.

(** The refill when the cold/seek test succeeds on the object [st1] that the
    handling of the looping flag leaves. *)
Lemma cold_refill st :
  4 < capacity st →
  let looping := source_isLooping (source st) in
  let changed := negb (Bool.eqb (wasSourceLooping st) looping) in
  let st1 :=
    if changed then set_validRange 0 0 (set_wasSourceLooping looping st)
    else st in
  let log1 := if changed then [RangeWritten 0 0 (capacity st)] else [] in
  let newStart := jmax 0 (nextPlayPos st) in
  let newEnd := jmin (newStart + capacity st - 4) (newStart + maxChunkSize) in
  (newStart <? bufferValidStart st1) || (newStart >=? bufferValidEnd st1)
  = true →
  newStart < newEnd
  ∧ chooseSection st
    = ((newStart, newEnd, newStart, newEnd), set_validRange 0 0 st1,
       log1 ++ [RangeWritten 0 0 (capacity st)])
  ∧ readNextBufferChunk st
    = (true,
       set_validRange newStart newEnd
         (final (readSection newStart newEnd (set_validRange 0 0 st1))),
       (log1 ++ [RangeWritten 0 0 (capacity st)])
       ++ events (readSection newStart newEnd (set_validRange 0 0 st1))
       ++ [RangeWritten newStart newEnd (capacity st); ReadySignalled]).
Proof.
  cbv zeta. intros Hcap Hcold.
  pose proof (readNextBufferChunk_run st) as Hrun. cbv zeta in Hrun.
  pose proof (chooseSection_run st) as Hchoose. cbv zeta in Hchoose.
  rewrite Hcold in Hchoose. rewrite Hchoose in Hrun.
  cbn [result final events fst snd] in Hrun.
  assert (Hgrow : jmax 0 (nextPlayPos st)
                  < jmin (jmax 0 (nextPlayPos st) + capacity st - 4)
                         (jmax 0 (nextPlayPos st) + maxChunkSize)).
  { rewrite jmin_min. unfold maxChunkSize. lia. }
  split; [exact Hgrow|]. split; [exact Hchoose|].
  destruct (_ =? _) eqn:Hnone; [lia|].
  rewrite Hrun.
  match goal with
  | |- context [readSection ?a ?b ?s] =>
      destruct (readSection_frame a b s) as [(_ & _ & Hcap2 & _) _]
  end.
  rewrite Hcap2.
  match goal with
  | |- context [capacity (set_validRange ?a ?b ?s)] =>
      change (capacity (set_validRange a b s)) with (capacity s)
  end.
  destruct (negb _); reflexivity.
Qed.

End ColdPath.

Section SeekAndLoop.
Context {S : Type} `{PositionableAudioSource S}.
Implicit Type st : State S.

(** C6: when [newStart = max (0, nextPlayPos)] lies outside
    [[bufferValidStart, bufferValidEnd)], the policy empties the valid range
    ([bufferValidStart = bufferValidEnd = 0], its last write under the lock)
    and selects the section [[newStart, min (newStart + capacity - 4,
    newStart + 2048))]; the refill then reads that section and commits it, so
    the valid range regrows from [newStart]. *)
Theorem cold_seek_discards_and_regrows st :
  4 < capacity st →
  let newStart := jmax 0 (nextPlayPos st) in
  let newEnd := jmin (newStart + capacity st - 4) (newStart + maxChunkSize) in
  newStart < bufferValidStart st ∨ bufferValidEnd st <= newStart →
  let chosen := chooseSection st in
  let refill := readNextBufferChunk st in
  result chosen = (newStart, newEnd, newStart, newEnd)
  ∧ bufferValidStart (final chosen) = 0
  ∧ bufferValidEnd (final chosen) = 0
  ∧ last (events chosen) = Some (RangeWritten 0 0 (capacity st))
  ∧ result refill = true
  ∧ events refill
    = events chosen
      ++ events (readSection newStart newEnd (final chosen))
      ++ [RangeWritten newStart newEnd (capacity st); ReadySignalled]
  ∧ bufferValidStart (final refill) = newStart
  ∧ bufferValidEnd (final refill) = newEnd
  ∧ newStart < newEnd.
Proof.
  cbv zeta. intros Hcap Houtside.
  destruct (cold_refill st Hcap) as (Hgrow & -> & ->).
  { destruct (negb _); cbn [bufferValidStart bufferValidEnd set_validRange].
    - rewrite jmax_max. lia.
    - lia. }
  cbn [result final events fst snd bufferValidStart bufferValidEnd
       set_validRange].
  rewrite last_snoc. repeat split. exact Hgrow.
Qed.

(** C7: when the looping flag of the source differs from the flag seen by
    the previous refill, the policy first records the new flag and empties
    the valid range, and only then computes the window: the invocation takes
    the cold/seek path, reads [[newStart, newEnd)] from the source and commits
    exactly that section. *)
Theorem looping_change_forces_cold_path st :
  4 < capacity st →
  wasSourceLooping st ≠ source_isLooping (source st) →
  let newStart := jmax 0 (nextPlayPos st) in
  let newEnd := jmin (newStart + capacity st - 4) (newStart + maxChunkSize) in
  let chosen := chooseSection st in
  let refill := readNextBufferChunk st in
  events chosen
  = [RangeWritten 0 0 (capacity st); RangeWritten 0 0 (capacity st)]
  ∧ wasSourceLooping (final chosen) = source_isLooping (source st)
  ∧ result chosen = (newStart, newEnd, newStart, newEnd)
  ∧ bufferValidStart (final chosen) = 0
  ∧ bufferValidEnd (final chosen) = 0
  ∧ result refill = true
  ∧ events refill
    = events chosen
      ++ events (readSection newStart newEnd (final chosen))
      ++ [RangeWritten newStart newEnd (capacity st); ReadySignalled]
  ∧ bufferValidStart (final refill) = newStart
  ∧ bufferValidEnd (final refill) = newEnd.
Proof.
  cbv zeta. intros Hcap Hchanged.
  assert (Hflag : negb (Bool.eqb (wasSourceLooping st)
                          (source_isLooping (source st))) = true).
  { destruct (wasSourceLooping st), (source_isLooping (source st));
      try reflexivity; congruence. }
  pose proof (cold_refill st Hcap) as Hcold. cbv zeta in Hcold.
  rewrite Hflag in Hcold.
  destruct Hcold as (Hgrow & -> & ->).
  { cbn [bufferValidStart bufferValidEnd set_validRange].
    rewrite jmax_max. lia. }
  cbn [result final events fst snd bufferValidStart bufferValidEnd
       set_validRange wasSourceLooping set_wasSourceLooping app].
  repeat split.
Qed.

End SeekAndLoop.

Lemma cold_seek_discards_and_regrows_witness :
  4 < capacity sought
  ∧ (jmax 0 (nextPlayPos sought) < bufferValidStart sought
     ∨ bufferValidEnd sought <= jmax 0 (nextPlayPos sought))
  ∧ result (chooseSection sought) = (2048, 4096, 2048, 4096)
  ∧ events (readNextBufferChunk sought)
    = events (chooseSection sought)
      ++ events (readSection 2048 4096 (final (chooseSection sought)))
      ++ [RangeWritten 2048 4096 4096; ReadySignalled]
  ∧ bufferValidStart (final (readNextBufferChunk sought)) = 2048
  ∧ bufferValidEnd (final (readNextBufferChunk sought)) = 4096.
Proof.
  assert (Hcap : 4 < capacity sought) by reflexivity.
  assert (Hout : jmax 0 (nextPlayPos sought) < bufferValidStart sought
                 ∨ bufferValidEnd sought <= jmax 0 (nextPlayPos sought))
    by (right; vm_compute; discriminate).
  split; [exact Hcap|]. split; [exact Hout|].
  destruct (cold_seek_discards_and_regrows sought Hcap Hout)
    as (Hchosen & _ & _ & _ & _ & Hevents & Hstart & Hend & _).
  repeat split; assumption.
Defined.

Lemma looping_change_forces_cold_path_witness :
  4 < capacity toggled
  ∧ wasSourceLooping toggled ≠ source_isLooping (source toggled)
  ∧ events (chooseSection toggled)
    = [RangeWritten 0 0 4096; RangeWritten 0 0 4096]
  ∧ result (chooseSection toggled) = (0, 2048, 0, 2048)
  ∧ bufferValidStart (final (readNextBufferChunk toggled)) = 0
  ∧ bufferValidEnd (final (readNextBufferChunk toggled)) = 2048.
Proof.
  assert (Hcap : 4 < capacity toggled) by reflexivity.
  assert (Hflag : wasSourceLooping toggled ≠ source_isLooping (source toggled))
    by (vm_compute; discriminate).
  split; [exact Hcap|]. split; [exact Hflag|].
  destruct (looping_change_forces_cold_path toggled Hcap Hflag)
    as (Hevents & _ & Hchosen & _ & _ & _ & _ & Hstart & Hend).
  repeat split; assumption.
Defined.

(** ** Wraparound addressing *)

Lemma wrap_index C s :
  0 < C <= INT_MAX → 0 <= s → to_int (Z.rem s C) = s mod C.
Proof.
  unfold INT_MAX. intros HC Hs. rewrite Z.rem_mod_nonneg by lia.
  pose proof (Z.mod_pos_bound s C). apply to_int_small. lia.
Qed.

Lemma wrap_end C s len :
  0 < C → 0 < len <= C →
  (s + len) mod C
  = if s mod C + len <? C then s mod C + len else s mod C + len - C.
Proof.
  intros HC Hlen. pose proof (Z.mod_pos_bound s C ltac:(lia)) as Hi.
  rewrite <- Z.add_mod_idemp_l by lia.
  destruct (Z.ltb_spec (s mod C + len) C).
  - apply Z.mod_small. lia.
  - symmetry. apply (Z.mod_unique_pos _ _ 1); lia.
Qed.

(** The test of both paths, [startIndex < endIndex], holds exactly when the
    range ends before the physical end of the buffer. *)
Lemma wrap_test C s len :
  0 < C → 0 < len <= C →
  (s mod C <? (s + len) mod C) = (s mod C + len <? C).
Proof.
  intros HC Hlen. rewrite (wrap_end C s len) by assumption.
  pose proof (Z.mod_pos_bound s C ltac:(lia)) as Hi.
  destruct (Z.ltb_spec (s mod C + len) C); lia.
Qed.



Lemma wrapSplit_bounds C s len :
  0 < C → 0 < len <= C →
  Forall (λ '(offset, l), 0 <= offset ∧ 0 <= l ∧ offset + l <= C)
         (wrapSplit C s len)
  ∧ totalLength (wrapSplit C s len) = len.
Proof.
  intros HC Hlen. pose proof (Z.mod_pos_bound s C ltac:(lia)) as Hi.
  unfold wrapSplit, totalLength. destruct (Z.ltb_spec (s mod C + len) C);
    cbn [foldr]; (split; [repeat constructor; lia | lia]).
Qed.

Section Wraparound.
Context {S : Type} `{PositionableAudioSource S}.
Implicit Type st : State S.

Lemma copyChannel_run info validStart validEnd chan out st :
  let startIndex := to_int (Z.rem (validStart + nextPlayPos st) (capacity st)) in
  let endIndex := to_int (Z.rem (validEnd + nextPlayPos st) (capacity st)) in
  let initialSize := capacity st - startIndex in
  copyChannel info validStart validEnd chan (out, st)
  = if startIndex <? endIndex
    then (tt,
          (AudioBuffer.copyFrom out chan (startSample info + validStart)
             (buffer st) chan startIndex (validEnd - validStart), st),
          [Copied chan (startSample info + validStart) startIndex
             (validEnd - validStart)])
    else (tt,
          (AudioBuffer.copyFrom
             (AudioBuffer.copyFrom out chan (startSample info + validStart)
                (buffer st) chan startIndex initialSize)
             chan (startSample info + validStart + initialSize)
             (buffer st) chan 0 ((validEnd - validStart) - initialSize), st),
          [Copied chan (startSample info + validStart) startIndex initialSize;
           Copied chan (startSample info + validStart + initialSize) 0
             ((validEnd - validStart) - initialSize)]).
Proof.
  cbv zeta. unfold copyChannel. rewrite bind_run.
  cbn [self get result final events fst snd app].
  destruct (_ <? _); [reflexivity|].
  rewrite bind_run, !out_copyFrom_run. reflexivity.
Qed.


End Wraparound.



(** ** The read path on a hit *)

Section ReadPathHit.
Context {S : Type} `{PositionableAudioSource S}.
Implicit Type st : State S.

(** The caller's buffer and the calls on it when the range is not empty. *)
Lemma getNextAudioBlock_hit info out st :
  let r := result (getValidBufferRange (numSamples info) st) in
  let validStart := Range.getStart r in
  let validEnd := Range.getEnd r in
  let out1 :=
    if 0 <? validStart
    then AudioBuffer.clear out (startSample info) validStart else out in
  let out2 :=
    if validEnd <? numSamples info
    then AudioBuffer.clear out1 (startSample info + validEnd)
           (numSamples info - validEnd)
    else out1 in
  let copies :=
    when (validStart <? validEnd)
         (forDown (Z.to_nat (jmin (numberOfChannels st)
                                  (AudioBuffer.getNumChannels out2)))
                  (copyChannel info validStart validEnd)) (out2, st) in
  Range.isEmpty r = false →
  fst (final (getNextAudioBlock info (out, st))) = fst (final copies)
  ∧ events (getNextAudioBlock info (out, st))
    = (if 0 <? validStart then [Cleared (startSample info) validStart] else [])
      ++ (if validEnd <? numSamples info
          then [Cleared (startSample info + validEnd)
                  (numSamples info - validEnd)]
          else [])
      ++ events copies.
Proof.
  cbv zeta. intros Hempty. unfold getNextAudioBlock. rewrite bind_run.
  rewrite getValidBufferRange_run in *. unfold result in Hempty |- *.
  cbn [self getValidBufferRange bind get ret result final events fst snd app]
    in Hempty |- *.
  rewrite Hempty. set (r := Range.make _ _).
  rewrite !bind_run. cbn [final events fst snd].
  assert (Hclear : ∀ c a b o,
             when c (out_clear a b) (o, st)
             = (tt, (if c then AudioBuffer.clear o a b else o, st),
                if c then [Cleared a b] else []))
    by (intros [] ? ? ?; reflexivity).
  rewrite !Hclear. cbn [result final events fst snd].
  rewrite !Hclear. cbn [result final events fst snd].
  set (out2 := if Range.getEnd r <? numSamples info then _ else _).
  assert (Hcopies : ∀ c,
             when c ('(o, st') ← get;
                     forDown (Z.to_nat (jmin (numberOfChannels st')
                                          (AudioBuffer.getNumChannels o)))
                       (copyChannel info (Range.getStart r) (Range.getEnd r)))
                  (out2, st)
             = when c (forDown (Z.to_nat (jmin (numberOfChannels st)
                                            (AudioBuffer.getNumChannels out2)))
                         (copyChannel info (Range.getStart r)
                            (Range.getEnd r))) (out2, st)).
  { intros []; [|reflexivity]. cbn [when]. rewrite bind_run.
    cbn [get result final events fst snd app].
    destruct (forDown _ _ _) as [[[] ?] ?]. reflexivity. }
  rewrite !Hcopies.
  set (copies := when _ _ _).
  destruct (final copies) as [out3 st3] eqn:Hfinal.
  cbn [self modify result final events fst snd]. rewrite app_nil_r.
  split; reflexivity.
Qed.

(** A property of every call of the loop body on this object holds of the
    whole loop. *)
Lemma forDown_events_Forall (P : Event → Prop)
    (body : Z → M (AudioBuffer.t * State S) unit) k st :
  (∀ chan out, snd (final (body chan (out, st))) = st) →
  (∀ chan out, Forall P (events (body chan (out, st)))) →
  ∀ out, Forall P (events (forDown k body (out, st))).
Proof.
  intros Hobject Hbody. induction k as [|k IH]; intros out; [constructor|].
  cbn [forDown]. rewrite bind_events. apply Forall_app. split; [apply Hbody|].
  specialize (Hobject (Z.of_nat k) out).
  destruct (final (body (Z.of_nat k) (out, st))) as [out' st'].
  simpl in Hobject. subst st'. apply IH.
Qed.

Lemma wrap_before_end C s len :
  0 < C → 0 < len → s mod C + len < C → s mod C < (s + len) mod C.
Proof.
  intros HC Hlen Hend. pose proof (Z.mod_pos_bound s C ltac:(lia)) as Hi.
  rewrite <- Z.add_mod_idemp_l by lia.
  rewrite (Z.mod_small (s mod C + len)); lia.
Qed.

(** The copies of a channel stay inside the block. *)
Lemma copyChannel_insideBlock info validStart validEnd chan out st :
  0 < capacity st <= INT_MAX →
  0 <= validStart + nextPlayPos st →
  0 <= validStart < validEnd → validEnd <= numSamples info →
  Forall (insideBlock info)
         (events (copyChannel info validStart validEnd chan (out, st))).
Proof.
  intros HC Hs Hrange Hend.
  pose proof (copyChannel_run info validStart validEnd chan out st) as Hrun.
  cbv zeta in Hrun. rewrite Hrun. clear Hrun.
  rewrite !wrap_index by lia.
  replace (validEnd + nextPlayPos st)
    with (validStart + nextPlayPos st + (validEnd - validStart)) by lia.
  set (s := validStart + nextPlayPos st) in *.
  pose proof (Z.mod_pos_bound s (capacity st) ltac:(lia)) as Hi.
  destruct (Z.ltb_spec (s mod capacity st)
              ((s + (validEnd - validStart)) mod capacity st)) as [Hlt | Hge];
    cbn [events snd].
  - repeat constructor; simpl; lia.
  - assert (capacity st <= s mod capacity st + (validEnd - validStart)).
    { destruct (Z.lt_ge_cases (s mod capacity st + (validEnd - validStart))
                  (capacity st)) as [Hbefore | ?]; [|assumption].
      apply wrap_before_end in Hbefore; lia. }
    repeat constructor; simpl; lia.
Qed.

End ReadPathHit.

Section InsideBlock.
Context {S : Type} `{PositionableAudioSource S}.
Implicit Type st : State S.

(** C10: for every cursor, every valid range [bufferValidStart <=
    bufferValidEnd] and every request size [0 <= n] (an [int]), the range
    that [getValidBufferRange (n)] returns is empty or has
    [0 <= start < end <= n]; and so, on a cache of positive capacity whose
    valid range starts at a position [>= 0], every clear and every copy that
    [getNextAudioBlock] issues stays inside the [n] samples of the block. *)
Theorem valid_range_keeps_read_inside_block st info :
  bufferValidStart st <= bufferValidEnd st →
  0 <= numSamples info <= INT_MAX →
  let r := result (getValidBufferRange (numSamples info) st) in
  (Range.isEmpty r = true
   ∨ 0 <= Range.getStart r < Range.getEnd r
     ∧ Range.getEnd r <= numSamples info)
  ∧ (0 <= bufferValidStart st → 0 < capacity st <= INT_MAX →
     ∀ out, Forall (insideBlock info)
              (events (getNextAudioBlock info (out, st)))).
Proof.
  intros Hrange Hn. cbv zeta.
  pose proof (validRange_shape st (numSamples info) Hrange Hn) as Hshape.
  cbv zeta in Hshape.
  split.
  { destruct Hshape as [Hempty | (_ & -> & -> & Hbounds)]; [left | right];
      [assumption | lia]. }
  intros Hstart HC out.
  destruct Hshape as [Hempty | (Hempty & Hvs & Hve & Hbounds & Hend)].
  { rewrite getNextAudioBlock_miss by assumption. cbn [events snd].
    repeat constructor; simpl; lia. }
  pose proof (getNextAudioBlock_hit info out st) as Hhit. cbv zeta in Hhit.
  destruct (Hhit Hempty) as [_ ->]. clear Hhit.
  set (r := result (getValidBufferRange (numSamples info) st)) in *.
  rewrite <- Hvs, <- Hve in Hbounds. rewrite <- Hve in Hend. clearbody r.
  repeat (apply Forall_app; split).
  - destruct (0 <? Range.getStart r); repeat constructor; simpl; lia.
  - destruct (Z.ltb_spec (Range.getEnd r) (numSamples info));
      repeat constructor; simpl; lia.
  - destruct (Range.getStart r <? Range.getEnd r); [|constructor].
    cbn [when]. apply forDown_events_Forall.
    + intros. apply copyChannel_object.
    + intros chan out'. apply copyChannel_insideBlock; try lia.
      rewrite Hvs.
      assert (bufferValidStart st
              <= jlimit (bufferValidStart st) (bufferValidEnd st)
                   (nextPlayPos st))
        by (rewrite jlimit_clamp by lia; lia).
      lia.
Qed.

End InsideBlock.

(** ** Samples of a buffer after a clear and after a copy *)

Lemma inRegion_true b start len :
  0 <= start → 0 <= len → start + len <= AudioBuffer.getNumSamples b →
  AudioBuffer.inRegion b start len = true.
Proof. intros. unfold AudioBuffer.inRegion. lia. Qed.

Lemma wf_channel b chan c :
  AudioBuffer.wf b → AudioBuffer.channels b !! chan = Some c →
  Z.of_nat (length c) = AudioBuffer.getNumSamples b.
Proof. intros [_ Hwf] Hc. exact (Forall_lookup_1 _ _ _ _ Hwf Hc). Qed.

Lemma channel_exists b chan :
  0 <= chan < AudioBuffer.getNumChannels b →
  ∃ c, AudioBuffer.channels b !! Z.to_nat chan = Some c.
Proof.
  unfold AudioBuffer.getNumChannels. intros Hchan.
  destruct (lookup_lt_is_Some_2 (AudioBuffer.channels b) (Z.to_nat chan))
    as [c Hc]; [lia | eauto].
Qed.

Lemma clear_sample b start len chan i :
  AudioBuffer.wf b →
  0 <= start → 0 <= len → start + len <= AudioBuffer.getNumSamples b →
  0 <= chan < AudioBuffer.getNumChannels b → start <= i < start + len →
  AudioBuffer.sample (AudioBuffer.clear b start len) chan i = Some 0%float.
Proof.
  intros Hwf Hstart Hlen Hend Hchan Hi.
  unfold AudioBuffer.clear. rewrite inRegion_true by assumption.
  unfold AudioBuffer.sample. cbn [AudioBuffer.channels].
  replace ((0 <=? chan) && (0 <=? i)) with true by lia.
  destruct (channel_exists b chan Hchan) as [c Hc].
  rewrite list_lookup_fmap, Hc. cbn [fmap option_fmap option_map mbind option_bind].
  pose proof (wf_channel b _ c Hwf Hc) as Hsize.
  unfold AudioBuffer.store. rewrite list_lookup_inserts.
  - apply lookup_replicate_2. lia.
  - rewrite length_replicate. lia.
  - lia.
Qed.

Lemma copyFrom_shape b dc ds src sc ss len :
  AudioBuffer.wf b →
  AudioBuffer.wf (AudioBuffer.copyFrom b dc ds src sc ss len)
  ∧ AudioBuffer.getNumSamples (AudioBuffer.copyFrom b dc ds src sc ss len)
    = AudioBuffer.getNumSamples b
  ∧ AudioBuffer.getNumChannels (AudioBuffer.copyFrom b dc ds src sc ss len)
    = AudioBuffer.getNumChannels b.
Proof.
  intros Hwf. unfold AudioBuffer.copyFrom.
  destruct (_ && _); [|auto].
  unfold AudioBuffer.wf, AudioBuffer.getNumChannels.
  cbn [AudioBuffer.getNumSamples AudioBuffer.channels].
  rewrite length_alter. destruct Hwf as [Hsize Hwf].
  repeat split; [assumption|].
  apply Forall_alter; [assumption|].
  intros c _ Hc. unfold AudioBuffer.store. rewrite length_inserts. exact Hc.
Qed.

(** Outside the copied region the destination keeps its samples. *)
Lemma copyFrom_sample_out b dc ds src sc ss len chan i :
  chan ≠ dc ∨ i < ds ∨ ds + len <= i →
  AudioBuffer.sample (AudioBuffer.copyFrom b dc ds src sc ss len) chan i
  = AudioBuffer.sample b chan i.
Proof.
  intros Hout. unfold AudioBuffer.copyFrom.
  destruct (_ && _) eqn:Hcontract; [|reflexivity].
  unfold AudioBuffer.sample. cbn [AudioBuffer.channels].
  destruct ((0 <=? chan) && (0 <=? i)) eqn:Hchan; [|reflexivity].
  unfold AudioBuffer.inRegion in Hcontract.
  destruct (decide (chan = dc)) as [-> | Hne].
  - rewrite list_lookup_alter_eq.
    destruct (AudioBuffer.channels b !! Z.to_nat dc) as [c|]; [|reflexivity].
    cbn [fmap option_fmap option_map mbind option_bind].
    unfold AudioBuffer.store.
    destruct (Z.lt_ge_cases i ds).
    + apply list_lookup_inserts_lt. lia.
    + apply list_lookup_inserts_ge. unfold AudioBuffer.slice.
      destruct (_ !! _); cbn [length]; [rewrite length_take|]; lia.
  - rewrite list_lookup_alter_ne by lia. reflexivity.
Qed.

(** Inside it the destination holds the source's samples. *)
Lemma copyFrom_sample_in b dc ds src sc ss len j :
  AudioBuffer.wf b → AudioBuffer.wf src →
  0 <= dc < AudioBuffer.getNumChannels b →
  0 <= sc < AudioBuffer.getNumChannels src →
  0 <= ds → ds + len <= AudioBuffer.getNumSamples b →
  0 <= ss → ss + len <= AudioBuffer.getNumSamples src →
  0 <= j < len →
  AudioBuffer.sample (AudioBuffer.copyFrom b dc ds src sc ss len) dc (ds + j)
  = AudioBuffer.sample src sc (ss + j).
Proof.
  intros Hwf Hwfs Hdc Hsc Hds Hdend Hss Hsend Hj.
  unfold AudioBuffer.copyFrom.
  rewrite !inRegion_true by lia.
  replace ((0 <=? dc) && (0 <=? sc)) with true by lia. cbn [andb].
  unfold AudioBuffer.sample. cbn [AudioBuffer.channels].
  replace ((0 <=? dc) && (0 <=? ds + j)) with true by lia.
  replace ((0 <=? sc) && (0 <=? ss + j)) with true by lia.
  destruct (channel_exists b dc Hdc) as [c Hc].
  destruct (channel_exists src sc Hsc) as [c' Hc'].
  pose proof (wf_channel b _ c Hwf Hc) as Hsize.
  pose proof (wf_channel src _ c' Hwfs Hc') as Hsize'.
  rewrite list_lookup_alter_eq, Hc, Hc'.
  cbn [fmap option_fmap option_map mbind option_bind].
  unfold AudioBuffer.store, AudioBuffer.slice. rewrite Hc'.
  rewrite list_lookup_inserts.
  - rewrite lookup_take_lt by lia. rewrite lookup_drop. f_equal. lia.
  - rewrite length_take, length_drop. lia.
  - lia.
Qed.

Lemma clear_shape b start len :
  AudioBuffer.wf b →
  AudioBuffer.wf (AudioBuffer.clear b start len)
  ∧ AudioBuffer.getNumSamples (AudioBuffer.clear b start len)
    = AudioBuffer.getNumSamples b
  ∧ AudioBuffer.getNumChannels (AudioBuffer.clear b start len)
    = AudioBuffer.getNumChannels b.
Proof.
  intros Hwf. unfold AudioBuffer.clear.
  destruct (AudioBuffer.inRegion _ _ _); [|auto].
  unfold AudioBuffer.wf, AudioBuffer.getNumChannels.
  cbn [AudioBuffer.getNumSamples AudioBuffer.channels].
  rewrite length_fmap. destruct Hwf as [Hsize Hwf].
  split; [split; [assumption|] | split; reflexivity].
  apply Forall_fmap. eapply Forall_impl; [exact Hwf|].
  intros c Hc. cbn. unfold AudioBuffer.store. rewrite length_inserts. exact Hc.
Qed.

(** Outside the cleared region the buffer keeps its samples. *)
Lemma clear_sample_out b start len chan i :
  i < start ∨ start + len <= i →
  AudioBuffer.sample (AudioBuffer.clear b start len) chan i
  = AudioBuffer.sample b chan i.
Proof.
  intros Hout. unfold AudioBuffer.clear.
  destruct (AudioBuffer.inRegion _ _ _) eqn:Hregion; [|reflexivity].
  unfold AudioBuffer.inRegion in Hregion.
  unfold AudioBuffer.sample. cbn [AudioBuffer.channels].
  destruct ((0 <=? chan) && (0 <=? i)) eqn:Hchan; [|reflexivity].
  rewrite list_lookup_fmap.
  destruct (AudioBuffer.channels b !! Z.to_nat chan) as [c|]; [|reflexivity].
  cbn [fmap option_fmap option_map mbind option_bind].
  unfold AudioBuffer.store.
  destruct (Z.lt_ge_cases i start).
  - apply list_lookup_inserts_lt. lia.
  - apply list_lookup_inserts_ge. rewrite length_replicate. lia.
Qed.

(** ** The samples the read path delivers *)

Section Delivered.
Context {S : Type} `{PositionableAudioSource S}.
Implicit Type st : State S.

(** One channel's copy: the block-relative range [[validStart, validEnd)] of
    the channel receives the cache's samples at the wrapped positions, the
    other channels are left alone. *)
Lemma copyChannel_samples info validStart validEnd chan out st :
  AudioBuffer.wf out → AudioBuffer.wf (buffer st) →
  0 < capacity st <= INT_MAX →
  0 <= validStart + nextPlayPos st →
  0 < validEnd - validStart <= capacity st →
  0 <= startSample info + validStart →
  startSample info + validEnd <= AudioBuffer.getNumSamples out →
  0 <= chan < AudioBuffer.getNumChannels out →
  chan < AudioBuffer.getNumChannels (buffer st) →
  let out' := fst (final (copyChannel info validStart validEnd chan (out, st))) in
  AudioBuffer.wf out'
  ∧ AudioBuffer.getNumSamples out' = AudioBuffer.getNumSamples out
  ∧ AudioBuffer.getNumChannels out' = AudioBuffer.getNumChannels out
  ∧ (∀ j, 0 <= j < validEnd - validStart →
       AudioBuffer.sample out' chan (startSample info + validStart + j)
       = AudioBuffer.sample (buffer st) chan
           ((validStart + nextPlayPos st + j) mod capacity st))
  ∧ (∀ c i, c ≠ chan →
       AudioBuffer.sample out' c i = AudioBuffer.sample out c i).
Proof.
  intros Hwf Hwfc HC Hs Hlen Hds Hdend Hchan Hchanc. cbv zeta.
  pose proof (copyChannel_run info validStart validEnd chan out st) as Hrun.
  cbv zeta in Hrun. rewrite Hrun. clear Hrun.
  rewrite !wrap_index by lia.
  replace (validEnd + nextPlayPos st)
    with (validStart + nextPlayPos st + (validEnd - validStart)) by lia.
  set (s := validStart + nextPlayPos st) in *.
  set (len := validEnd - validStart) in *.
  rewrite wrap_test by lia.
  pose proof (Z.mod_pos_bound s (capacity st) ltac:(lia)) as Hi.
  assert (Hat : ∀ k, (s + k) mod capacity st = (s mod capacity st + k) mod capacity st)
    by (intros k; rewrite Z.add_mod_idemp_l by lia; reflexivity).
  unfold capacity in *.
  set (C := AudioBuffer.getNumSamples (buffer st)) in *.
  destruct (Z.ltb_spec (s mod C + len) C) as [Hbefore | Hwrap];
    cbn [final fst snd].
  - destruct (copyFrom_shape out chan (startSample info + validStart)
                (buffer st) chan (s mod C) len Hwf) as (Hwf' & Hsize & Hchans).
    refine (conj Hwf' (conj Hsize (conj Hchans (conj _ _)))).
    + intros j Hj. rewrite copyFrom_sample_in by (fold C; first [assumption | lia]).
      rewrite Hat. rewrite (Z.mod_small (s mod C + j)) by lia. reflexivity.
    + intros c i Hc. apply copyFrom_sample_out. auto.
  - set (out1 := AudioBuffer.copyFrom out chan (startSample info + validStart)
                   (buffer st) chan (s mod C) (C - s mod C)).
    destruct (copyFrom_shape out chan (startSample info + validStart)
                (buffer st) chan (s mod C) (C - s mod C) Hwf)
      as (Hwf1 & Hsize1 & Hchans1).
    fold out1 in Hwf1, Hsize1, Hchans1.
    destruct (copyFrom_shape out1 chan
                (startSample info + validStart + (C - s mod C))
                (buffer st) chan 0 (len - (C - s mod C)) Hwf1)
      as (Hwf2 & Hsize2 & Hchans2).
    rewrite Hsize1 in Hsize2. rewrite Hchans1 in Hchans2.
    refine (conj Hwf2 (conj Hsize2 (conj Hchans2 (conj _ _)))).
    + intros j Hj. destruct (Z.lt_ge_cases j (C - s mod C)) as [Hfirst | Hrest].
      * rewrite copyFrom_sample_out by lia.
        subst out1. rewrite copyFrom_sample_in by (fold C; first [assumption | lia]).
        rewrite Hat. rewrite (Z.mod_small (s mod C + j)) by lia. reflexivity.
      * replace (startSample info + validStart + j)
          with (startSample info + validStart + (C - s mod C)
                + (j - (C - s mod C))) by lia.
        rewrite copyFrom_sample_in by (fold C; first [assumption | lia]).
        rewrite Hat. f_equal.
        apply (Z.mod_unique_pos _ _ 1); lia.
    + intros c i Hc. rewrite copyFrom_sample_out by auto.
      subst out1. apply copyFrom_sample_out. auto.
Qed.

(** The loop over the channels: the channels below [k] receive the cache's
    samples, the others are left alone. *)
Lemma copyChannels_samples info validStart validEnd st k :
  AudioBuffer.wf (buffer st) →
  0 < capacity st <= INT_MAX →
  0 <= validStart + nextPlayPos st →
  0 < validEnd - validStart <= capacity st →
  0 <= startSample info + validStart →
  Z.of_nat k <= AudioBuffer.getNumChannels (buffer st) →
  ∀ out,
    AudioBuffer.wf out →
    startSample info + validEnd <= AudioBuffer.getNumSamples out →
    Z.of_nat k <= AudioBuffer.getNumChannels out →
    let out' :=
      fst (final (forDown k (copyChannel info validStart validEnd) (out, st))) in
    (∀ chan j, 0 <= chan < Z.of_nat k → 0 <= j < validEnd - validStart →
       AudioBuffer.sample out' chan (startSample info + validStart + j)
       = AudioBuffer.sample (buffer st) chan
           ((validStart + nextPlayPos st + j) mod capacity st))
    ∧ (∀ c i, Z.of_nat k <= c →
         AudioBuffer.sample out' c i = AudioBuffer.sample out c i).
Proof.
  intros Hwfc HC Hs Hlen Hds. induction k as [|k IH];
    intros Hkc out Hwf Hdend Hk; cbv zeta.
  { split; [lia | reflexivity]. }
  cbn [forDown]. rewrite bind_final.
  pose proof (copyChannel_samples info validStart validEnd (Z.of_nat k) out st
                Hwf Hwfc HC Hs Hlen Hds Hdend ltac:(lia) ltac:(lia)) as Hone.
  cbv zeta in Hone.
  pose proof (copyChannel_object info validStart validEnd (Z.of_nat k) out st)
    as Hobject.
  destruct (final (copyChannel info validStart validEnd (Z.of_nat k) (out, st)))
    as [out1 st1].
  cbn [fst snd] in Hone, Hobject. subst st1.
  destruct Hone as (Hwf1 & Hsize1 & Hchans1 & Hin1 & Hout1).
  destruct (IH ltac:(lia) out1 Hwf1 ltac:(lia) ltac:(lia)) as [Hin Hout].
  split.
  - intros chan j Hchan Hj.
    destruct (decide (chan = Z.of_nat k)) as [-> | Hne].
    + rewrite Hout by lia. apply Hin1. assumption.
    + apply Hin; lia.
  - intros c i Hc. rewrite Hout by lia. apply Hout1. lia.
Qed.

End Delivered.

Lemma valid_range_keeps_read_inside_block_witness :
  bufferValidStart nearEnd <= bufferValidEnd nearEnd
  ∧ 0 <= numSamples block512 <= INT_MAX
  ∧ result (getValidBufferRange (numSamples block512) nearEnd) = Range.mk 0 248
  ∧ Forall (insideBlock block512)
      (events (getNextAudioBlock block512 (out512, nearEnd))).
Proof.
  assert (Hrange : bufferValidStart nearEnd <= bufferValidEnd nearEnd)
    by (vm_compute; discriminate).
  assert (Hn : 0 <= numSamples block512 <= INT_MAX)
    by (split; vm_compute; discriminate).
  split; [exact Hrange|]. split; [exact Hn|]. split; [reflexivity|].
  apply (valid_range_keeps_read_inside_block nearEnd block512 Hrange Hn).
  - vm_compute; discriminate.
  - split; [reflexivity | vm_compute; discriminate].
Defined.

Section Silence.
Context {S : Type} `{PositionableAudioSource S}.
Implicit Type st : State S.

(** C5: when the requested range [[nextPlayPos, nextPlayPos + n)] and the
    valid range [[bufferValidStart, bufferValidEnd)] have no position in
    common, [getNextAudioBlock] issues the single call [clear (startSample,
    n)] and every sample of the block is zero on every channel of the
    caller's buffer. The method has no error outcome: its result is [()]. *)
Theorem total_miss_delivers_silence st info out :
  AudioBuffer.wf out →
  0 <= startSample info → 0 <= numSamples info →
  startSample info + numSamples info <= AudioBuffer.getNumSamples out →
  bufferValidStart st <= bufferValidEnd st →
  (∀ p, nextPlayPos st <= p < nextPlayPos st + numSamples info →
        ¬ (bufferValidStart st <= p < bufferValidEnd st)) →
  let r := getNextAudioBlock info (out, st) in
  result r = tt
  ∧ events r = [Cleared (startSample info) (numSamples info)]
  ∧ ∀ chan i,
      0 <= chan < AudioBuffer.getNumChannels out → 0 <= i < numSamples info →
      AudioBuffer.sample (fst (final r)) chan (startSample info + i)
      = Some 0%float.
Proof.
  intros Hwf Hstart Hn Hend Hrange Hdisjoint. cbv zeta.
  rewrite getNextAudioBlock_miss
    by (apply validRange_empty; assumption).
  cbn [result final events fst snd]. repeat split.
  intros chan i Hchan Hi. apply clear_sample; try assumption. lia.
Qed.

End Silence.

Lemma total_miss_delivers_silence_witness :
  AudioBuffer.wf out512
  ∧ 0 <= startSample block512 ∧ 0 <= numSamples block512
  ∧ startSample block512 + numSamples block512
    <= AudioBuffer.getNumSamples out512
  ∧ bufferValidStart sought <= bufferValidEnd sought
  ∧ (∀ p, nextPlayPos sought <= p < nextPlayPos sought + numSamples block512 →
          ¬ (bufferValidStart sought <= p < bufferValidEnd sought))
  ∧ events (getNextAudioBlock block512 (out512, sought)) = [Cleared 0 512]
  ∧ ∀ chan i,
      0 <= chan < AudioBuffer.getNumChannels out512 →
      0 <= i < numSamples block512 →
      AudioBuffer.sample
        (fst (final (getNextAudioBlock block512 (out512, sought))))
        chan (startSample block512 + i)
      = Some 0%float.
Proof.
  assert (Hwf : AudioBuffer.wf out512)
    by (split; [vm_compute; discriminate | repeat constructor]).
  assert (Hstart : 0 <= startSample block512) by (vm_compute; discriminate).
  assert (Hn : 0 <= numSamples block512) by (vm_compute; discriminate).
  assert (Hend : startSample block512 + numSamples block512
                 <= AudioBuffer.getNumSamples out512)
    by (vm_compute; discriminate).
  assert (Hrange : bufferValidStart sought <= bufferValidEnd sought)
    by (vm_compute; discriminate).
  assert (Hdisjoint :
            ∀ p, nextPlayPos sought <= p
                 < nextPlayPos sought + numSamples block512 →
                 ¬ (bufferValidStart sought <= p < bufferValidEnd sought)).
  { change (nextPlayPos sought) with 2048.
    change (bufferValidEnd sought) with 2048. intros p Hp Hq. lia. }
  repeat (split; [assumption|]).
  destruct (total_miss_delivers_silence sought block512 out512
              Hwf Hstart Hn Hend Hrange Hdisjoint) as (_ & Hevents & Hzero).
  split; assumption.
Defined.

Section FullHit.
Context {S : Type} `{PositionableAudioSource S}.
Implicit Type st : State S.

Lemma validRange_full st n :
  0 < n <= INT_MAX →
  bufferValidStart st <= nextPlayPos st →
  nextPlayPos st + n <= bufferValidEnd st →
  result (getValidBufferRange n st) = Range.mk 0 n.
Proof.
  unfold INT_MAX. intros Hn Hstart Hend. rewrite getValidBufferRange_run.
  unfold result. cbn [fst]. rewrite !jlimit_clamp by lia.
  replace (_ - nextPlayPos st) with 0 by lia.
  replace (_ - nextPlayPos st) with n by lia.
  rewrite !to_int_small by lia. unfold Range.make. rewrite jmax_max.
  f_equal. lia.
Qed.

Lemma sample_is_Some b chan i :
  AudioBuffer.wf b → 0 <= chan < AudioBuffer.getNumChannels b →
  0 <= i < AudioBuffer.getNumSamples b →
  is_Some (AudioBuffer.sample b chan i).
Proof.
  intros Hwf Hchan Hi. unfold AudioBuffer.sample.
  replace ((0 <=? chan) && (0 <=? i)) with true by lia.
  destruct (channel_exists b chan Hchan) as [c Hc]. rewrite Hc.
  cbn [mbind option_bind]. apply lookup_lt_is_Some_2.
  pose proof (wf_channel b _ c Hwf Hc). lia.
Qed.

Lemma copyChannel_never_clears info validStart validEnd chan out st :
  Forall (λ e, ¬ zeroFills e)
         (events (copyChannel info validStart validEnd chan (out, st))).
Proof.
  pose proof (copyChannel_run info validStart validEnd chan out st) as Hrun.
  cbv zeta in Hrun. rewrite Hrun.
  destruct (_ <? _); repeat constructor; simpl; auto.
Qed.

(** C4, amended: when every position of the requested range [[nextPlayPos,
    nextPlayPos + n)] lies in the valid range, then on every channel that the
    object and the caller's buffer share, sample [i] of the block is the
    sample the cache holds for the position [nextPlayPos + i], the one at the
    physical index [(nextPlayPos + i) mod capacity]; the channels of the
    caller's buffer beyond those are left as they were; and no call of the
    read zeroes a sample. *)
Theorem full_hit_delivers_cached_samples st info out chan :
  AudioBuffer.wf out → AudioBuffer.wf (buffer st) →
  0 <= startSample info →
  startSample info + numSamples info <= AudioBuffer.getNumSamples out →
  0 <= numSamples info <= INT_MAX →
  0 < capacity st <= INT_MAX →
  numberOfChannels st <= AudioBuffer.getNumChannels (buffer st) →
  0 <= bufferValidStart st →
  bufferValidEnd st - bufferValidStart st <= capacity st →
  (∀ p, nextPlayPos st <= p < nextPlayPos st + numSamples info →
        bufferValidStart st <= p < bufferValidEnd st) →
  0 <= chan < jmin (numberOfChannels st) (AudioBuffer.getNumChannels out) →
  let r := getNextAudioBlock info (out, st) in
  (∀ i, 0 <= i < numSamples info →
     ∃ v, AudioBuffer.sample (buffer st) chan
            ((nextPlayPos st + i) mod capacity st) = Some v
          ∧ AudioBuffer.sample (fst (final r)) chan (startSample info + i)
            = Some v)
  ∧ (∀ c j,
       jmin (numberOfChannels st) (AudioBuffer.getNumChannels out) <= c →
       AudioBuffer.sample (fst (final r)) c j = AudioBuffer.sample out c j)
  ∧ Forall (λ e, ¬ zeroFills e) (events r).
Proof.
  intros Hwf Hwfc Hstart Hend Hn HC Hchans Hvalid Hsize Hinside Hchan.
  cbv zeta. rewrite jmin_min in *.
  destruct (decide (numSamples info = 0)) as [Hzero | Hpos].
  { rewrite getNextAudioBlock_miss.
    - split; [intros i Hi; lia|]. split.
      + intros c j _. cbn [final fst snd]. apply clear_sample_out. lia.
      + cbn [events snd]. repeat constructor. simpl. lia.
    - rewrite getValidBufferRange_run. unfold result. cbn [fst].
      rewrite Hzero, Z.add_0_r. apply Range_make_empty. }
  pose proof (Hinside (nextPlayPos st) ltac:(lia)) as Hfirst.
  pose proof (Hinside (nextPlayPos st + numSamples info - 1) ltac:(lia))
    as Hlast.
  pose proof (validRange_full st (numSamples info) ltac:(lia) ltac:(lia)
                ltac:(lia)) as Hfull.
  pose proof (getNextAudioBlock_hit info out st) as Hhit. cbv zeta in Hhit.
  rewrite Hfull in Hhit. cbn [Range.getStart Range.getEnd] in Hhit.
  rewrite !Z.ltb_irrefl in Hhit.
  replace (0 <? numSamples info) with true in Hhit by lia.
  cbn [when app] in Hhit.
  destruct Hhit as [-> ->].
  { unfold Range.isEmpty. cbn [Range.getStart Range.getEnd]. lia. }
  pose proof (copyChannels_samples info 0 (numSamples info) st
                (Z.to_nat (jmin (numberOfChannels st)
                                (AudioBuffer.getNumChannels out)))
                Hwfc HC ltac:(lia) ltac:(lia) ltac:(lia)
                ltac:(rewrite jmin_min; lia)
                out Hwf ltac:(lia) ltac:(rewrite jmin_min; lia))
    as [Hin Hother].
  split; [|split].
  - intros i Hi.
    destruct (sample_is_Some (buffer st) chan
                ((nextPlayPos st + i) mod capacity st) Hwfc ltac:(lia))
      as [v Hv].
    { unfold capacity in *. apply Z.mod_pos_bound. lia. }
    exists v. split; [exact Hv|].
    specialize (Hin chan i ltac:(rewrite jmin_min; lia) ltac:(lia)).
    rewrite Z.add_0_r, Z.add_0_l in Hin. rewrite Hin. exact Hv.
  - intros c j Hc. apply Hother. rewrite jmin_min. lia.
  - apply forDown_events_Forall.
    + intros. apply copyChannel_object.
    + intros. apply copyChannel_never_clears.
Qed.

End FullHit.

Lemma full_hit_delivers_cached_samples_witness :
  (∀ p, nextPlayPos filled <= p < nextPlayPos filled + numSamples block512 →
        bufferValidStart filled <= p < bufferValidEnd filled)
  ∧ 0 <= 1 < jmin (numberOfChannels filled) (AudioBuffer.getNumChannels out3)
  ∧ (∀ i, 0 <= i < numSamples block512 →
       ∃ v, AudioBuffer.sample (buffer filled) 1
              ((nextPlayPos filled + i) mod capacity filled) = Some v
            ∧ AudioBuffer.sample
                (fst (final (getNextAudioBlock block512 (out3, filled))))
                1 (startSample block512 + i)
              = Some v)
  ∧ (∀ c j,
       jmin (numberOfChannels filled) (AudioBuffer.getNumChannels out3) <= c →
       AudioBuffer.sample
         (fst (final (getNextAudioBlock block512 (out3, filled)))) c j
       = AudioBuffer.sample out3 c j)
  ∧ Forall (λ e, ¬ zeroFills e)
      (events (getNextAudioBlock block512 (out3, filled))).
Proof.
  assert (Hinside :
            ∀ p, nextPlayPos filled <= p
                 < nextPlayPos filled + numSamples block512 →
                 bufferValidStart filled <= p < bufferValidEnd filled).
  { change (nextPlayPos filled) with 0.
    change (bufferValidStart filled) with 0.
    change (bufferValidEnd filled) with 2048.
    change (numSamples block512) with 512. intros p Hp. lia. }
  assert (Hchan : 0 <= 1 < jmin (numberOfChannels filled)
                             (AudioBuffer.getNumChannels out3))
    by (split; [lia | reflexivity]).
  split; [exact Hinside|]. split; [exact Hchan|].
  apply (full_hit_delivers_cached_samples filled block512 out3 1);
    try assumption.
  - split; [vm_compute; discriminate | repeat constructor].
  - split; [vm_compute; discriminate | repeat constructor].
  - vm_compute; discriminate.
  - vm_compute; discriminate.
  - split; vm_compute; discriminate.
  - split; [reflexivity | vm_compute; discriminate].
  - vm_compute; discriminate.
  - vm_compute; discriminate.
  - vm_compute; discriminate.
Defined.

(** The full hit of 512 samples on the three-channel block: the third
    channel, which the cache does not have, is left with what it held. *)
Example full_hit_skips_third_channel :
  events (getNextAudioBlock block512 (out3, filled))
  = [Copied 1 0 0 512; Copied 0 0 0 512]
  ∧ AudioBuffer.sample
      (fst (final (getNextAudioBlock block512 (out3, filled)))) 2 0
    = Some 9%float.
Proof. split; reflexivity. Qed.

(** C4, as worded, fails: after the first refill the block [[0, 512)] is
    inside the valid range [[0, 2048)], and the read into a block of three
    channels copies the two channels of the cache; the third channel of the
    block receives no cached sample (it still holds 9). *)
Lemma full_hit_leaves_other_channels :
  ¬ fullHitFillsEveryChannel block512 out3 filled.
Proof.
  unfold fullHitFillsEveryChannel. intros Hworded.
  destruct (Hworded) with (chan := 2) (i := 0) as (v & Hcached & _).
  - change (nextPlayPos filled) with 0.
    change (bufferValidStart filled) with 0.
    change (bufferValidEnd filled) with 2048.
    change (numSamples block512) with 512. intros p Hp. lia.
  - split; [lia | reflexivity].
  - split; [lia | reflexivity].
  - vm_compute in Hcached. discriminate.
Qed.


(** * Further properties *)

(** ** What a read delivers, position by position *)

Section Positions.
Context {S : Type} `{PositionableAudioSource S}.
Implicit Type st : State S.

(** Sample [i] of the block lies in the range returned by
    [getValidBufferRange] exactly when its position is in the valid range. *)
Lemma validRange_positions st n i :
  bufferValidStart st <= bufferValidEnd st → 0 <= n <= INT_MAX →
  0 <= i < n →
  let r := result (getValidBufferRange n st) in
  (bufferValidStart st <= nextPlayPos st + i < bufferValidEnd st)
  ↔ (Range.isEmpty r = false ∧ Range.getStart r <= i < Range.getEnd r).
Proof.
  unfold INT_MAX. cbv zeta. intros Hrange Hn Hi.
  rewrite getValidBufferRange_run. unfold result. simpl fst.
  set (a := jlimit _ _ (nextPlayPos st)).
  set (b := jlimit _ _ (nextPlayPos st + n)).
  assert (Ha : a = Z.max (bufferValidStart st)
                 (Z.min (bufferValidEnd st) (nextPlayPos st)))
    by (apply jlimit_clamp; lia).
  assert (Hb : b = Z.max (bufferValidStart st)
                 (Z.min (bufferValidEnd st) (nextPlayPos st + n)))
    by (apply jlimit_clamp; lia).
  destruct (decide (a = b)) as [Hab | Hab].
  { rewrite Hab, Range_make_empty. split; [lia | intros [? _]; discriminate]. }
  assert (Hbounds : 0 <= a - nextPlayPos st < b - nextPlayPos st
                    ∧ b - nextPlayPos st <= n) by lia.
  rewrite !to_int_small by lia.
  unfold Range.isEmpty, Range.make, jmax. simpl.
  destruct (Z.ltb_spec (a - nextPlayPos st) (b - nextPlayPos st)); [|lia].
  split; [intros Hp; split; lia | intros [_ Hr]; lia].
Qed.

End Positions.


Section Delivery.
Context {S : Type} `{PositionableAudioSource S}.
Implicit Type st : State S.

(** One channel's copy leaves the caller's buffer alone outside the copied
    range of the block. *)
Lemma copyChannel_outside info validStart validEnd chan out st :
  0 < capacity st <= INT_MAX →
  0 <= validStart + nextPlayPos st →
  validStart < validEnd →
  ∀ c i, i < startSample info + validStart
         ∨ startSample info + validEnd <= i →
    AudioBuffer.sample
      (fst (final (copyChannel info validStart validEnd chan (out, st)))) c i
    = AudioBuffer.sample out c i.
Proof.
  intros HC Hs Hrange c i Hout.
  pose proof (copyChannel_run info validStart validEnd chan out st) as Hrun.
  cbv zeta in Hrun. rewrite Hrun. clear Hrun.
  rewrite !wrap_index by lia.
  replace (validEnd + nextPlayPos st)
    with (validStart + nextPlayPos st + (validEnd - validStart)) by lia.
  set (s := validStart + nextPlayPos st) in *.
  pose proof (Z.mod_pos_bound s (capacity st) ltac:(lia)) as Hi.
  destruct (Z.ltb_spec (s mod capacity st)
              ((s + (validEnd - validStart)) mod capacity st)) as [Hlt | Hge];
    cbn [final fst snd].
  - apply copyFrom_sample_out. lia.
  - assert (capacity st <= s mod capacity st + (validEnd - validStart)).
    { destruct (Z.lt_ge_cases (s mod capacity st + (validEnd - validStart))
                  (capacity st)) as [Hbefore | ?]; [|assumption].
      apply wrap_before_end in Hbefore; lia. }
    rewrite !copyFrom_sample_out by lia. reflexivity.
Qed.

Lemma copyChannels_outside info validStart validEnd st k :
  0 < capacity st <= INT_MAX →
  0 <= validStart + nextPlayPos st →
  validStart < validEnd →
  ∀ out c i, i < startSample info + validStart
             ∨ startSample info + validEnd <= i →
    AudioBuffer.sample
      (fst (final (forDown k (copyChannel info validStart validEnd) (out, st))))
      c i
    = AudioBuffer.sample out c i.
Proof.
  intros HC Hs Hrange. induction k as [|k IH]; intros out c i Hout;
    [reflexivity|].
  cbn [forDown]. rewrite bind_final.
  pose proof (copyChannel_outside info validStart validEnd (Z.of_nat k) out st
                HC Hs Hrange c i Hout) as Hone.
  pose proof (copyChannel_object info validStart validEnd (Z.of_nat k) out st)
    as Hobject.
  destruct (final (copyChannel info validStart validEnd (Z.of_nat k) (out, st)))
    as [out1 st1].
  cbn [fst snd] in Hone, Hobject. subst st1.
  rewrite IH by assumption. exact Hone.
Qed.

(** X1: a read of [n] samples delivers, sample by sample, what the cache
    holds for the sample's position, and silence where the position is not
    in the valid range. For sample [i] at position [p = nextPlayPos + i]:
    when [p] is in [[bufferValidStart, bufferValidEnd)], a channel that the
    cache has receives the cache's sample at the physical index
    [p mod capacity], and a channel of the caller's buffer beyond those of
    the cache keeps what it held; when [p] is not in the valid range, the
    sample is zero on every channel of the caller's buffer. *)
Theorem read_delivers_cache_or_silence st info out chan i :
  AudioBuffer.wf out → AudioBuffer.wf (buffer st) →
  0 <= startSample info →
  startSample info + numSamples info <= AudioBuffer.getNumSamples out →
  numSamples info <= INT_MAX →
  0 < capacity st <= INT_MAX →
  numberOfChannels st <= AudioBuffer.getNumChannels (buffer st) →
  0 <= bufferValidStart st <= bufferValidEnd st →
  bufferValidEnd st - bufferValidStart st <= capacity st →
  0 <= chan < AudioBuffer.getNumChannels out →
  0 <= i < numSamples info →
  let out' := fst (final (getNextAudioBlock info (out, st))) in
  let p := nextPlayPos st + i in
  (bufferValidStart st <= p < bufferValidEnd st →
     (chan < numberOfChannels st →
        AudioBuffer.sample out' chan (startSample info + i)
        = AudioBuffer.sample (buffer st) chan (p mod capacity st))
     ∧ (numberOfChannels st <= chan →
        AudioBuffer.sample out' chan (startSample info + i)
        = AudioBuffer.sample out chan (startSample info + i)))
  ∧ (¬ (bufferValidStart st <= p < bufferValidEnd st) →
     AudioBuffer.sample out' chan (startSample info + i) = Some 0%float).
Proof.
  intros Hwf Hwfc Hstart Hend Hn HC Hchans Hvalid Hsize Hchan Hi. cbv zeta.
  pose proof (validRange_positions st (numSamples info) i ltac:(lia)
                ltac:(lia) Hi) as Hpos. cbv zeta in Hpos.
  destruct (Range.isEmpty (result (getValidBufferRange (numSamples info) st)))
    eqn:Hempty.
  { rewrite getNextAudioBlock_miss by assumption. cbn [final fst snd].
    split.
    - intros Hp. apply Hpos in Hp as [? _]. discriminate.
    - intros _. apply clear_sample; try assumption; lia. }
  pose proof (validRange_shape st (numSamples info) ltac:(lia) ltac:(lia))
    as Hshape. cbv zeta in Hshape.
  destruct Hshape as [Hcontra | (_ & Hvs & Hve & Hbounds & Hlast)];
    [congruence|].
  pose proof (getNextAudioBlock_hit info out st) as Hhit. cbv zeta in Hhit.
  destruct (Hhit Hempty) as [-> _]. clear Hhit.
  set (r := result (getValidBufferRange (numSamples info) st)) in *.
  rewrite <- Hvs, <- Hve in Hbounds. rewrite <- Hve in Hlast.
  assert (Hs : 0 <= Range.getStart r + nextPlayPos st).
  { rewrite Hvs.
    assert (bufferValidStart st
            <= jlimit (bufferValidStart st) (bufferValidEnd st)
                 (nextPlayPos st))
      by (rewrite jlimit_clamp by lia; lia).
    lia. }
  assert (Hlen : Range.getEnd r - Range.getStart r <= capacity st).
  { rewrite Hvs, Hve, !jlimit_clamp by lia. lia. }
  clear Hvs Hve. clearbody r.
  set (out1 := if 0 <? Range.getStart r then _ else out).
  set (out2 := if Range.getEnd r <? numSamples info then _ else out1).
  assert (Hout1 : AudioBuffer.wf out1
                  ∧ AudioBuffer.getNumSamples out1 = AudioBuffer.getNumSamples out
                  ∧ AudioBuffer.getNumChannels out1
                    = AudioBuffer.getNumChannels out).
  { subst out1. destruct (0 <? Range.getStart r); [|auto].
    apply clear_shape. assumption. }
  destruct Hout1 as (Hwf1 & Hsize1 & Hchans1).
  assert (Hout2 : AudioBuffer.wf out2
                  ∧ AudioBuffer.getNumSamples out2 = AudioBuffer.getNumSamples out
                  ∧ AudioBuffer.getNumChannels out2
                    = AudioBuffer.getNumChannels out).
  { subst out2. destruct (Range.getEnd r <? numSamples info);
      [|rewrite <- Hsize1, <- Hchans1; auto].
    destruct (clear_shape out1 (startSample info + Range.getEnd r)
                (numSamples info - Range.getEnd r) Hwf1) as (? & -> & ->).
    auto. }
  destruct Hout2 as (Hwf2 & Hsize2 & Hchans2).
  replace (Range.getStart r <? Range.getEnd r) with true by lia.
  cbn [when]. rewrite Hchans2.
  set (k := Z.to_nat (jmin (numberOfChannels st)
                           (AudioBuffer.getNumChannels out))).
  assert (Hk : Z.of_nat k
               = Z.max 0 (Z.min (numberOfChannels st)
                            (AudioBuffer.getNumChannels out)))
    by (subst k; rewrite jmin_min; lia).
  (* the block in [out2], before the copies *)
  assert (Hhit2 : Range.getStart r <= i < Range.getEnd r →
                  AudioBuffer.sample out2 chan (startSample info + i)
                  = AudioBuffer.sample out chan (startSample info + i)).
  { intros Hin. subst out2 out1.
    destruct (Range.getEnd r <? numSamples info);
      [rewrite clear_sample_out by lia|];
      (destruct (0 <? Range.getStart r);
       [rewrite clear_sample_out by lia|]); reflexivity. }
  assert (Hmiss2 : ¬ (Range.getStart r <= i < Range.getEnd r) →
                   AudioBuffer.sample out2 chan (startSample info + i)
                   = Some 0%float).
  { intros Hnot. subst out2.
    destruct (Z.ltb_spec (Range.getEnd r) (numSamples info)) as [Htail | Htail].
    - destruct (Z.lt_ge_cases i (Range.getEnd r)) as [Hhead | Hafter].
      + rewrite clear_sample_out by lia. subst out1.
        destruct (Z.ltb_spec 0 (Range.getStart r)); [|lia].
        apply clear_sample; try assumption; lia.
      + apply clear_sample; try assumption; lia.
    - subst out1. destruct (Z.ltb_spec 0 (Range.getStart r)); [|lia].
      apply clear_sample; try assumption; lia. }
  assert (Hcache : 0 <= AudioBuffer.getNumChannels (buffer st))
    by (unfold AudioBuffer.getNumChannels; lia).
  pose proof (copyChannels_samples info (Range.getStart r) (Range.getEnd r) st k
                Hwfc HC Hs ltac:(lia) ltac:(lia) ltac:(lia)
                out2 Hwf2 ltac:(lia) ltac:(lia)) as [Hin Hother].
  split.
  - intros Hp. apply Hpos in Hp as [_ Hr]. split.
    + intros Hshared.
      specialize (Hin chan (i - Range.getStart r) ltac:(lia) ltac:(lia)).
      replace (startSample info + Range.getStart r + (i - Range.getStart r))
        with (startSample info + i) in Hin by lia.
      replace (Range.getStart r + nextPlayPos st + (i - Range.getStart r))
        with (nextPlayPos st + i) in Hin by lia.
      exact Hin.
    + intros Hbeyond. rewrite Hother by lia. apply Hhit2. exact Hr.
  - intros Hp.
    assert (Hr : ¬ (Range.getStart r <= i < Range.getEnd r))
      by (intros Hr; apply Hp, Hpos; auto).
    rewrite copyChannels_outside by lia. apply Hmiss2. exact Hr.
Qed.

End Delivery.

Lemma read_delivers_cache_or_silence_witness :
  bufferValidStart nearEnd <= nextPlayPos nearEnd + 100 < bufferValidEnd nearEnd
  ∧ AudioBuffer.sample
      (fst (final (getNextAudioBlock block512 (out512, nearEnd))))
      1 (startSample block512 + 100)
    = AudioBuffer.sample (buffer nearEnd) 1
        ((nextPlayPos nearEnd + 100) mod capacity nearEnd).
Proof.
  assert (Hcached : bufferValidStart nearEnd <= nextPlayPos nearEnd + 100
                    < bufferValidEnd nearEnd)
    by (split; [vm_compute; discriminate | reflexivity]).
  split; [exact Hcached|].
  destruct (read_delivers_cache_or_silence nearEnd block512 out512 1 100)
    as [Hhit _].
  - split; [vm_compute; discriminate | repeat constructor].
  - split; [vm_compute; discriminate | repeat constructor].
  - vm_compute; discriminate.
  - vm_compute; discriminate.
  - vm_compute; discriminate.
  - split; [reflexivity | vm_compute; discriminate].
  - vm_compute; discriminate.
  - split; vm_compute; discriminate.
  - vm_compute; discriminate.
  - split; [vm_compute; discriminate | reflexivity].
  - split; [vm_compute; discriminate | reflexivity].
  - destruct (Hhit Hcached) as [Hshared _]. apply Hshared. reflexivity.
Defined.


Section ReadFrame.
Context {S : Type} `{PositionableAudioSource S}.
Implicit Type st : State S.

Lemma copyChannel_only_copies info validStart validEnd chan out st :
  Forall (λ e, match e with Copied _ _ _ _ => True | _ => False end)
         (events (copyChannel info validStart validEnd chan (out, st))).
Proof.
  pose proof (copyChannel_run info validStart validEnd chan out st) as Hrun.
  cbv zeta in Hrun. rewrite Hrun.
  destruct (_ <? _); repeat constructor.
Qed.

(** X2: a read never writes outside its block and never touches the object
    beyond the cursor: the samples of the caller's buffer before
    [startSample] and from [startSample + n] on are left as they were, the
    calls issued are clears and copies on the caller's buffer only (no read
    of the source, no write of the valid range), and the cache, the source,
    the valid range and the configuration of the object are unchanged. *)
Theorem read_touches_only_its_block st info out :
  0 <= bufferValidStart st <= bufferValidEnd st →
  0 < capacity st <= INT_MAX →
  0 <= numSamples info <= INT_MAX →
  let r := getNextAudioBlock info (out, st) in
  (∀ chan i, i < startSample info
             ∨ startSample info + numSamples info <= i →
     AudioBuffer.sample (fst (final r)) chan i = AudioBuffer.sample out chan i)
  ∧ Forall (λ e, match e with
                 | Cleared _ _ | Copied _ _ _ _ => True
                 | _ => False
                 end) (events r)
  ∧ buffer (snd (final r)) = buffer st
  ∧ source (snd (final r)) = source st
  ∧ bufferValidStart (snd (final r)) = bufferValidStart st
  ∧ bufferValidEnd (snd (final r)) = bufferValidEnd st
  ∧ wasSourceLooping (snd (final r)) = wasSourceLooping st
  ∧ sameSetup st (snd (final r)).
Proof.
  intros Hvalid HC Hn. cbv zeta.
  destruct (Range.isEmpty (result (getValidBufferRange (numSamples info) st)))
    eqn:Hempty.
  { rewrite getNextAudioBlock_miss by assumption.
    cbn [final events fst snd]. unfold sameSetup.
    split; [intros; apply clear_sample_out; lia|].
    repeat split. repeat constructor. }
  rewrite getNextAudioBlock_hit_object by assumption.
  split; [|split]; [| |unfold sameSetup; repeat split].
  - pose proof (validRange_shape st (numSamples info) ltac:(lia) Hn)
      as Hshape. cbv zeta in Hshape.
    destruct Hshape as [Hcontra | (_ & Hvs & Hve & Hbounds & Hlast)];
      [congruence|].
    pose proof (getNextAudioBlock_hit info out st) as Hhit. cbv zeta in Hhit.
    destruct (Hhit Hempty) as [-> _]. clear Hhit.
    set (r := result (getValidBufferRange (numSamples info) st)) in *.
    rewrite <- Hvs, <- Hve in Hbounds. rewrite <- Hve in Hlast.
    assert (Hs : 0 <= Range.getStart r + nextPlayPos st).
    { rewrite Hvs.
      assert (bufferValidStart st
              <= jlimit (bufferValidStart st) (bufferValidEnd st)
                   (nextPlayPos st))
        by (rewrite jlimit_clamp by lia; lia).
      lia. }
    clear Hvs Hve. clearbody r.
    intros chan i Hout.
    replace (Range.getStart r <? Range.getEnd r) with true by lia.
    cbn [when]. rewrite copyChannels_outside by lia.
    destruct (Range.getEnd r <? numSamples info);
      [rewrite clear_sample_out by lia|];
      (destruct (0 <? Range.getStart r);
       [rewrite clear_sample_out by lia|]); reflexivity.
  - pose proof (getNextAudioBlock_hit info out st) as Hhit. cbv zeta in Hhit.
    destruct (Hhit Hempty) as [_ ->]. clear Hhit.
    repeat (apply Forall_app; split).
    + destruct (0 <? _); repeat constructor.
    + destruct (_ <? numSamples info); repeat constructor.
    + destruct (_ <? _); [|constructor]. cbn [when].
      apply forDown_events_Forall.
      * intros. apply copyChannel_object.
      * intros. eapply Forall_impl; [apply copyChannel_only_copies|].
        intros []; auto.
Qed.

End ReadFrame.

Lemma read_touches_only_its_block_witness :
  (∀ chan i, i < startSample block512
             ∨ startSample block512 + numSamples block512 <= i →
     AudioBuffer.sample
       (fst (final (getNextAudioBlock block512 (out512, nearEnd)))) chan i
     = AudioBuffer.sample out512 chan i)
  ∧ buffer (snd (final (getNextAudioBlock block512 (out512, nearEnd))))
    = buffer nearEnd.
Proof.
  destruct (read_touches_only_its_block nearEnd block512 out512)
    as (Houtside & _ & Hbuffer & _).
  - split; vm_compute; discriminate.
  - split; [reflexivity | vm_compute; discriminate].
  - split; vm_compute; discriminate.
  - split; assumption.
Defined.


(** ** Configuration, release and seek *)

Section Lifecycle.
Context {S : Type} `{PositionableAudioSource S}.
Implicit Type st : State S.

(** A reconfiguring [prepareToPlay], field by field. *)
Lemma prepareToPlay_reconfigures st samplesPerBlockExpected newSampleRate :
  negb (PrimFloat.eqb newSampleRate (sampleRate st))
  || negb (jmax (samplesPerBlockExpected * 2) (numberOfSamplesToBuffer st)
           =? capacity st)
  || negb (isPrepared st) = true →
  let needed :=
    jmax (samplesPerBlockExpected * 2) (numberOfSamplesToBuffer st) in
  let st' := final (prepareToPlay samplesPerBlockExpected newSampleRate st) in
  events (prepareToPlay samplesPerBlockExpected newSampleRate st)
  = [RangeWritten 0 0 needed]
  ∧ bufferValidStart st' = 0 ∧ bufferValidEnd st' = 0
  ∧ buffer st' = AudioBuffer.cleared (numberOfChannels st) needed
  ∧ sampleRate st' = newSampleRate
  ∧ nextPlayPos st' = nextPlayPos st
  ∧ isPrepared st' = true ∧ isTimeSliceClient st' = true
  ∧ numberOfSamplesToBuffer st' = numberOfSamplesToBuffer st
  ∧ numberOfChannels st' = numberOfChannels st.
Proof.
  intros Hcond. cbv zeta. unfold prepareToPlay.
  rewrite bind_final, bind_events. cbn [get result final events fst snd app].
  rewrite Hcond. repeat split.
Qed.

Lemma prepareToPlay_prefillBuffer st samplesPerBlockExpected newSampleRate :
  prefillBuffer (final (prepareToPlay samplesPerBlockExpected newSampleRate st))
  = prefillBuffer st.
Proof.
  unfold prepareToPlay. rewrite bind_final. cbn [get result final fst snd].
  destruct (_ || _); reflexivity.
Qed.

(** X3: [prepareToPlay] is idempotent for a sample rate that is a number: a
    second call with the same arguments finds nothing to do, writes nothing
    and leaves the object as the first call left it. A sample rate that does
    not compare equal to itself (not a number) defeats the test: on an object
    that already has that very rate, capacity and preparation, the call
    resets the cache again. *)
Theorem second_prepareToPlay_is_idle st samplesPerBlockExpected newSampleRate :
  let st' := final (prepareToPlay samplesPerBlockExpected newSampleRate st) in
  let again := prepareToPlay samplesPerBlockExpected newSampleRate st' in
  (PrimFloat.eqb newSampleRate newSampleRate = true →
   final again = st' ∧ events again = [])
  ∧ (PrimFloat.eqb newSampleRate newSampleRate = false →
     sampleRate st = newSampleRate →
     events (prepareToPlay samplesPerBlockExpected newSampleRate st)
     = [RangeWritten 0 0 (jmax (samplesPerBlockExpected * 2)
                               (numberOfSamplesToBuffer st))]).
Proof.
  cbv zeta.
  pose proof (prepareToPlay_prepared st samplesPerBlockExpected newSampleRate)
    as (Hprepared & Hcapacity & Hminimum). cbv zeta in *.
  split.
  - intros Hnumber.
    set (st' := final (prepareToPlay samplesPerBlockExpected newSampleRate st))
      in *.
    assert (Hrate : PrimFloat.eqb newSampleRate (sampleRate st') = true).
    { subst st'. unfold prepareToPlay. rewrite bind_final.
      cbn [get result final fst snd].
      destruct (negb (PrimFloat.eqb newSampleRate (sampleRate st))) eqn:Hsame;
        cbn [orb].
      - exact Hnumber.
      - destruct (_ || _); [exact Hnumber|].
        apply negb_false_iff in Hsame. exact Hsame. }
    clearbody st'. unfold prepareToPlay. rewrite bind_final, bind_events.
    cbn [get result final events fst snd app].
    rewrite Hrate, Hprepared, Hminimum, Hcapacity, Z.eqb_refl.
    cbn [negb orb]. split; reflexivity.
  - intros Hnan Hsame.
    apply prepareToPlay_reconfigures. rewrite Hsame, Hnan. reflexivity.
Qed.

(** X4: on an object that does not prefill, a [prepareToPlay] that
    reconfigures (another sample rate, another capacity needed, or an object
    not prepared), twice the block size being an [int], leaves an empty valid
    range over a zeroed cache of [max (2 * block, minimum)] samples and keeps
    the cursor where it was; the test of the prefill loop is false, so the
    call returns after the loop's first turn; and until the background
    thread refills the cache every read, of any length and at any cursor, is
    a total cache miss: it clears its block and leaves the object
    untouched. *)
Theorem reconfiguring_prepareToPlay_empties_cache st samplesPerBlockExpected
    newSampleRate :
  prefillBuffer st = false →
  - 2 ^ 31 <= samplesPerBlockExpected * 2 <= INT_MAX →
  negb (PrimFloat.eqb newSampleRate (sampleRate st))
  || negb (jmax (samplesPerBlockExpected * 2) (numberOfSamplesToBuffer st)
           =? capacity st)
  || negb (isPrepared st) = true →
  let needed :=
    jmax (samplesPerBlockExpected * 2) (numberOfSamplesToBuffer st) in
  let st' := final (prepareToPlay samplesPerBlockExpected newSampleRate st) in
  bufferValidStart st' = 0 ∧ bufferValidEnd st' = 0
  ∧ buffer st' = AudioBuffer.cleared (numberOfChannels st) needed
  ∧ nextPlayPos st' = nextPlayPos st
  ∧ isTimeSliceClient st' = true
  ∧ (∀ rate, prefillPending rate st' = false)
  ∧ ∀ info out position,
      getNextAudioBlock info (out, set_nextPlayPos position st')
      = (tt,
         (AudioBuffer.clear out (startSample info) (numSamples info),
          set_nextPlayPos position st'),
         [Cleared (startSample info) (numSamples info)]).
Proof.
  intros Hprefill _ Hcond.
  pose proof (prepareToPlay_reconfigures st samplesPerBlockExpected
                newSampleRate Hcond) as Hnew.
  pose proof (prepareToPlay_prefillBuffer st samplesPerBlockExpected
                newSampleRate) as Hsame.
  cbv zeta in *.
  destruct Hnew as (_ & Hstart & Hend & Hbuffer & _ & Hpos & _ & Hclient & _).
  repeat (split; [assumption|]).
  split.
  { intros rate. unfold prefillPending. rewrite Hsame, Hprefill. reflexivity. }
  intros info out position. apply getNextAudioBlock_miss.
  rewrite getValidBufferRange_run. unfold result.
  cbn [fst bufferValidStart bufferValidEnd nextPlayPos set_nextPlayPos].
  rewrite Hstart, Hend.
  assert (Hclamp : ∀ v, jlimit 0 0 v = 0).
  { intros v. unfold jlimit.
    destruct (Z.ltb_spec v 0), (Z.ltb_spec 0 v); lia. }
  rewrite !Hclamp. apply Range_make_empty.
Qed.

(** X5: [releaseResources] drops the samples of the cache (capacity 0) and
    takes the object away from the background thread, but leaves the valid
    range and the cursor as they were; on an object that does not prefill
    the next [prepareToPlay], whatever its sample rate and for every block
    size whose double is an [int], reconfigures: it resets the valid range,
    rebuilds a zeroed cache of [max (2 * block, minimum)] samples, and
    returns after the first turn of the prefill loop, whose test is
    false. *)
Theorem release_then_prepareToPlay_resets st samplesPerBlockExpected
    newSampleRate :
  prefillBuffer st = false →
  - 2 ^ 31 <= samplesPerBlockExpected * 2 <= INT_MAX →
  let st1 := final (releaseResources st) in
  let needed :=
    jmax (samplesPerBlockExpected * 2) (numberOfSamplesToBuffer st) in
  let st2 := final (prepareToPlay samplesPerBlockExpected newSampleRate st1) in
  (capacity st1 = 0 ∧ isPrepared st1 = false ∧ isTimeSliceClient st1 = false
   ∧ events (releaseResources st) = []
   ∧ bufferValidStart st1 = bufferValidStart st
   ∧ bufferValidEnd st1 = bufferValidEnd st
   ∧ nextPlayPos st1 = nextPlayPos st)
  ∧ events (prepareToPlay samplesPerBlockExpected newSampleRate st1)
    = [RangeWritten 0 0 needed]
  ∧ bufferValidStart st2 = 0 ∧ bufferValidEnd st2 = 0
  ∧ buffer st2 = AudioBuffer.cleared (numberOfChannels st) needed
  ∧ isPrepared st2 = true ∧ isTimeSliceClient st2 = true
  ∧ nextPlayPos st2 = nextPlayPos st
  ∧ ∀ rate, prefillPending rate st2 = false.
Proof.
  intros Hprefill _. cbv zeta. split; [repeat split|].
  pose proof (prepareToPlay_reconfigures (final (releaseResources st))
                samplesPerBlockExpected newSampleRate) as Hnew.
  pose proof (prepareToPlay_prefillBuffer (final (releaseResources st))
                samplesPerBlockExpected newSampleRate) as Hsame.
  cbv zeta in Hnew.
  destruct Hnew as (Hevents & Hstart & Hend & Hbuffer & _ & Hpos & Hprepared
                    & Hclient & _).
  { cbn. rewrite !orb_true_r. reflexivity. }
  repeat (split; [assumption|]).
  intros rate. unfold prefillPending. rewrite Hsame.
  change (prefillBuffer (final (releaseResources st))) with (prefillBuffer st).
  rewrite Hprefill. reflexivity.
Qed.

End Lifecycle.

Lemma second_prepareToPlay_is_idle_witness :
  final (prepareToPlay 512 44100%float prepared) = prepared
  ∧ events (prepareToPlay 512 44100%float prepared) = [].
Proof.
  destruct (second_prepareToPlay_is_idle fresh 512 44100%float) as [Hidle _].
  apply Hidle. reflexivity.
Defined.

Lemma reconfiguring_prepareToPlay_empties_cache_witness :
  prefillBuffer filled = false
  ∧ bufferValidStart (final (prepareToPlay 1024 48000%float filled)) = 0
  ∧ bufferValidEnd (final (prepareToPlay 1024 48000%float filled)) = 0
  ∧ (∀ rate,
       prefillPending rate (final (prepareToPlay 1024 48000%float filled))
       = false)
  ∧ ∀ info out position,
      getNextAudioBlock info
        (out, set_nextPlayPos position
                (final (prepareToPlay 1024 48000%float filled)))
      = (tt,
         (AudioBuffer.clear out (startSample info) (numSamples info),
          set_nextPlayPos position
            (final (prepareToPlay 1024 48000%float filled))),
         [Cleared (startSample info) (numSamples info)]).
Proof.
  split; [reflexivity|].
  destruct (reconfiguring_prepareToPlay_empties_cache filled 1024 48000%float)
    as (Hstart & Hend & _ & _ & _ & Hloop & Hmiss).
  - reflexivity.
  - split; vm_compute; discriminate.
  - reflexivity.
  - repeat split; assumption.
Defined.

Lemma release_then_prepareToPlay_resets_witness :
  prefillBuffer filled = false
  ∧ capacity released = 0
  ∧ bufferValidEnd released = bufferValidEnd filled
  ∧ events (prepareToPlay 512 44100%float released) = [RangeWritten 0 0 4096]
  ∧ bufferValidEnd (final (prepareToPlay 512 44100%float released)) = 0
  ∧ ∀ rate,
      prefillPending rate (final (prepareToPlay 512 44100%float released))
      = false.
Proof.
  split; [reflexivity|].
  destruct (release_then_prepareToPlay_resets filled 512 44100%float)
    as ((Hcap & _ & _ & _ & _ & Hkept & _) & Hevents & _ & Hend & _ & _ & _
        & _ & Hloop).
  - reflexivity.
  - split; vm_compute; discriminate.
  - repeat split; assumption.
Defined.

(** ** What a refill does, in the states the object can be in *)

Section RefillOutcome.
Context {S : Type} `{PositionableAudioSource S}.
Implicit Type st : State S.

Lemma last_two {A} (l : list A) a b : last (l ++ [a; b]) = Some b.
Proof.
  replace (l ++ [a; b]) with ((l ++ [a]) ++ [b])
    by (rewrite <- app_assoc; reflexivity).
  apply last_snoc.
Qed.

(** The refill without a change of the looping flag and with the cursor
    inside the valid range: a drift refill or none. *)
Lemma warm_refill st :
  cacheInvariant st → isTimeSliceClient st = true → capacity st <= INT_MAX →
  wasSourceLooping st = source_isLooping (source st) →
  let newStart := Z.max 0 (nextPlayPos st) in
  let window := newStart + capacity st - 4 in
  bufferValidStart st <= newStart < bufferValidEnd st →
  (512 < newStart - bufferValidStart st ∨ 512 < window - bufferValidEnd st →
   let newEnd := Z.min window (bufferValidEnd st + maxChunkSize) in
   let before := set_validRange newStart (Z.min (bufferValidEnd st) newEnd) st in
   bufferValidEnd st < newEnd
   ∧ readNextBufferChunk st
     = (true,
        set_validRange newStart newEnd
          (final (readSection (bufferValidEnd st) newEnd before)),
        [RangeWritten newStart (Z.min (bufferValidEnd st) newEnd) (capacity st)]
        ++ events (readSection (bufferValidEnd st) newEnd before)
        ++ [RangeWritten newStart newEnd (capacity st); ReadySignalled]))
  ∧ (newStart - bufferValidStart st <= 512 →
     window - bufferValidEnd st <= 512 →
     readNextBufferChunk st = (false, st, [])).
Proof.
  unfold INT_MAX. intros [Hrange Hserved] Hclient Hint Hflag. cbv zeta.
  intros Hin.
  destruct (Hserved Hclient) as (Hcap & Hfit & _).
  pose proof (readNextBufferChunk_run st) as Hrun. cbv zeta in Hrun.
  pose proof (chooseSection_run st) as Hchoose. cbv zeta in Hchoose.
  rewrite Hflag, eqb_reflx in Hchoose. cbn [negb app] in Hchoose.
  rewrite !jmax_max, !jmin_min in Hchoose.
  replace ((Z.max 0 (nextPlayPos st) <? bufferValidStart st)
           || (Z.max 0 (nextPlayPos st) >=? bufferValidEnd st))
    with false in Hchoose by lia.
  rewrite !to_int_small in Hchoose by lia.
  split.
  - intros Hdrift.
    replace ((512 <? Z.abs (Z.max 0 (nextPlayPos st) - bufferValidStart st))
             || (512 <? Z.abs (Z.max 0 (nextPlayPos st) + capacity st - 4
                               - bufferValidEnd st)))
      with true in Hchoose by lia.
    rewrite Hchoose in Hrun. cbn [result final events fst snd] in Hrun.
    assert (Hgrow : bufferValidEnd st
                    < Z.min (Z.max 0 (nextPlayPos st) + capacity st - 4)
                            (bufferValidEnd st + maxChunkSize)).
    { unfold maxChunkSize.
      destruct Hdrift as [Hhead | Htail]; lia. }
    split; [exact Hgrow|].
    replace (_ =? _) with false in Hrun by lia.
    rewrite Hrun.
    match goal with
    | |- context [readSection ?a ?b ?s] =>
        destruct (readSection_frame a b s) as [(_ & _ & Hcap2 & _) _]
    end.
    rewrite Hcap2. reflexivity.
  - intros Hhead Htail.
    replace ((512 <? Z.abs (Z.max 0 (nextPlayPos st) - bufferValidStart st))
             || (512 <? Z.abs (Z.max 0 (nextPlayPos st) + capacity st - 4
                               - bufferValidEnd st)))
      with false in Hchoose by lia.
    rewrite Hchoose in Hrun. cbn [result final events fst snd] in Hrun.
    rewrite Z.eqb_refl in Hrun. exact Hrun.
Qed.

End RefillOutcome.


Section RefillVerdict.
Context {S : Type} `{PositionableAudioSource S}.
Implicit Type st : State S.

(** The cold refill in terms of the object as the refill finds it. *)
Lemma cold_refill_outcome st :
  cacheInvariant st → isTimeSliceClient st = true →
  let newStart := Z.max 0 (nextPlayPos st) in
  let newEnd := Z.min (newStart + capacity st - 4) (newStart + maxChunkSize) in
  wasSourceLooping st ≠ source_isLooping (source st)
  ∨ newStart < bufferValidStart st ∨ bufferValidEnd st <= newStart →
  ∃ before,
    capacity before = capacity st
    ∧ newStart < newEnd
    ∧ readNextBufferChunk st
      = (true,
         set_validRange newStart newEnd
           (final (readSection newStart newEnd before)),
         events (chooseSection st)
         ++ events (readSection newStart newEnd before)
         ++ [RangeWritten newStart newEnd (capacity st); ReadySignalled]).
Proof.
  intros [Hrange Hserved] Hclient. cbv zeta. intros Hcold.
  destruct (Hserved Hclient) as (Hcap & _).
  pose proof (cold_refill st ltac:(lia)) as Hrun. cbv zeta in Hrun.
  rewrite !jmax_max, !jmin_min in Hrun.
  destruct Hrun as (Hgrow & Hchoose & Hrun).
  { destruct (negb (Bool.eqb (wasSourceLooping st)
                      (source_isLooping (source st)))) eqn:Hflag;
      cbn [bufferValidStart bufferValidEnd set_validRange].
    - lia.
    - apply negb_false_iff, eqb_prop in Hflag.
      destruct Hcold as [Hcontra | Hout]; [congruence | lia]. }
  eexists. split; [|split; [exact Hgrow|]].
  2: { rewrite Hrun, Hchoose. cbn [events snd]. reflexivity. }
  destruct (negb _); reflexivity.
Qed.

(** X7: in a reachable state in which the background thread serves the
    object, a refill returns [false] exactly in the steady state (the looping
    flag is the one seen before, [max (0, nextPlayPos)] is in the valid
    range no more than 512 samples after its start, and the range ends no
    more than 512 samples short of the window
    [max (0, nextPlayPos) + capacity - 4]); it has then called nothing and
    left the object exactly as it was, and [useTimeSlice] asks to be called
    again in 100 ms. *)
Theorem refill_is_idle_exactly_when_steady st :
  reachable st → isTimeSliceClient st = true → capacity st <= INT_MAX →
  let newStart := Z.max 0 (nextPlayPos st) in
  let window := newStart + capacity st - 4 in
  let steady :=
    wasSourceLooping st = source_isLooping (source st)
    ∧ bufferValidStart st <= newStart < bufferValidEnd st
    ∧ newStart - bufferValidStart st <= 512
    ∧ window - bufferValidEnd st <= 512 in
  (result (readNextBufferChunk st) = false ↔ steady)
  ∧ (steady →
     readNextBufferChunk st = (false, st, [])
     ∧ useTimeSlice st = (100, st, [])).
Proof.
  intros Hreach Hclient Hint. cbv zeta.
  pose proof (reachable_cacheInvariant st Hreach) as Hinv.
  assert (Hsteady :
            wasSourceLooping st = source_isLooping (source st)
            ∧ bufferValidStart st <= Z.max 0 (nextPlayPos st)
              < bufferValidEnd st
            ∧ Z.max 0 (nextPlayPos st) - bufferValidStart st <= 512
            ∧ Z.max 0 (nextPlayPos st) + capacity st - 4
              - bufferValidEnd st <= 512 →
            readNextBufferChunk st = (false, st, [])).
  { intros (Hflag & Hin & Hhead & Htail).
    pose proof (warm_refill st Hinv Hclient Hint Hflag) as Hwarm.
    cbv zeta in Hwarm. destruct (Hwarm Hin) as [_ Hidle].
    apply Hidle; assumption. }
  split; [split|].
  - intros Hfalse.
    destruct (bool_decide (wasSourceLooping st = source_isLooping (source st)))
      eqn:Hflag.
    2: { apply bool_decide_eq_false in Hflag.
         destruct (cold_refill_outcome st Hinv Hclient (or_introl Hflag))
           as (before & _ & _ & Hrun).
         rewrite Hrun in Hfalse. discriminate. }
    apply bool_decide_eq_true in Hflag.
    destruct (Z.lt_ge_cases (Z.max 0 (nextPlayPos st)) (bufferValidStart st))
      as [Hbefore | Hafter].
    { destruct (cold_refill_outcome st Hinv Hclient
                  (or_intror (or_introl Hbefore)))
        as (before & _ & _ & Hrun).
      rewrite Hrun in Hfalse. discriminate. }
    destruct (Z.lt_ge_cases (Z.max 0 (nextPlayPos st)) (bufferValidEnd st))
      as [Hinside | Hpast].
    2: { destruct (cold_refill_outcome st Hinv Hclient
                     (or_intror (or_intror Hpast)))
           as (before & _ & _ & Hrun).
         rewrite Hrun in Hfalse. discriminate. }
    pose proof (warm_refill st Hinv Hclient Hint Hflag) as Hwarm.
    cbv zeta in Hwarm. destruct (Hwarm ltac:(lia)) as [Hdrift _].
    destruct (Z.lt_ge_cases 512
                (Z.max 0 (nextPlayPos st) - bufferValidStart st)) as [Hh | Hh].
    { destruct (Hdrift (or_introl Hh)) as [_ Hrun].
      rewrite Hrun in Hfalse. discriminate. }
    destruct (Z.lt_ge_cases 512
                (Z.max 0 (nextPlayPos st) + capacity st - 4
                 - bufferValidEnd st)) as [Ht | Ht].
    { destruct (Hdrift (or_intror Ht)) as [_ Hrun].
      rewrite Hrun in Hfalse. discriminate. }
    repeat split; try assumption; lia.
  - intros Hs. rewrite (Hsteady Hs). reflexivity.
  - intros Hs. split; [exact (Hsteady Hs)|].
    unfold useTimeSlice. rewrite bind_run, (Hsteady Hs). reflexivity.
Qed.

End RefillVerdict.

Lemma refill_is_idle_exactly_when_steady_witness :
  (result (readNextBufferChunk filled) = false
   ↔ wasSourceLooping filled = source_isLooping (source filled)
     ∧ bufferValidStart filled <= Z.max 0 (nextPlayPos filled)
       < bufferValidEnd filled
     ∧ Z.max 0 (nextPlayPos filled) - bufferValidStart filled <= 512
     ∧ Z.max 0 (nextPlayPos filled) + capacity filled - 4
       - bufferValidEnd filled <= 512).
Proof.
  destruct (refill_is_idle_exactly_when_steady filled) as [Hiff _].
  - exact filled_reachable.
  - reflexivity.
  - vm_compute; discriminate.
  - exact Hiff.
Defined.


Lemma segmentsOf_app l1 l2 :
  segmentsOf (l1 ++ l2) = segmentsOf l1 ++ segmentsOf l2.
Proof. unfold segmentsOf. apply bind_app. Qed.

Lemma totalLength_app l1 l2 :
  totalLength (l1 ++ l2) = totalLength l1 + totalLength l2.
Proof.
  unfold totalLength. induction l1 as [|[offset len] l1 IH]; cbn [app foldr];
    [reflexivity | rewrite IH; lia].
Qed.

Section RefillWork.
Context {S : Type} `{PositionableAudioSource S}.
Implicit Type st : State S.

(** The section reads of a refill go through the split of the section. *)
Lemma readSection_segments st s len :
  0 < capacity st <= INT_MAX → 0 <= s → 0 < len <= capacity st →
  segmentsOf (events (readSection s (s + len) st))
  = wrapSplit (capacity st) s len.
Proof.
  intros HC Hs Hlen.
  assert (Hlen' : -2 ^ 31 <= len < 2 ^ 31) by (unfold INT_MAX in HC; lia).
  destruct (readSection_run s (s + len) st) as (s' & b' & _ & _ & ->).
  cbv zeta. rewrite !wrap_index by lia.
  rewrite wrap_test by lia.
  replace (s + len - s) with len by lia. rewrite to_int_small by assumption.
  unfold wrapSplit. destruct (_ <? _); reflexivity.
Qed.

Lemma readSection_amount st s e :
  0 < capacity st <= INT_MAX → 0 <= s → 0 < e - s <= capacity st →
  totalLength (segmentsOf (events (readSection s e st))) = e - s
  ∧ (length (segmentsOf (events (readSection s e st))) <= 2)%nat.
Proof.
  intros HC Hs Hlen.
  pose proof (readSection_segments st s (e - s) HC Hs Hlen) as Hsegments.
  replace (s + (e - s)) with e in Hsegments by lia. rewrite Hsegments.
  destruct (wrapSplit_bounds (capacity st) s (e - s) ltac:(lia) Hlen)
    as [_ Hsum].
  split; [exact Hsum|].
  unfold wrapSplit. destruct (_ <? _); cbn; lia.
Qed.

Lemma chooseSection_reads_nothing st :
  segmentsOf (events (chooseSection st)) = [].
Proof.
  pose proof (chooseSection_run st) as Hrun. cbv zeta in Hrun. rewrite Hrun.
  destruct (negb _); destruct (_ || _); try destruct (_ || _); reflexivity.
Qed.

(** A refill that returns [true], whichever way it went: the section it
    read, from [sectionStart] in the object [before] that the decisions
    left, and the range it committed. *)
Lemma working_refill_shape st :
  cacheInvariant st → isTimeSliceClient st = true → capacity st <= INT_MAX →
  result (readNextBufferChunk st) = true →
  let newStart := Z.max 0 (nextPlayPos st) in
  ∃ before sectionStart newEnd writes,
    readNextBufferChunk st
    = (true,
       set_validRange newStart newEnd
         (final (readSection sectionStart newEnd before)),
       writes ++ events (readSection sectionStart newEnd before)
       ++ [RangeWritten newStart newEnd (capacity st); ReadySignalled])
    ∧ segmentsOf writes = []
    ∧ capacity before = capacity st
    ∧ buffer before = buffer st
    ∧ source before = source st
    ∧ wasSourceLooping before = source_isLooping (source st)
    ∧ nextPlayPos before = nextPlayPos st
    ∧ newStart <= sectionStart < newEnd
    ∧ newEnd - sectionStart <= maxChunkSize
    ∧ newEnd <= newStart + capacity st - 4
    ∧ newEnd = Z.min (newStart + capacity st - 4) (sectionStart + maxChunkSize)
    ∧ (sectionStart = newStart
       ∧ (wasSourceLooping st ≠ source_isLooping (source st)
          ∨ newStart < bufferValidStart st ∨ bufferValidEnd st <= newStart)
       ∨ (wasSourceLooping st = source_isLooping (source st)
          ∧ bufferValidStart st <= newStart < bufferValidEnd st
          ∧ sectionStart = bufferValidEnd st)).
Proof.
  intros Hinv Hclient Hint Htrue. cbv zeta.
  destruct Hinv as [Hrange Hserved].
  destruct (Hserved Hclient) as (Hcap & Hfit & Hwf & Hchans).
  assert (Hinv : cacheInvariant st) by (split; assumption).
  assert (Hcases :
            (wasSourceLooping st ≠ source_isLooping (source st)
             ∨ Z.max 0 (nextPlayPos st) < bufferValidStart st
             ∨ bufferValidEnd st <= Z.max 0 (nextPlayPos st))
            ∨ (wasSourceLooping st = source_isLooping (source st)
               ∧ bufferValidStart st <= Z.max 0 (nextPlayPos st)
                 < bufferValidEnd st)).
  { destruct (bool_decide (wasSourceLooping st
                           = source_isLooping (source st))) eqn:Hflag.
    - apply bool_decide_eq_true in Hflag.
      destruct (Z.lt_ge_cases (Z.max 0 (nextPlayPos st)) (bufferValidStart st));
        [auto|].
      destruct (Z.lt_ge_cases (Z.max 0 (nextPlayPos st)) (bufferValidEnd st));
        [right; split; [assumption | lia] | auto].
    - apply bool_decide_eq_false in Hflag. auto. }
  destruct Hcases as [Hcold | [Hflag Hin]].
  - pose proof (cold_refill st ltac:(lia)) as Hrun. cbv zeta in Hrun.
    rewrite !jmax_max, !jmin_min in Hrun.
    destruct Hrun as (Hgrow & Hchoose & Hrun).
    { destruct (negb (Bool.eqb (wasSourceLooping st)
                        (source_isLooping (source st)))) eqn:Hflag;
        cbn [bufferValidStart bufferValidEnd set_validRange].
      - lia.
      - apply negb_false_iff, eqb_prop in Hflag.
        destruct Hcold as [Hcontra | Hout]; [congruence | lia]. }
    eexists _, _, _, _. split; [exact Hrun|].
    unfold maxChunkSize in *.
    destruct (negb (Bool.eqb (wasSourceLooping st)
                      (source_isLooping (source st)))) eqn:Hflag;
      cbn [capacity buffer source wasSourceLooping nextPlayPos set_validRange
           set_wasSourceLooping];
      repeat split; try lia; auto.
    apply negb_false_iff, eqb_prop in Hflag. exact Hflag.
  - pose proof (warm_refill st Hinv Hclient Hint Hflag) as Hwarm.
    cbv zeta in Hwarm. destruct (Hwarm Hin) as [Hdrift Hidle].
    destruct (Z.lt_ge_cases 512
                (Z.max 0 (nextPlayPos st) - bufferValidStart st)) as [Hh | Hh];
      [|destruct (Z.lt_ge_cases 512
                    (Z.max 0 (nextPlayPos st) + capacity st - 4
                     - bufferValidEnd st)) as [Ht | Ht]].
    3: { rewrite Hidle in Htrue by assumption. discriminate. }
    all: (destruct (Hdrift ltac:(lia)) as [Hgrow Hrun];
          eexists _, _, _, _; split; [exact Hrun|];
          unfold maxChunkSize in *;
          cbn [capacity buffer source wasSourceLooping nextPlayPos
               set_validRange];
          repeat split; try lia; auto).
Qed.

(** X8: in a reachable state in which the background thread serves the
    object, a refill that returns [true] has committed a valid range that
    starts at [max (0, nextPlayPos)], is not empty and ends within the
    window ([start + capacity - 4]), so that a cursor that is not negative is
    cached; its last call is the signal of [bufferReadyEvent], the looping
    flag it remembers is the source's, [useTimeSlice] returns 1, and it has
    read at most 2048 samples from the source, in one or two section
    reads. *)
Theorem working_refill_caches_the_cursor st :
  reachable st → isTimeSliceClient st = true → capacity st <= INT_MAX →
  result (readNextBufferChunk st) = true →
  let r := readNextBufferChunk st in
  let newStart := Z.max 0 (nextPlayPos st) in
  bufferValidStart (final r) = newStart
  ∧ newStart < bufferValidEnd (final r) <= newStart + capacity st - 4
  ∧ (0 <= nextPlayPos st →
     bufferValidStart (final r) <= nextPlayPos (final r)
     < bufferValidEnd (final r))
  ∧ wasSourceLooping (final r) = source_isLooping (source st)
  ∧ last (events r) = Some ReadySignalled
  ∧ result (useTimeSlice st) = 1
  ∧ 0 < totalLength (segmentsOf (events r)) <= maxChunkSize
  ∧ (length (segmentsOf (events r)) <= 2)%nat.
Proof.
  intros Hreach Hclient Hint Htrue. cbv zeta.
  pose proof (reachable_cacheInvariant st Hreach) as Hinv.
  assert (Huse : result (useTimeSlice st) = 1).
  { unfold useTimeSlice. rewrite bind_result. cbn [ret result fst].
    rewrite Htrue. reflexivity. }
  destruct (working_refill_shape st Hinv Hclient Hint Htrue)
    as (before & sStart & newEnd & writes & Hrun & Hwrites & Hcap & _ & _
        & Hflag & Hpos & Hsection & Hchunk & Hwindow & _ & _).
  destruct Hinv as [Hrange Hserved].
  destruct (Hserved Hclient) as (Hmin & _).
  destruct (readSection_frame sStart newEnd before) as (_ & Hpos' & Hflag').
  destruct (readSection_amount before sStart newEnd) as [Hsum Hcount];
    [rewrite ?Hcap; unfold maxChunkSize in *; lia ..|].
  rewrite Hrun.
  cbn [final events fst snd bufferValidStart bufferValidEnd nextPlayPos
       wasSourceLooping set_validRange].
  rewrite !segmentsOf_app, Hwrites. cbn [app].
  replace (segmentsOf [RangeWritten _ _ _; ReadySignalled]) with
    (@nil (Z * Z)) by reflexivity.
  rewrite app_nil_r, Hsum, Hpos', Hflag', Hpos, Hflag.
  rewrite app_assoc, last_two.
  repeat split; try assumption; try lia.
Qed.

(** A refill that reports no work found the object steady and left it as it
    was. *)
Lemma idle_refill_shape st :
  cacheInvariant st → isTimeSliceClient st = true → capacity st <= INT_MAX →
  result (readNextBufferChunk st) = false →
  readNextBufferChunk st = (false, st, [])
  ∧ wasSourceLooping st = source_isLooping (source st)
  ∧ bufferValidStart st <= Z.max 0 (nextPlayPos st) < bufferValidEnd st
  ∧ Z.max 0 (nextPlayPos st) - bufferValidStart st <= 512
  ∧ Z.max 0 (nextPlayPos st) + capacity st - 4 - bufferValidEnd st <= 512.
Proof.
  intros Hinv Hclient Hint Hresult.
  destruct (bool_decide (wasSourceLooping st
                         = source_isLooping (source st))) eqn:Hflag.
  2: { apply bool_decide_eq_false in Hflag.
       destruct (cold_refill_outcome st Hinv Hclient (or_introl Hflag))
         as (before & _ & _ & Hrun).
       rewrite Hrun in Hresult. discriminate. }
  apply bool_decide_eq_true in Hflag.
  destruct (Z.lt_ge_cases (Z.max 0 (nextPlayPos st)) (bufferValidStart st))
    as [Hbefore | Hafter].
  { destruct (cold_refill_outcome st Hinv Hclient
                (or_intror (or_introl Hbefore)))
      as (before & _ & _ & Hrun).
    rewrite Hrun in Hresult. discriminate. }
  destruct (Z.lt_ge_cases (Z.max 0 (nextPlayPos st)) (bufferValidEnd st))
    as [Hinside | Hpast].
  2: { destruct (cold_refill_outcome st Hinv Hclient
                   (or_intror (or_intror Hpast)))
         as (before & _ & _ & Hrun).
       rewrite Hrun in Hresult. discriminate. }
  pose proof (warm_refill st Hinv Hclient Hint Hflag) as Hwarm.
  cbv zeta in Hwarm. destruct (Hwarm ltac:(lia)) as [Hdrift Hsteady].
  destruct (Z.lt_ge_cases 512
              (Z.max 0 (nextPlayPos st) - bufferValidStart st))
    as [Hh | Hh].
  { destruct (Hdrift (or_introl Hh)) as [_ Hrun].
    rewrite Hrun in Hresult. discriminate. }
  destruct (Z.lt_ge_cases 512
              (Z.max 0 (nextPlayPos st) + capacity st - 4
               - bufferValidEnd st)) as [Ht | Ht].
  { destruct (Hdrift (or_intror Ht)) as [_ Hrun].
    rewrite Hrun in Hresult. discriminate. }
  split; [apply Hsteady; lia|]. repeat split; try assumption; lia.
Qed.

End RefillWork.

Lemma working_refill_caches_the_cursor_witness :
  result (readNextBufferChunk sought) = true
  ∧ bufferValidStart (final (readNextBufferChunk sought))
    = Z.max 0 (nextPlayPos sought)
  ∧ last (events (readNextBufferChunk sought)) = Some ReadySignalled
  ∧ 0 < totalLength (segmentsOf (events (readNextBufferChunk sought)))
    <= maxChunkSize.
Proof.
  split; [reflexivity|].
  destruct (working_refill_caches_the_cursor sought)
    as (Hstart & _ & _ & _ & Hlast & _ & Hamount & _).
  - exact sought_reachable.
  - reflexivity.
  - vm_compute; discriminate.
  - reflexivity.
  - repeat split; try assumption; apply Hamount.
Defined.


(** ** The refill comes to rest *)

Section ComingToRest.
Context {S : Type} `{PositionableAudioSource S}.
Implicit Type st : State S.

(** The source keeps its looping flag when it is sought and when it is
    read. *)
Hypothesis seek_keeps_looping :
  ∀ s p, source_isLooping (source_setNextReadPosition p s) = source_isLooping s.
Hypothesis read_keeps_looping :
  ∀ s numChannels n,
    source_isLooping (snd (source_getNextAudioBlock numChannels n s))
    = source_isLooping s.

Lemma readBufferSection_looping start len offset st :
  source_isLooping (source (final (readBufferSection start len offset st)))
  = source_isLooping (source st).
Proof.
  unfold readBufferSection. rewrite !bind_run.
  cbn [tell get result final events fst snd].
  destruct (negb (_ =? start));
    cbn [when onSource modify ret get result final events fst snd source buffer
         set_source];
    match goal with
    | |- context [source_getNextAudioBlock ?c ?n ?s] =>
        pose proof (read_keeps_looping s c n) as Hread;
        destruct (source_getNextAudioBlock c n s) as [block s']
    end;
    rewrite ?bind_run;
    cbn [modify result final events fst snd app set_source set_buffer source];
    cbn [snd] in Hread; rewrite Hread, ?seek_keeps_looping; reflexivity.
Qed.

Lemma readSection_looping sectionStart sectionEnd st :
  source_isLooping (source (final (readSection sectionStart sectionEnd st)))
  = source_isLooping (source st).
Proof.
  unfold readSection. rewrite bind_final. cbn [get result final fst snd].
  destruct (_ <? _).
  - apply readBufferSection_looping.
  - rewrite bind_final, !readBufferSection_looping. reflexivity.
Qed.

Lemma slice_is_refill st : final (useTimeSlice st) = final (readNextBufferChunk st).
Proof. unfold useTimeSlice. rewrite bind_final. reflexivity. Qed.

(** One time slice: the invariant is kept, the object is settled after it,
    and what is left to fill shrinks by a chunk, down to the threshold. *)
Lemma one_slice st :
  cacheInvariant st → isTimeSliceClient st = true → capacity st <= INT_MAX →
  let st' := final (useTimeSlice st) in
  (cacheInvariant st' ∧ isTimeSliceClient st' = true
   ∧ capacity st' = capacity st ∧ nextPlayPos st' = nextPlayPos st)
  ∧ settled st'
  ∧ 0 <= shortfall st'
  ∧ shortfall st' <= Z.max 512 (capacity st - 4 - 2048)
  ∧ (settled st → shortfall st' <= Z.max 512 (shortfall st - 2048)).
Proof.
  intros Hinv Hclient Hint. cbv zeta. rewrite slice_is_refill.
  pose proof (refill_keeps_cacheInvariant st Hinv Hclient) as Hinv'.
  destruct (readNextBufferChunk_frame st)
    as [(_ & _ & Hcap' & _ & Hclient') Hpos'].
  split; [split; [exact Hinv'|]; split; [congruence|];
          split; [exact Hcap' | exact Hpos']|].
  destruct Hinv as [Hrange Hserved].
  destruct (Hserved Hclient) as (Hcap & Hfit & _).
  assert (Hinv : cacheInvariant st) by (split; assumption).
  unfold settled, shortfall. rewrite Hcap', Hpos'.
  destruct (result (readNextBufferChunk st)) eqn:Hresult.
  - destruct (working_refill_shape st Hinv Hclient Hint Hresult)
      as (before & sStart & newEnd & writes & Hrun & _ & Hcapb & _ & Hsrc
          & Hflag & _ & Hsection & Hchunk & Hwindow & HnewEnd & Hfrom).
    rewrite Hrun.
    cbn [final fst snd bufferValidStart bufferValidEnd wasSourceLooping source
         set_validRange].
    destruct (readSection_frame sStart newEnd before) as (_ & _ & Hflag').
    rewrite Hflag', Hflag, readSection_looping, Hsrc.
    unfold maxChunkSize in *.
    split; [repeat split; lia|]. split; [lia|]. split; [lia|].
    intros (Hsame & Hin & Hhead).
    destruct Hfrom as [[_ Hcold] | (_ & _ & ->)]; [|lia].
    destruct Hcold as [Hcontra | Hout]; [congruence | lia].
  - pose proof (idle_refill_shape st Hinv Hclient Hint Hresult) as Hidle.
    destruct Hidle as (-> & Hflag & Hin & Hhead & Htail).
    cbn [final fst snd]. repeat split; try assumption; try lia.
Qed.

(** Any number of further slices from a settled object. *)
Lemma settled_slices k :
  ∀ st,
    cacheInvariant st → isTimeSliceClient st = true →
    capacity st <= INT_MAX → settled st → 0 <= shortfall st →
    let st' := timeSlices k st in
    (cacheInvariant st' ∧ isTimeSliceClient st' = true
     ∧ capacity st' = capacity st ∧ nextPlayPos st' = nextPlayPos st)
    ∧ settled st'
    ∧ 0 <= shortfall st' <= Z.max 512 (shortfall st - 2048 * Z.of_nat k).
Proof.
  induction k as [|k IH]; intros st Hinv Hclient Hint Hsettled Hshort;
    cbv zeta.
  { cbn [timeSlices].
    split; [split; [exact Hinv|]; split; [exact Hclient|]; split; reflexivity|].
    split; [exact Hsettled|]. lia. }
  cbn [timeSlices].
  pose proof (one_slice st Hinv Hclient Hint) as Hone. cbv zeta in Hone.
  destruct Hone as ((Hinv1 & Hclient1 & Hcap1 & Hpos1) & Hsettled1 & Hshort1
                    & _ & Hshrink).
  specialize (Hshrink Hsettled).
  pose proof (IH (final (useTimeSlice st)) Hinv1 Hclient1 ltac:(lia) Hsettled1
                Hshort1) as Hrest.
  cbv zeta in Hrest.
  destruct Hrest as ((Hinv' & Hclient' & Hcap' & Hpos') & Hsettled' & Hshort').
  split; [split; [exact Hinv'|]; split; [exact Hclient'|];
          split; congruence|].
  split; [exact Hsettled'|]. lia.
Qed.

(** Enough slices fill the window up to the threshold: after [k >= 1]
    slices with [2048 * k >= capacity - 516] the object is settled and no
    more than 512 samples are left to fill. *)
Lemma slices_fill_window st k :
  cacheInvariant st → isTimeSliceClient st = true → capacity st <= INT_MAX →
  (1 <= k)%nat → capacity st - 516 <= 2048 * Z.of_nat k →
  let st' := timeSlices k st in
  (cacheInvariant st' ∧ isTimeSliceClient st' = true
   ∧ capacity st' = capacity st ∧ nextPlayPos st' = nextPlayPos st)
  ∧ settled st'
  ∧ 0 <= shortfall st' <= 512.
Proof.
  intros Hinv Hclient Hint Hk Henough. cbv zeta.
  destruct k as [|k]; [lia|]. cbn [timeSlices].
  pose proof (one_slice st Hinv Hclient Hint) as Hone. cbv zeta in Hone.
  destruct Hone as ((Hinv1 & Hclient1 & Hcap1 & Hpos1) & Hsettled1 & Hshort1
                    & Hfirst & _).
  pose proof (settled_slices k (final (useTimeSlice st)) Hinv1 Hclient1
                ltac:(lia) Hsettled1 Hshort1) as Hrest.
  cbv zeta in Hrest.
  destruct Hrest as ((Hinv' & Hclient' & Hcap' & Hpos') & Hsettled' & Hshort').
  split; [split; [exact Hinv'|]; split; [exact Hclient'|];
          split; congruence|].
  split; [exact Hsettled'|]. lia.
Qed.

(** X9: with the cursor at rest the refill comes to rest. From any
    reachable state in which the background thread serves the object, over
    a source that keeps its looping flag when sought and read, after [k >= 1]
    time slices with [2048 * k >= capacity - 516] the next [useTimeSlice]
    finds nothing to do (it returns 100 and leaves the object as it is), the
    cursor has not moved, [max (0, nextPlayPos)] is cached, and the valid
    range ends at most 512 samples short of the window
    [max (0, nextPlayPos) + capacity - 4] and never past it. *)
Theorem refill_comes_to_rest st k :
  reachable st → isTimeSliceClient st = true → capacity st <= INT_MAX →
  (1 <= k)%nat → capacity st - 516 <= 2048 * Z.of_nat k →
  let st' := timeSlices k st in
  let newStart := Z.max 0 (nextPlayPos st) in
  useTimeSlice st' = (100, st', [])
  ∧ nextPlayPos st' = nextPlayPos st
  ∧ capacity st' = capacity st
  ∧ bufferValidStart st' <= newStart < bufferValidEnd st'
  ∧ newStart + capacity st - 4 - 512 <= bufferValidEnd st'
    <= newStart + capacity st - 4.
Proof.
  intros Hreach Hclient Hint Hk Henough. cbv zeta.
  pose proof (reachable_cacheInvariant st Hreach) as Hinv.
  pose proof (slices_fill_window st k Hinv Hclient Hint Hk Henough) as Hfill.
  cbv zeta in Hfill.
  destruct Hfill as ((Hinv' & Hclient' & Hcap' & Hpos') & Hsettled' & Hshort').
  set (st' := timeSlices k st) in *. clearbody st'.
  destruct Hsettled' as (Hflag & Hin & Hhead).
  unfold shortfall in *. rewrite Hcap', Hpos' in *.
  pose proof (warm_refill st' Hinv' Hclient' ltac:(lia) Hflag) as Hwarm.
  cbv zeta in Hwarm. rewrite ?Hcap', ?Hpos' in Hwarm.
  destruct (Hwarm Hin) as [_ Hidle].
  specialize (Hidle Hhead ltac:(lia)).
  split.
  { unfold useTimeSlice. rewrite bind_run, Hidle. reflexivity. }
  repeat split; try lia.
Qed.

End ComingToRest.

Lemma refill_comes_to_rest_witness :
  useTimeSlice (timeSlices 2 sought) = (100, timeSlices 2 sought, [])
  ∧ bufferValidStart (timeSlices 2 sought) <= Z.max 0 (nextPlayPos sought)
    < bufferValidEnd (timeSlices 2 sought).
Proof.
  destruct (@refill_comes_to_rest ArraySource ArraySource_source
              (λ _ _, eq_refl) (λ _ _ _, eq_refl) sought 2)
    as (Hidle & _ & _ & Hcached & _).
  - exact sought_reachable.
  - reflexivity.
  - vm_compute; discriminate.
  - lia.
  - vm_compute; discriminate.
  - split; assumption.
Defined.

(** ** The cache holds what the source plays *)

(** Where a position lands in a cache of [C] samples, [k] samples after
    [s]. *)
Lemma wrap_offset C s k :
  0 < C → 0 <= k < C →
  (s + k) mod C
  = if s mod C + k <? C then s mod C + k else s mod C + k - C.
Proof.
  intros HC Hk. destruct (Z.eq_dec k 0) as [-> | Hne].
  - rewrite !Z.add_0_r. pose proof (Z.mod_pos_bound s C HC).
    destruct (Z.ltb_spec (s mod C) C); [reflexivity | lia].
  - apply wrap_end; lia.
Qed.

(** Two positions less than the capacity apart land on different indices. *)
Lemma wrap_apart C p q :
  0 < C → 0 < q - p < C → q mod C ≠ p mod C.
Proof.
  intros HC Hgap Heq.
  assert (Hzero : (q - p) mod C = 0).
  { rewrite Zminus_mod, Heq, Z.sub_diag. apply Z.mod_0_l. lia. }
  rewrite Z.mod_small in Hzero by lia. lia.
Qed.

(** What a block stored in the cache leaves at each index of a channel. *)
Lemma storeBlock_sample b offset len block chan i (f : Z → float) :
  AudioBuffer.wf b →
  0 <= offset → 0 <= len → offset + len <= AudioBuffer.getNumSamples b →
  0 <= chan < AudioBuffer.getNumChannels b → 0 <= i →
  (∀ j, 0 <= j < len →
     block !! Z.to_nat chan ≫= (λ samples, samples !! Z.to_nat j)
     = Some (f j)) →
  AudioBuffer.sample (storeBlock b offset len block) chan i
  = if (offset <=? i) && (i <? offset + len)
    then Some (f (i - offset))
    else AudioBuffer.sample b chan i.
Proof.
  intros Hwf Hoffset Hlen Hend Hchan Hi Hblock.
  unfold storeBlock. rewrite inRegion_true by assumption.
  unfold AudioBuffer.sample. cbn [AudioBuffer.channels].
  replace ((0 <=? chan) && (0 <=? i)) with true by lia.
  destruct (channel_exists b chan Hchan) as [c Hc].
  pose proof (wf_channel b _ c Hwf Hc) as Hsize.
  rewrite list_lookup_imap, Hc.
  cbn [fmap option_fmap option_map mbind option_bind].
  destruct (block !! Z.to_nat chan) as [samples|] eqn:Hsamples.
  - cbn [mbind option_bind] in Hblock. unfold AudioBuffer.store.
    destruct ((offset <=? i) && (i <? offset + len)) eqn:Hin.
    + assert (Hlong : (Z.to_nat len <= length samples)%nat).
      { pose proof (Hblock (len - 1) ltac:(lia)) as Hlast.
        apply lookup_lt_Some in Hlast. lia. }
      rewrite list_lookup_inserts.
      * rewrite lookup_take_lt by lia.
        rewrite <- (Hblock (i - offset)) by lia. f_equal. lia.
      * rewrite length_take. lia.
      * lia.
    + destruct (Z.lt_ge_cases i offset).
      * apply list_lookup_inserts_lt. lia.
      * apply list_lookup_inserts_ge. rewrite length_take. lia.
  - destruct ((offset <=? i) && (i <? offset + len)) eqn:Hin; [|reflexivity].
    pose proof (Hblock 0 ltac:(lia)) as Hfirst. discriminate.
Qed.

Section Coherence.
Context {S : Type} `{PositionableAudioSource S}.
Implicit Type st : State S.

Variable played : Z → Z → float.
Variable good : S → Prop.
Hypothesis source_plays : plays played good.

(** One section read from the source: the region written holds the samples
    played from [start] on, the rest of the cache is as it was. *)
Lemma readBufferSection_fills start len offset st :
  good (source st) → AudioBuffer.wf (buffer st) →
  0 <= offset → 0 <= len → offset + len <= capacity st →
  let st' := final (readBufferSection start len offset st) in
  good (source st')
  ∧ ∀ chan i,
      0 <= chan < AudioBuffer.getNumChannels (buffer st) → 0 <= i →
      AudioBuffer.sample (buffer st') chan i
      = if (offset <=? i) && (i <? offset + len)
        then Some (played chan (start + (i - offset)))
        else AudioBuffer.sample (buffer st) chan i.
Proof.
  intros Hgood Hwf Hoffset Hlen Hend. cbv zeta.
  destruct source_plays as [Hseek Hread].
  unfold readBufferSection. rewrite !bind_run.
  cbn [tell get result final events fst snd].
  set (s0 := if negb (source_getNextReadPosition (source st) =? start)
             then source_setNextReadPosition start (source st)
             else source st).
  assert (Hs0 : good s0 ∧ source_getNextReadPosition s0 = start).
  { subst s0. destruct (Z.eqb_spec (source_getNextReadPosition (source st)) start);
      cbn [negb]; [split; assumption|].
    apply Hseek. assumption. }
  destruct Hs0 as [Hgood0 Hpos0].
  assert (Hgoal :
    ∀ st0, source st0 = s0 → buffer st0 = buffer st →
      let '(block, s') :=
        source_getNextAudioBlock (AudioBuffer.getNumChannels (buffer st0)) len
          (source st0) in
      good s'
      ∧ ∀ chan i,
          0 <= chan < AudioBuffer.getNumChannels (buffer st) → 0 <= i →
          AudioBuffer.sample (storeBlock (buffer st0) offset len block) chan i
          = if (offset <=? i) && (i <? offset + len)
            then Some (played chan (start + (i - offset)))
            else AudioBuffer.sample (buffer st) chan i).
  { clearbody s0. intros st0 <- Hbuf.
    pose proof (Hread (source st0)
                  (AudioBuffer.getNumChannels (buffer st0)) len Hgood0)
      as [Hgood' Hsamples].
    destruct (source_getNextAudioBlock _ _ _) as [block s'].
    cbn [fst snd] in *. split; [exact Hgood'|].
    intros chan i Hchan Hi. rewrite Hbuf in *.
    rewrite (storeBlock_sample _ _ _ _ _ _
               (λ j, played chan (start + j))); try assumption.
    - reflexivity.
    - intros j Hj. rewrite Hsamples by lia. rewrite Hpos0. reflexivity. }
  subst s0.
  destruct (negb (_ =? start));
    cbn [when onSource modify ret get result final events fst snd source buffer
         set_source];
    match goal with
    | |- context [source_getNextAudioBlock ?c ?n (source ?st0)] =>
        pose proof (Hgoal st0 eq_refl eq_refl) as Hthis;
        destruct (source_getNextAudioBlock c n (source st0)) as [block s']
    | |- context [source_getNextAudioBlock ?c ?n ?s] =>
        pose proof (Hgoal (set_source s st) eq_refl eq_refl) as Hthis;
        cbn [source buffer set_source] in Hthis;
        destruct (source_getNextAudioBlock c n s) as [block s']
    end;
    rewrite ?bind_run;
    cbn [modify result final events fst snd app set_source set_buffer buffer
         source];
    exact Hthis.
Qed.

(** A section read into the cache: every position of the section is at its
    physical index afterwards, and the indices of no position of the section
    are as they were. *)
Lemma readSection_fills s e st :
  good (source st) → AudioBuffer.wf (buffer st) →
  0 < capacity st <= INT_MAX → 0 <= s → 0 < e - s <= capacity st →
  let st' := final (readSection s e st) in
  good (source st')
  ∧ ∀ chan,
      0 <= chan < AudioBuffer.getNumChannels (buffer st) →
      (∀ p, s <= p < e →
         AudioBuffer.sample (buffer st') chan (p mod capacity st)
         = Some (played chan p))
      ∧ (∀ i, 0 <= i → (∀ p, s <= p < e → p mod capacity st ≠ i) →
           AudioBuffer.sample (buffer st') chan i
           = AudioBuffer.sample (buffer st) chan i).
Proof.
  intros Hgood Hwf HC Hs Hlen. cbv zeta.
  assert (HC' : 0 < capacity st) by lia.
  pose proof (Z.mod_pos_bound s (capacity st) HC') as Hindex.
  assert (Hwhere : ∀ p, s <= p < e →
            p mod capacity st
            = if s mod capacity st + (p - s) <? capacity st
              then s mod capacity st + (p - s)
              else s mod capacity st + (p - s) - capacity st).
  { intros p Hp. rewrite <- (wrap_offset (capacity st) s (p - s)) by lia.
    f_equal. lia. }
  unfold readSection. rewrite bind_final. cbn [get result final fst snd].
  rewrite !wrap_index by (unfold INT_MAX in *; lia).
  rewrite to_int_small by (unfold INT_MAX in *; lia).
  pose proof (wrap_test (capacity st) s (e - s) HC' ltac:(lia)) as Htest.
  replace (s + (e - s)) with e in Htest by lia. rewrite Htest. clear Htest.
  set (m := s mod capacity st) in *. clearbody m.
  destruct (Z.ltb_spec (m + (e - s)) (capacity st)) as [Hfits | Hwraps].
  - destruct (readBufferSection_fills s (e - s) m st
                Hgood Hwf ltac:(lia) ltac:(lia) ltac:(lia))
      as [Hgood' Hsamples].
    split; [exact Hgood'|]. intros chan Hchan. split.
    + intros p Hp. rewrite (Hwhere p Hp).
      destruct (Z.ltb_spec (m + (p - s)) (capacity st)); [|lia].
      rewrite Hsamples by lia.
      replace ((m <=? m + (p - s)) && (m + (p - s) <? m + (e - s)))
        with true by lia.
      do 2 f_equal. lia.
    + intros i Hi Hfree. rewrite Hsamples by assumption.
      destruct ((m <=? i) && (i <? m + (e - s))) eqn:Hin; [|reflexivity].
      exfalso. apply (Hfree (s + (i - m))); [lia|].
      rewrite Hwhere by lia.
      destruct (Z.ltb_spec (m + (s + (i - m) - s)) (capacity st)); lia.
  - rewrite bind_final.
    set (initialSize := capacity st - m).
    assert (Hinitial : initialSize = capacity st - m) by reflexivity.
    clearbody initialSize.
    destruct (readBufferSection_fills s initialSize m st
                Hgood Hwf ltac:(lia) ltac:(lia) ltac:(lia))
      as [Hgood1 Hsamples1].
    destruct (readBufferSection_buffer s initialSize m st Hwf)
      as [Hwf1 Hchans1].
    destruct (readBufferSection_run s initialSize m st)
      as (s1 & b1 & Hrun1 & Hsize1).
    assert (Hcap1 : capacity (final (readBufferSection s initialSize m st))
                    = capacity st).
    { rewrite Hrun1. exact Hsize1. }
    clear Hrun1 Hsize1 s1 b1.
    set (st1 := final (readBufferSection s initialSize m st)) in *.
    clearbody st1.
    destruct (readBufferSection_fills (s + initialSize)
                (e - s - initialSize) 0 st1
                Hgood1 Hwf1 ltac:(lia) ltac:(lia) ltac:(lia))
      as [Hgood2 Hsamples2].
    split; [exact Hgood2|]. intros chan Hchan.
    assert (Hchan1 : 0 <= chan < AudioBuffer.getNumChannels (buffer st1))
      by (rewrite Hchans1; exact Hchan).
    split.
    + intros p Hp. rewrite (Hwhere p Hp).
      destruct (Z.ltb_spec (m + (p - s)) (capacity st)) as [Hfirst | Hsecond].
      * rewrite Hsamples2 by lia.
        replace ((0 <=? m + (p - s))
                 && (m + (p - s) <? 0 + (e - s - initialSize)))
          with false by lia.
        rewrite Hsamples1 by lia.
        replace ((m <=? m + (p - s)) && (m + (p - s) <? m + initialSize))
          with true by lia.
        do 2 f_equal. lia.
      * rewrite Hsamples2 by lia.
        replace ((0 <=? m + (p - s) - capacity st)
                 && (m + (p - s) - capacity st
                     <? 0 + (e - s - initialSize))) with true by lia.
        do 2 f_equal. lia.
    + intros i Hi Hfree. rewrite Hsamples2 by assumption.
      destruct ((0 <=? i) && (i <? 0 + (e - s - initialSize))) eqn:Hin2.
      { exfalso. apply (Hfree (s + initialSize + i)); [lia|].
        rewrite Hwhere by lia.
        destruct (Z.ltb_spec (m + (s + initialSize + i - s)) (capacity st));
          lia. }
      rewrite Hsamples1 by assumption.
      destruct ((m <=? i) && (i <? m + initialSize)) eqn:Hin1; [|reflexivity].
      exfalso. apply (Hfree (s + (i - m))); [lia|].
      rewrite Hwhere by lia.
      destruct (Z.ltb_spec (m + (s + (i - m) - s)) (capacity st)); lia.
Qed.

(** One refill: the source stays among the good ones and the cache holds the
    samples played over the whole of the new valid range. *)
Lemma refill_fills st :
  good (source st) → cacheInvariant st → isTimeSliceClient st = true →
  capacity st <= INT_MAX → holds played st →
  let st' := final (readNextBufferChunk st) in
  good (source st') ∧ holds played st'.
Proof.
  intros Hgood Hinv Hclient Hint Hholds. cbv zeta.
  destruct (result (readNextBufferChunk st)) eqn:Hresult.
  2: { destruct (idle_refill_shape st Hinv Hclient Hint Hresult) as [-> _].
       cbn [final fst snd]. split; assumption. }
  destruct (working_refill_shape st Hinv Hclient Hint Hresult)
    as (before & sStart & newEnd & writes & Hrun & _ & Hcapb & Hbuf & Hsrc
        & _ & _ & Hsection & Hchunk & Hwindow & _ & Hfrom).
  destruct Hinv as [Hrange Hserved].
  destruct (Hserved Hclient) as (Hcap & Hfit & Hwf & Hchans).
  unfold maxChunkSize in *.
  destruct (readSection_fills sStart newEnd before) as [Hgood' Hsamples];
    rewrite ?Hsrc, ?Hbuf, ?Hcapb; try assumption; try lia.
  rewrite Hbuf, Hcapb in Hsamples.
  destruct (readSection_buffer sStart newEnd before) as [_ Hchans'];
    [rewrite Hbuf; assumption|]. rewrite Hbuf in Hchans'.
  destruct (readSection_frame sStart newEnd before)
    as ((_ & _ & Hcap' & _) & _). rewrite Hcapb in Hcap'.
  rewrite Hrun. cbn [final fst snd source set_validRange].
  split; [exact Hgood'|].
  intros chan p.
  unfold capacity in *.
  cbn [buffer bufferValidStart bufferValidEnd set_validRange].
  rewrite Hchans', Hcap'. intros Hchan Hp.
  destruct (Hsamples chan Hchan) as [Hnew Hold].
  destruct (Z.lt_ge_cases p sStart) as [Hkept | Hread].
  - destruct Hfrom as [[-> _] | (_ & Hin & ->)]; [lia|].
    rewrite Hold.
    + apply Hholds; [assumption | lia].
    + apply Z.mod_pos_bound. lia.
    + intros q Hq. apply wrap_apart; lia.
  - apply Hnew. lia.
Qed.

(** Any number of time slices keep both. *)
Lemma slices_fill k :
  ∀ st,
    good (source st) → cacheInvariant st → isTimeSliceClient st = true →
    capacity st <= INT_MAX → holds played st →
    good (source (timeSlices k st)) ∧ holds played (timeSlices k st).
Proof.
  induction k as [|k IH]; intros st Hgood Hinv Hclient Hint Hholds;
    cbn [timeSlices]; [split; assumption|].
  rewrite slice_is_refill.
  destruct (refill_fills st Hgood Hinv Hclient Hint Hholds) as [Hgood' Hholds'].
  destruct (readNextBufferChunk_frame st) as [(_ & _ & Hcap' & _ & Hclient') _].
  apply IH; try assumption.
  - apply refill_keeps_cacheInvariant; assumption.
  - congruence.
  - lia.
Qed.

(** X10: the background thread keeps the cache true to the source. Over
    a source that plays the samples [played] (a block read at a position
    holds the samples from that position on), if every position of the valid
    range is cached with the sample played there, then this is still so
    after any number of time slices, whichever of the cold, drift and idle
    paths each of them takes, and whether or not a section read wraps. *)
Theorem time_slices_keep_the_cache_true st k :
  reachable st → isTimeSliceClient st = true → capacity st <= INT_MAX →
  good (source st) →
  (∀ chan p,
     0 <= chan < AudioBuffer.getNumChannels (buffer st) →
     bufferValidStart st <= p < bufferValidEnd st →
     AudioBuffer.sample (buffer st) chan (p mod capacity st)
     = Some (played chan p)) →
  let st' := timeSlices k st in
  good (source st')
  ∧ ∀ chan p,
      0 <= chan < AudioBuffer.getNumChannels (buffer st') →
      bufferValidStart st' <= p < bufferValidEnd st' →
      AudioBuffer.sample (buffer st') chan (p mod capacity st')
      = Some (played chan p).
Proof.
  intros Hreach Hclient Hint Hgood Hholds. cbv zeta.
  apply slices_fill; try assumption.
  apply reachable_cacheInvariant. exact Hreach.
Qed.

End Coherence.

(** ** Reading what was prefetched *)

(** The time slices leave the configuration and the cursor alone. *)
Lemma timeSlices_frame {S : Type} `{PositionableAudioSource S} k :
  ∀ st : State S,
    sameSetup st (timeSlices k st)
    ∧ nextPlayPos (timeSlices k st) = nextPlayPos st.
Proof.
  induction k as [|k IH]; intros st; cbn [timeSlices].
  { unfold sameSetup. repeat split. }
  destruct (IH (final (useTimeSlice st)))
    as [(Hsamples & Hchans & Hcap & Hprepared & Hclient) Hpos].
  rewrite slice_is_refill in *.
  destruct (readNextBufferChunk_frame st)
    as [(Hsamples1 & Hchans1 & Hcap1 & Hprepared1 & Hclient1) Hpos1].
  unfold sameSetup.
  split; [split; [|split; [|split; [|split]]]|]; congruence.
Qed.

Section Prefetch.
Context {S : Type} `{PositionableAudioSource S}.
Implicit Type st : State S.

Variable played : Z → Z → float.
Variable good : S → Prop.
Hypothesis source_plays : plays played good.
Hypothesis seek_keeps_looping :
  ∀ s p, source_isLooping (source_setNextReadPosition p s) = source_isLooping s.
Hypothesis read_keeps_looping :
  ∀ s numChannels n,
    source_isLooping (snd (source_getNextAudioBlock numChannels n s))
    = source_isLooping s.

(** X11: the prefetch. Over a source that plays [played] and keeps its
    looping flag, from a cache that is true to the source, [k >= 1] time
    slices with [2048 * k >= capacity - 516] leave every position of
    [[newStart, newStart + capacity - 516)], [newStart = max (0, nextPlayPos)],
    in the valid range and cached, on every channel, with the sample the
    source plays there. *)
Theorem prefetch_caches_the_window st k chan p :
  reachable st → isTimeSliceClient st = true → capacity st <= INT_MAX →
  good (source st) → holds played st →
  (1 <= k)%nat → capacity st - 516 <= 2048 * Z.of_nat k →
  let st' := timeSlices k st in
  let newStart := Z.max 0 (nextPlayPos st) in
  0 <= chan < AudioBuffer.getNumChannels (buffer st') →
  newStart <= p < newStart + capacity st - 516 →
  bufferValidStart st' <= p < bufferValidEnd st'
  ∧ AudioBuffer.sample (buffer st') chan (p mod capacity st)
    = Some (played chan p).
Proof.
  intros Hreach Hclient Hint Hgood Hholds Hk Henough. cbv zeta.
  intros Hchan Hp.
  pose proof (reachable_cacheInvariant st Hreach) as Hinv.
  destruct (slices_fill played good source_plays k st Hgood Hinv Hclient Hint
              Hholds) as [_ Hholds'].
  pose proof (slices_fill_window seek_keeps_looping read_keeps_looping st k
                Hinv Hclient Hint Hk Henough) as Hfill.
  cbv zeta in Hfill.
  destruct Hfill as ((_ & _ & Hcap' & Hpos') & (_ & Hin & Hhead) & Hshort').
  unfold shortfall in Hshort'. rewrite Hcap', Hpos' in *.
  assert (Hcached : bufferValidStart (timeSlices k st) <= p
                    < bufferValidEnd (timeSlices k st)) by lia.
  split; [exact Hcached|].
  rewrite <- Hcap'. apply Hholds'; assumption.
Qed.

(** X12: a read after the prefetch plays the source. In the situation of
    the prefetch, with the cursor at a position [>= 0], a block of
    [0 < n <= capacity - 516] samples read next is a full hit: on every
    channel that the object and the caller's buffer share, sample [i] of the
    block is the sample the source plays at [nextPlayPos + i]; nothing is
    zero-filled, and the cursor advances by [n]. *)
Theorem read_after_prefetch_plays_the_source st k info out chan i :
  reachable st → isTimeSliceClient st = true → capacity st <= INT_MAX →
  good (source st) → holds played st →
  (1 <= k)%nat → capacity st - 516 <= 2048 * Z.of_nat k →
  0 <= nextPlayPos st →
  AudioBuffer.wf out → 0 <= startSample info →
  startSample info + numSamples info <= AudioBuffer.getNumSamples out →
  0 < numSamples info <= capacity st - 516 →
  0 <= chan < jmin (numberOfChannels st) (AudioBuffer.getNumChannels out) →
  0 <= i < numSamples info →
  let r := getNextAudioBlock info (out, timeSlices k st) in
  AudioBuffer.sample (fst (final r)) chan (startSample info + i)
  = Some (played chan (nextPlayPos st + i))
  ∧ Forall (λ e, ¬ zeroFills e) (events r)
  ∧ nextPlayPos (snd (final r)) = nextPlayPos st + numSamples info.
Proof.
  intros Hreach Hclient Hint Hgood Hholds Hk Henough Hpos Hwf Hstart Hend Hn
         Hchan Hi.
  cbv zeta. rewrite jmin_min in Hchan.
  pose proof (reachable_cacheInvariant st Hreach) as Hinv.
  destruct (slices_fill played good source_plays k st Hgood Hinv Hclient Hint
              Hholds) as [_ Hholds'].
  pose proof (slices_fill_window seek_keeps_looping read_keeps_looping st k
                Hinv Hclient Hint Hk Henough) as Hfill.
  cbv zeta in Hfill.
  destruct Hfill as (([_ Hserved] & Hclient' & Hcap' & Hpos')
                     & (_ & Hin & Hhead) & Hshort').
  destruct (timeSlices_frame k st) as [(_ & Hchans' & _) _].
  destruct (Hserved Hclient') as (_ & Hfit & Hwfc & Hcache).
  unfold shortfall in Hshort'.
  set (st' := timeSlices k st) in *. clearbody st'.
  rewrite Hcap', Hpos', ?Hchans' in *.
  rewrite (Z.max_r 0 (nextPlayPos st)) in * by lia.
  pose proof (validRange_full st' (numSamples info) ltac:(lia) ltac:(lia)
                ltac:(lia)) as Hfull.
  assert (Hhitting :
    Range.isEmpty (result (getValidBufferRange (numSamples info) st'))
    = false).
  { rewrite Hfull. unfold Range.isEmpty. cbn [Range.getStart Range.getEnd].
    lia. }
  pose proof (getNextAudioBlock_hit_object info out st' Hhitting) as Hobject.
  pose proof (getNextAudioBlock_hit info out st') as Hhit. cbv zeta in Hhit.
  rewrite Hfull in Hhit. cbn [Range.getStart Range.getEnd] in Hhit.
  rewrite !Z.ltb_irrefl in Hhit.
  replace (0 <? numSamples info) with true in Hhit by lia.
  cbn [when app] in Hhit.
  destruct Hhit as [Hout Hevents].
  { unfold Range.isEmpty. cbn [Range.getStart Range.getEnd]. lia. }
  rewrite Hout, Hevents, Hobject. cbn [nextPlayPos set_nextPlayPos].
  split; [|split; [|lia]].
  - pose proof (copyChannels_samples info 0 (numSamples info) st'
                  (Z.to_nat (jmin (numberOfChannels st')
                                  (AudioBuffer.getNumChannels out)))
                  Hwfc ltac:(rewrite Hcap'; lia) ltac:(lia)
                  ltac:(rewrite Hcap'; lia) ltac:(lia)
                  ltac:(rewrite jmin_min; lia)
                  out Hwf ltac:(lia) ltac:(rewrite jmin_min; lia))
      as [Hcopied _].
    specialize (Hcopied chan i ltac:(rewrite jmin_min; lia) ltac:(lia)).
    rewrite Z.add_0_r, Z.add_0_l in Hcopied. rewrite Hcopied, Hpos'.
    apply Hholds'; lia.
  - apply forDown_events_Forall.
    + intros. apply copyChannel_object.
    + intros. apply copyChannel_never_clears.
Qed.

End Prefetch.

(** The example source plays its recording. *)
Lemma ArraySource_plays (a : ArraySource) :
  plays (λ _ p, recordedSample a p)
        (λ s, recorded s = recorded a ∧ looping s = looping a).
Proof.
  split.
  - intros s p Hgood. split; [exact Hgood | reflexivity].
  - intros s numChannels n [Hrecorded Hlooping].
    split; [split; assumption|].
    intros chan j Hchan Hj.
    cbn [source_getNextAudioBlock ArraySource_source fst
         source_getNextReadPosition].
    rewrite lookup_replicate_2 by lia.
    cbn [mbind option_bind].
    rewrite list_lookup_fmap, lookup_seqZ_lt by lia.
    cbn [fmap option_fmap option_map]. rewrite Z.add_0_l, Z2Nat.id by lia.
    unfold recordedSample, recordedLength. rewrite Hrecorded, Hlooping.
    reflexivity.
Qed.

Lemma prepared_holds : holds (λ _ p, recordedSample tone p) prepared.
Proof.
  intros chan p _ Hp.
  change (bufferValidStart prepared) with 0 in Hp.
  change (bufferValidEnd prepared) with 0 in Hp. lia.
Qed.

Lemma time_slices_keep_the_cache_true_witness :
  (recorded (source (timeSlices 2 prepared)) = recorded tone
   ∧ looping (source (timeSlices 2 prepared)) = looping tone)
  ∧ ∀ chan p,
      0 <= chan < AudioBuffer.getNumChannels (buffer (timeSlices 2 prepared)) →
      bufferValidStart (timeSlices 2 prepared) <= p
      < bufferValidEnd (timeSlices 2 prepared) →
      AudioBuffer.sample (buffer (timeSlices 2 prepared)) chan
        (p mod capacity (timeSlices 2 prepared))
      = Some (recordedSample tone p).
Proof.
  apply (time_slices_keep_the_cache_true _ _ (ArraySource_plays tone)
           prepared 2).
  - exact prepared_reachable.
  - reflexivity.
  - vm_compute; discriminate.
  - split; reflexivity.
  - exact prepared_holds.
Defined.

Lemma prefetch_caches_the_window_witness :
  bufferValidStart (timeSlices 2 prepared) <= 3000
  < bufferValidEnd (timeSlices 2 prepared)
  ∧ AudioBuffer.sample (buffer (timeSlices 2 prepared)) 1
      (3000 mod capacity prepared)
    = Some (recordedSample tone 3000).
Proof.
  apply (prefetch_caches_the_window _ _ (ArraySource_plays tone)
           (λ _ _, eq_refl) (λ _ _ _, eq_refl) prepared 2 1 3000).
  - exact prepared_reachable.
  - reflexivity.
  - vm_compute; discriminate.
  - split; reflexivity.
  - exact prepared_holds.
  - lia.
  - vm_compute; discriminate.
  - split; [vm_compute; discriminate | reflexivity].
  - split; [vm_compute; discriminate | reflexivity].
Defined.

Lemma read_after_prefetch_plays_the_source_witness :
  AudioBuffer.sample
    (fst (final (getNextAudioBlock block512 (out512, timeSlices 2 prepared))))
    1 (startSample block512 + 7)
  = Some (recordedSample tone (nextPlayPos prepared + 7))
  ∧ Forall (λ e, ¬ zeroFills e)
      (events (getNextAudioBlock block512 (out512, timeSlices 2 prepared)))
  ∧ nextPlayPos
      (snd (final (getNextAudioBlock block512
                     (out512, timeSlices 2 prepared))))
    = nextPlayPos prepared + numSamples block512.
Proof.
  apply (read_after_prefetch_plays_the_source _ _ (ArraySource_plays tone)
           (λ _ _, eq_refl) (λ _ _ _, eq_refl) prepared 2 block512 out512 1 7).
  - exact prepared_reachable.
  - reflexivity.
  - vm_compute; discriminate.
  - split; reflexivity.
  - exact prepared_holds.
  - lia.
  - vm_compute; discriminate.
  - vm_compute; discriminate.
  - split; [vm_compute; discriminate | repeat constructor].
  - vm_compute; discriminate.
  - vm_compute; discriminate.
  - split; [reflexivity | vm_compute; discriminate].
  - split; [vm_compute; discriminate | reflexivity].
  - split; [vm_compute; discriminate | reflexivity].
Defined.

(** ** The preroll wait *)

Section Preroll.
Context {S : Type} `{PositionableAudioSource S}.
Implicit Type st : State S.

(** The test of the wait loop succeeds exactly when the block is not empty
    and every position of it is in the valid range. *)
Lemma blockReady_cached info st :
  bufferValidStart st <= bufferValidEnd st →
  0 <= numSamples info <= INT_MAX →
  blockReady info st = true
  ↔ 0 < numSamples info
    ∧ bufferValidStart st <= nextPlayPos st
    ∧ nextPlayPos st + numSamples info <= bufferValidEnd st.
Proof.
  intros Hrange Hn. unfold blockReady. cbv zeta. split.
  - intros Hready.
    pose proof (validRange_shape st (numSamples info) Hrange Hn) as Hshape.
    cbv zeta in Hshape.
    destruct Hshape as [Hempty | (_ & Hstart & Hend & Hbounds & Hlast)].
    { unfold Range.isEmpty in Hempty. lia. }
    rewrite Hstart, Hend in Hready.
    rewrite !jlimit_clamp in * by assumption. lia.
  - intros (Hpos & Hfirst & Hlast).
    rewrite (validRange_full st (numSamples info)) by lia.
    cbn [Range.getStart Range.getEnd]. lia.
Qed.

(** The loop returns [true] only on a state it has looked at and found
    ready. *)
Lemma waitLoop_true info timeout startTime turns :
  ∀ elapsedNow st waits,
    waitLoop info timeout startTime elapsedNow st turns = (Some true, waits) →
    ∃ st', st' ∈ st :: (objectThen <$> turns) ∧ blockReady info st' = true.
Proof.
  induction turns as [|turn turns IH]; intros elapsedNow st waits;
    cbn [waitLoop].
  - destruct (elapsedNow <=? timeout); [|discriminate].
    destruct (blockReady info st) eqn:Hready; [|discriminate].
    intros _. exists st. split; [apply list_elem_of_here | exact Hready].
  - destruct (elapsedNow <=? timeout); [|discriminate].
    destruct (blockReady info st) eqn:Hready.
    { intros _. exists st. split; [apply list_elem_of_here | exact Hready]. }
    cbv zeta.
    destruct (waitLoop info timeout startTime
                (elapsed startTime (counter turn)) (objectThen turn) turns)
      as [outcome waits'] eqn:Hnext.
    assert (Hlater : outcome = Some true →
              ∃ st', st' ∈ st :: (objectThen <$> turn :: turns)
                     ∧ blockReady info st' = true).
    { intros ->. destruct (IH _ _ _ Hnext) as (st' & Hseen & Hready').
      exists st'. split; [|exact Hready'].
      apply list_elem_of_further. exact Hseen. }
    destruct (elapsedNow <? timeout).
    + destruct (negb (signalled turn)); [discriminate|].
      cbn [fst snd]. intros [= -> _]. apply Hlater. reflexivity.
    + intros [= -> _]. apply Hlater. reflexivity.
Qed.

(** Every wait the loop makes is given what is left of the time-out. *)
Lemma waitLoop_budgets info timeout startTime turns :
  0 <= timeout <= INT_MAX →
  ∀ elapsedNow st,
    0 <= elapsedNow →
    Forall (λ budget, 0 < budget <= timeout)
           (snd (waitLoop info timeout startTime elapsedNow st turns)).
Proof.
  intros Htimeout.
  induction turns as [|turn turns IH]; intros elapsedNow st Helapsed;
    cbn [waitLoop].
  - destruct (elapsedNow <=? timeout); [|constructor].
    destruct (blockReady info st); constructor.
  - destruct (elapsedNow <=? timeout); [|constructor].
    destruct (blockReady info st); [constructor|]. cbv zeta.
    assert (Hnext : 0 <= elapsed startTime (counter turn)).
    { unfold elapsed, to_uint32.
      destruct (_ >=? _); apply Z.mod_pos_bound; lia. }
    specialize (IH (elapsed startTime (counter turn)) (objectThen turn) Hnext).
    destruct (Z.ltb_spec elapsedNow timeout) as [Hleft | _]; [|exact IH].
    assert (Hbudget : to_int (to_uint32 (timeout - elapsedNow))
                      = timeout - elapsedNow).
    { unfold to_uint32, INT_MAX in *.
      rewrite Z.mod_small by lia. apply to_int_small. lia. }
    rewrite Hbudget.
    destruct (negb (signalled turn)); cbn [snd];
      repeat constructor; try lia. exact IH.
Qed.

(** X13: the wait answers [true] only for a block that was cached. When
    [waitForNextAudioBlockReady] returns [true], either one of the two early
    tests held at entry (the block ends before position 0, or the source does
    not loop and the cursor is past its end), or one of the states of the
    object that the loop looked at, the one at entry or one left by the other
    threads at a later turn, had every position of the non-empty block
    [[nextPlayPos, nextPlayPos + n)] inside its valid range. *)
Theorem wait_true_only_for_a_cached_block info timeout startTime st turns
    waits :
  0 <= numSamples info <= INT_MAX →
  Forall (λ st', bufferValidStart st' <= bufferValidEnd st')
         (st :: (objectThen <$> turns)) →
  waitForNextAudioBlockReady info timeout startTime st turns
  = (Some true, waits) →
  0 < source_getTotalLength (source st)
  ∧ (nextPlayPos st + numSamples info < 0
     ∨ (source_isLooping (source st) = false
        ∧ source_getTotalLength (source st) < nextPlayPos st)
     ∨ ∃ st', st' ∈ st :: (objectThen <$> turns)
              ∧ 0 < numSamples info
              ∧ bufferValidStart st' <= nextPlayPos st'
              ∧ nextPlayPos st' + numSamples info <= bufferValidEnd st').
Proof.
  intros Hn Hranges. rewrite Forall_forall in Hranges.
  unfold waitForNextAudioBlockReady.
  destruct (Z.leb_spec (source_getTotalLength (source st)) 0) as [|Hlength];
    [discriminate|].
  intros Hwait. split; [exact Hlength|].
  destruct (Z.ltb_spec (nextPlayPos st + numSamples info) 0) as [|_];
    [left; assumption|].
  cbn [orb] in Hwait.
  destruct (source_isLooping (source st)) eqn:Hlooping; cbn [negb andb] in Hwait.
  - right. right.
    destruct (waitLoop_true _ _ _ _ _ _ _ Hwait) as (st' & Hseen & Hready).
    exists st'. split; [exact Hseen|].
    apply blockReady_cached; auto.
  - destruct (Z.gtb_spec (nextPlayPos st) (source_getTotalLength (source st)))
      as [Hpast | _].
    { right. left. split; [reflexivity | lia]. }
    right. right.
    destruct (waitLoop_true _ _ _ _ _ _ _ Hwait) as (st' & Hseen & Hready).
    exists st'. split; [exact Hseen|].
    apply blockReady_cached; auto.
Qed.

(** X14: a block that is cached is never waited for. On an object whose
    source has a positive length, for a block of [0 < n] samples that lies
    inside the valid range, the wait returns [true] at once, whatever the
    time-out and whatever the other threads do: it makes no call of
    [bufferReadyEvent.wait]. *)
Theorem cached_block_is_not_waited_for info timeout startTime st turns :
  0 <= timeout →
  0 < source_getTotalLength (source st) →
  0 < numSamples info <= INT_MAX →
  bufferValidStart st <= nextPlayPos st →
  nextPlayPos st + numSamples info <= bufferValidEnd st →
  waitForNextAudioBlockReady info timeout startTime st turns = (Some true, []).
Proof.
  intros Htimeout Hlength Hn Hfirst Hlast. unfold waitForNextAudioBlockReady.
  destruct (Z.leb_spec (source_getTotalLength (source st)) 0); [lia|].
  destruct (_ || _); [reflexivity|].
  assert (Hready : blockReady info st = true)
    by (apply blockReady_cached; lia).
  assert (Hnow : elapsed startTime startTime = 0).
  { unfold elapsed, to_uint32. rewrite Z.sub_diag.
    destruct (Z.geb_spec startTime startTime); [reflexivity | lia]. }
  rewrite Hnow.
  destruct turns; cbn [waitLoop];
    (destruct (Z.leb_spec 0 timeout); [|lia]); rewrite Hready; reflexivity.
Qed.

(** X15: every wait is given what is left of the time-out. For a time-out
    of at most [INT_MAX] milliseconds, every argument passed to
    [bufferReadyEvent.wait] is positive and at most the time-out, whatever
    the counter reads (rolled over or not). *)
Theorem waits_are_within_the_timeout info timeout startTime st turns :
  0 <= timeout <= INT_MAX →
  Forall (λ budget, 0 < budget <= timeout)
         (snd (waitForNextAudioBlockReady info timeout startTime st turns)).
Proof.
  intros Htimeout. unfold waitForNextAudioBlockReady.
  destruct (_ <=? 0); [constructor|].
  destruct (_ || _); [constructor|].
  apply waitLoop_budgets; [assumption|].
  unfold elapsed, to_uint32. destruct (_ >=? _); apply Z.mod_pos_bound; lia.
Qed.

(** X16: a time-out above [INT_MAX] turns into a negative wait. With
    [2^31 <= timeout <= UINT32_MAX], when neither early test holds and the
    block is not ready at entry, the first call of [bufferReadyEvent.wait]
    is made with [static_cast<int> (timeout)], the negative number
    [timeout - 2^32]; if that wait is not signalled the method returns
    [false]. *)
Theorem large_timeout_waits_negative info timeout startTime st turn turns :
  2 ^ 31 <= timeout <= UINT32_MAX →
  0 < source_getTotalLength (source st) →
  0 <= nextPlayPos st + numSamples info →
  source_isLooping (source st) = true
  ∨ nextPlayPos st <= source_getTotalLength (source st) →
  blockReady info st = false →
  let r := waitForNextAudioBlockReady info timeout startTime st
             (turn :: turns) in
  head (snd r) = Some (timeout - 2 ^ 32)
  ∧ timeout - 2 ^ 32 < 0
  ∧ (signalled turn = false → r = (Some false, [timeout - 2 ^ 32])).
Proof.
  intros Htimeout Hlength Hblock Hinside Hready. cbv zeta.
  unfold waitForNextAudioBlockReady, UINT32_MAX in *.
  destruct (Z.leb_spec (source_getTotalLength (source st)) 0); [lia|].
  replace ((nextPlayPos st + numSamples info <? 0)
           || negb (source_isLooping (source st))
              && (nextPlayPos st >? source_getTotalLength (source st)))
    with false
    by (destruct Hinside as [-> | ?]; cbn [negb andb]; lia).
  assert (Hnow : elapsed startTime startTime = 0).
  { unfold elapsed, to_uint32. rewrite Z.sub_diag.
    destruct (Z.geb_spec startTime startTime); [reflexivity | lia]. }
  rewrite Hnow. cbn [waitLoop]. rewrite Hready.
  destruct (Z.leb_spec 0 timeout); [|lia].
  destruct (Z.ltb_spec 0 timeout); [|lia].
  cbv zeta. rewrite Z.sub_0_r.
  assert (Hbudget : to_int (to_uint32 timeout) = timeout - 2 ^ 32).
  { unfold to_uint32, to_int. rewrite (Z.mod_small timeout) by lia.
    rewrite <- (Z.mod_unique_pos (timeout + 2 ^ 31) (2 ^ 32) 1
                  (timeout - 2 ^ 31)); lia. }
  rewrite Hbudget.
  destruct (signalled turn); cbn [negb fst snd head].
  - split; [reflexivity|]. split; [lia | discriminate].
  - split; [reflexivity|]. split; [lia | reflexivity].
Qed.

(** X17: a block that ends before position 0 is reported ready and then
    read as silence. On a reachable object whose source has a positive
    length, when [nextPlayPos + n < 0] the wait returns [true] at once, and
    the read of that block is a total miss: the block is cleared and the
    cursor stays where it is, so that the same holds of the next call. *)
Theorem block_before_zero_is_ready_and_silent info timeout startTime st turns
    out :
  reachable st →
  0 < source_getTotalLength (source st) →
  0 <= numSamples info →
  nextPlayPos st + numSamples info < 0 →
  waitForNextAudioBlockReady info timeout startTime st turns = (Some true, [])
  ∧ getNextAudioBlock info (out, st)
    = (tt, (AudioBuffer.clear out (startSample info) (numSamples info), st),
       [Cleared (startSample info) (numSamples info)]).
Proof.
  intros Hreach Hlength Hn Hbefore.
  destruct (reachable_cacheInvariant st Hreach) as [Hrange _].
  split.
  - unfold waitForNextAudioBlockReady.
    destruct (Z.leb_spec (source_getTotalLength (source st)) 0); [lia|].
    destruct (Z.ltb_spec (nextPlayPos st + numSamples info) 0); [|lia].
    reflexivity.
  - apply getNextAudioBlock_miss, validRange_empty; lia.
Qed.

(** X18: the data-model invariant. In every reachable state the valid
    range is a range of positions from 0 on and, while the background thread
    serves the object, the cache has at least 1024 samples, the valid range
    spans at most [capacity - 4] positions (the guard margin), every channel
    array of the cache has the cache's length, and the cache has a channel
    for each of the object's channels. *)
Theorem reachable_keeps_guard_margin st :
  reachable st →
  0 <= bufferValidStart st <= bufferValidEnd st
  ∧ (isTimeSliceClient st = true →
     1024 <= capacity st
     ∧ bufferValidEnd st - bufferValidStart st <= capacity st - 4
     ∧ (0 <= AudioBuffer.getNumSamples (buffer st)
        ∧ Forall (λ c, Z.of_nat (length c) = AudioBuffer.getNumSamples (buffer st))
                 (AudioBuffer.channels (buffer st)))
     ∧ numberOfChannels st <= AudioBuffer.getNumChannels (buffer st)).
Proof. intros Hreach. exact (reachable_cacheInvariant st Hreach). Qed.

End Preroll.

Lemma wait_true_only_for_a_cached_block_witness :
  waitForNextAudioBlockReady block512 100 0 prepared
    [{| signalled := true; counter := 5; objectThen := filled |}]
  = (Some true, [100])
  ∧ 0 < source_getTotalLength (source prepared)
  ∧ (nextPlayPos prepared + numSamples block512 < 0
     ∨ (source_isLooping (source prepared) = false
        ∧ source_getTotalLength (source prepared) < nextPlayPos prepared)
     ∨ ∃ st', st' ∈ [prepared; filled]
              ∧ 0 < numSamples block512
              ∧ bufferValidStart st' <= nextPlayPos st'
              ∧ nextPlayPos st' + numSamples block512 <= bufferValidEnd st').
Proof.
  split; [reflexivity|].
  apply (wait_true_only_for_a_cached_block block512 100 0 prepared
           [{| signalled := true; counter := 5; objectThen := filled |}]
           [100]).
  - split; vm_compute; discriminate.
  - repeat constructor; vm_compute; discriminate.
  - reflexivity.
Defined.

Lemma cached_block_is_not_waited_for_witness :
  waitForNextAudioBlockReady block512 100 0 filled [] = (Some true, []).
Proof.
  apply (cached_block_is_not_waited_for block512 100 0 filled []).
  - lia.
  - reflexivity.
  - split; [reflexivity | vm_compute; discriminate].
  - vm_compute; discriminate.
  - vm_compute; discriminate.
Defined.

Lemma waits_are_within_the_timeout_witness :
  Forall (λ budget, 0 < budget <= 100)
    (snd (waitForNextAudioBlockReady block512 100 0 prepared
            [{| signalled := true; counter := 40; objectThen := prepared |};
             {| signalled := false; counter := 90; objectThen := filled |}])).
Proof.
  apply (waits_are_within_the_timeout block512 100 0 prepared).
  split; vm_compute; discriminate.
Defined.

Lemma large_timeout_waits_negative_witness :
  waitForNextAudioBlockReady block512 (2 ^ 31) 0 prepared
    [{| signalled := false; counter := 0; objectThen := prepared |}]
  = (Some false, [2 ^ 31 - 2 ^ 32]).
Proof.
  destruct (large_timeout_waits_negative block512 (2 ^ 31) 0 prepared
              {| signalled := false; counter := 0; objectThen := prepared |}
              []) as (_ & _ & Hfalse).
  - split; vm_compute; discriminate.
  - reflexivity.
  - vm_compute; discriminate.
  - right. vm_compute; discriminate.
  - reflexivity.
  - apply Hfalse. reflexivity.
Defined.

Lemma block_before_zero_is_ready_and_silent_witness :
  waitForNextAudioBlockReady block512 100 0
    (final (setNextReadPosition (-1000) filled)) []
  = (Some true, [])
  ∧ getNextAudioBlock block512
      (out512, final (setNextReadPosition (-1000) filled))
    = (tt,
       (AudioBuffer.clear out512 (startSample block512) (numSamples block512),
        final (setNextReadPosition (-1000) filled)),
       [Cleared (startSample block512) (numSamples block512)]).
Proof.
  apply (block_before_zero_is_ready_and_silent block512 100 0
           (final (setNextReadPosition (-1000) filled)) [] out512).
  - apply reach_setNextReadPosition, filled_reachable.
  - reflexivity.
  - vm_compute; discriminate.
  - reflexivity.
Defined.

Lemma reachable_keeps_guard_margin_witness :
  0 <= bufferValidStart filled <= bufferValidEnd filled
  ∧ (isTimeSliceClient filled = true →
     1024 <= capacity filled
     ∧ bufferValidEnd filled - bufferValidStart filled <= capacity filled - 4
     ∧ (0 <= AudioBuffer.getNumSamples (buffer filled)
        ∧ Forall (λ c, Z.of_nat (length c)
                       = AudioBuffer.getNumSamples (buffer filled))
                 (AudioBuffer.channels (buffer filled)))
     ∧ numberOfChannels filled <= AudioBuffer.getNumChannels (buffer filled)).
Proof. apply (reachable_keeps_guard_margin filled). exact filled_reachable. Defined.

(** ** The prefill of [prepareToPlay] *)

Section Prefill.
Context {S : Type} `{PositionableAudioSource S}.
Implicit Type st : State S.

Hypothesis seek_keeps_looping :
  ∀ s p, source_isLooping (source_setNextReadPosition p s) = source_isLooping s.
Hypothesis read_keeps_looping :
  ∀ s numChannels n,
    source_isLooping (snd (source_getNextAudioBlock numChannels n s))
    = source_isLooping s.

(** A time slice on a settled object whose valid range starts at the cursor
    keeps the start and does not shorten the range. *)
Lemma slice_grows st :
  cacheInvariant st → isTimeSliceClient st = true → capacity st <= INT_MAX →
  settled st → bufferValidStart st = Z.max 0 (nextPlayPos st) →
  let st' := final (useTimeSlice st) in
  bufferValidStart st' = Z.max 0 (nextPlayPos st)
  ∧ bufferValidEnd st <= bufferValidEnd st'.
Proof.
  intros Hinv Hclient Hint (Hflag & Hin & Hhead) Hstart. cbv zeta.
  rewrite slice_is_refill.
  destruct (result (readNextBufferChunk st)) eqn:Hresult.
  - destruct (working_refill_shape st Hinv Hclient Hint Hresult)
      as (before & sStart & newEnd & writes & Hrun & _ & _ & _ & _
          & _ & _ & Hsection & _ & _ & _ & Hfrom).
    rewrite Hrun.
    cbn [final fst snd bufferValidStart bufferValidEnd set_validRange].
    split; [reflexivity|].
    destruct Hfrom as [[_ [Hcontra | Hout]] | (_ & _ & ->)];
      [congruence | lia | lia].
  - destruct (idle_refill_shape st Hinv Hclient Hint Hresult) as [-> _].
    cbn [final fst snd]. split; [exact Hstart | lia].
Qed.

Lemma slices_grow k :
  ∀ st,
    cacheInvariant st → isTimeSliceClient st = true →
    capacity st <= INT_MAX →
    settled st → bufferValidStart st = Z.max 0 (nextPlayPos st) →
    bufferValidStart (timeSlices k st) = Z.max 0 (nextPlayPos st)
    ∧ bufferValidEnd st <= bufferValidEnd (timeSlices k st).
Proof.
  induction k as [|k IH]; intros st Hinv Hclient Hint Hsettled Hstart;
    cbn [timeSlices]; [split; [exact Hstart | lia]|].
  destruct (slice_grows st Hinv Hclient Hint Hsettled Hstart)
    as [Hstart1 Hend1].
  pose proof (one_slice seek_keeps_looping read_keeps_looping st Hinv Hclient
                Hint) as Hone. cbv zeta in Hone.
  destruct Hone as ((Hinv1 & Hclient1 & Hcap1 & Hpos1) & Hsettled1 & _).
  destruct (IH (final (useTimeSlice st)) Hinv1 Hclient1 ltac:(lia) Hsettled1
              ltac:(congruence)) as [Hstart' Hend'].
  split; [congruence | lia].
Qed.

(** X19: the prefill loop of [prepareToPlay] ends. After a [prepareToPlay]
    that reconfigures a reachable object, over a source that keeps its
    looping flag and with the cursor at rest, [k >= 1] time slices of the
    background thread with [2048 * k >= capacity - 516] leave a valid range
    that starts at [max (0, nextPlayPos)] and spans at least half the cache:
    the test of the prefill loop,
    [bufferValidEnd - bufferValidStart < jmin (rate / 4, capacity / 2)], is
    false whatever the sample rate. *)
Theorem prefill_ends st samplesPerBlockExpected newSampleRate k rate :
  reachable st →
  negb (PrimFloat.eqb newSampleRate (sampleRate st))
  || negb (jmax (samplesPerBlockExpected * 2) (numberOfSamplesToBuffer st)
           =? capacity st)
  || negb (isPrepared st) = true →
  jmax (samplesPerBlockExpected * 2) (numberOfSamplesToBuffer st) <= INT_MAX →
  (1 <= k)%nat →
  jmax (samplesPerBlockExpected * 2) (numberOfSamplesToBuffer st) - 516
  <= 2048 * Z.of_nat k →
  let st' := final (prepareToPlay samplesPerBlockExpected newSampleRate st) in
  let st'' := timeSlices k st' in
  bufferValidStart st'' = Z.max 0 (nextPlayPos st)
  ∧ capacity st'' ÷ 2 <= bufferValidEnd st'' - bufferValidStart st''
  ∧ prefillPending rate st'' = false.
Proof.
  intros Hreach Hcond Hint Hk Henough. cbv zeta.
  destruct (prepareToPlay_reconfigures st samplesPerBlockExpected
              newSampleRate Hcond)
    as (_ & Hstart0 & Hend0 & _ & _ & Hpos0 & _ & Hclient0 & _).
  destruct (prepareToPlay_prepared st samplesPerBlockExpected newSampleRate)
    as (_ & Hcap0 & _).
  pose proof (reachable_cacheInvariant _
                (reach_prepareToPlay st samplesPerBlockExpected newSampleRate
                   Hreach)) as Hinv0.
  set (st0 := final (prepareToPlay samplesPerBlockExpected newSampleRate st))
    in *. clearbody st0.
  rewrite <- Hcap0 in Hint, Henough. rewrite <- Hpos0. clear Hcap0 Hpos0.
  destruct (proj2 Hinv0 Hclient0) as (Hcap & _).
  pose proof (slices_fill_window seek_keeps_looping read_keeps_looping st0 k
                Hinv0 Hclient0 Hint Hk Henough) as Hfill.
  cbv zeta in Hfill.
  destruct Hfill as ((_ & _ & Hcap' & Hpos') & (_ & Hin & _) & Hshort).
  unfold shortfall in Hshort. rewrite Hcap', Hpos' in *.
  (* the first slice is a cold refill *)
  destruct k as [|k]; [lia|]. cbn [timeSlices] in *.
  pose proof (one_slice seek_keeps_looping read_keeps_looping st0 Hinv0
                Hclient0 Hint) as Hone. cbv zeta in Hone.
  destruct Hone as ((Hinv1 & Hclient1 & Hcap1 & Hpos1) & Hsettled1 & _).
  destruct (cold_refill_outcome st0 Hinv0 Hclient0) as (before & _ & _ & Hrun).
  { right. right. lia. }
  assert (Hfirst :
    bufferValidStart (final (useTimeSlice st0)) = Z.max 0 (nextPlayPos st0)
    ∧ bufferValidEnd (final (useTimeSlice st0))
      = Z.min (Z.max 0 (nextPlayPos st0) + capacity st0 - 4)
              (Z.max 0 (nextPlayPos st0) + maxChunkSize)).
  { rewrite slice_is_refill, Hrun. split; reflexivity. }
  destruct Hfirst as [Hstart1 Hend1].
  destruct (slices_grow k (final (useTimeSlice st0)) Hinv1 Hclient1
              ltac:(lia) Hsettled1 ltac:(congruence)) as [Hstart' Hend'].
  set (st'' := timeSlices k (final (useTimeSlice st0))) in *. clearbody st''.
  rewrite Hpos1 in Hstart'. unfold maxChunkSize in *.
  assert (Hhalf : capacity st0 ÷ 2
                  <= bufferValidEnd st'' - bufferValidStart st'').
  { rewrite Z.quot_div_nonneg by lia.
    apply Z.div_le_upper_bound; lia. }
  split; [exact Hstart'|]. split; [exact Hhalf|].
  unfold prefillPending. rewrite jmin_min, Hcap'.
  destruct (prefillBuffer st''); [|reflexivity]. cbn [andb]. lia.
Qed.

End Prefill.

Lemma prefill_ends_witness :
  prefillBuffer
    (timeSlices 2
       (final (prepareToPlay 512 44100%float (construct tone 4096 2 true))))
  = true
  ∧ capacity
      (timeSlices 2
         (final (prepareToPlay 512 44100%float (construct tone 4096 2 true))))
    ÷ 2
    <= bufferValidEnd
         (timeSlices 2
            (final (prepareToPlay 512 44100%float
                      (construct tone 4096 2 true))))
       - bufferValidStart
           (timeSlices 2
              (final (prepareToPlay 512 44100%float
                        (construct tone 4096 2 true))))
  ∧ prefillPending 44100
      (timeSlices 2
         (final (prepareToPlay 512 44100%float (construct tone 4096 2 true))))
    = false.
Proof.
  split; [reflexivity|].
  apply (@prefill_ends ArraySource ArraySource_source (λ _ _, eq_refl)
           (λ _ _ _, eq_refl) (construct tone 4096 2 true) 512 44100%float 2
           44100).
  - apply reach_construct.
  - reflexivity.
  - vm_compute; discriminate.
  - lia.
  - vm_compute; discriminate.
Defined.

(** ** What a refill leaves alone *)

(** Outside the region stored the cache keeps its samples, whatever the
    block holds. *)
Lemma storeBlock_sample_out b offset len block chan i :
  i < offset ∨ offset + len <= i →
  AudioBuffer.sample (storeBlock b offset len block) chan i
  = AudioBuffer.sample b chan i.
Proof.
  intros Hout. unfold storeBlock.
  destruct (AudioBuffer.inRegion b offset len) eqn:Hregion; [|reflexivity].
  unfold AudioBuffer.inRegion in Hregion.
  unfold AudioBuffer.sample. cbn [AudioBuffer.channels].
  destruct ((0 <=? chan) && (0 <=? i)) eqn:Hchan; [|reflexivity].
  rewrite list_lookup_imap.
  destruct (AudioBuffer.channels b !! Z.to_nat chan) as [c|]; [|reflexivity].
  cbn [fmap option_fmap option_map mbind option_bind].
  destruct (block !! Z.to_nat chan) as [samples|]; [|reflexivity].
  unfold AudioBuffer.store.
  destruct (Z.lt_ge_cases i offset).
  - apply list_lookup_inserts_lt. lia.
  - apply list_lookup_inserts_ge. rewrite length_take. lia.
Qed.

Section RefillFrame.
Context {S : Type} `{PositionableAudioSource S}.
Implicit Type st : State S.

Lemma readBufferSection_outside start len offset st chan i :
  i < offset ∨ offset + len <= i →
  AudioBuffer.sample (buffer (final (readBufferSection start len offset st)))
    chan i
  = AudioBuffer.sample (buffer st) chan i.
Proof.
  intros Hout. unfold readBufferSection. rewrite !bind_run.
  cbn [tell get result final events fst snd].
  destruct (negb (_ =? start));
    cbn [when onSource modify ret get result final events fst snd source buffer
         set_source];
    match goal with
    | |- context [source_getNextAudioBlock ?c ?n ?s] =>
        destruct (source_getNextAudioBlock c n s) as [block s']
    end;
    rewrite ?bind_run;
    cbn [modify result final events fst snd app set_source set_buffer buffer];
    apply storeBlock_sample_out; assumption.
Qed.

(** A section read writes only the physical indices of its positions. *)
Lemma readSection_outside s e st chan i :
  0 < capacity st <= INT_MAX → 0 <= s → 0 < e - s <= capacity st →
  0 <= i → (∀ p, s <= p < e → p mod capacity st ≠ i) →
  AudioBuffer.sample (buffer (final (readSection s e st))) chan i
  = AudioBuffer.sample (buffer st) chan i.
Proof.
  intros HC Hs Hlen Hi Hfree.
  assert (HC' : 0 < capacity st) by lia.
  pose proof (Z.mod_pos_bound s (capacity st) HC') as Hindex.
  assert (Hwhere : ∀ p, s <= p < e →
            p mod capacity st
            = if s mod capacity st + (p - s) <? capacity st
              then s mod capacity st + (p - s)
              else s mod capacity st + (p - s) - capacity st).
  { intros p Hp. rewrite <- (wrap_offset (capacity st) s (p - s)) by lia.
    f_equal. lia. }
  unfold readSection. rewrite bind_final. cbn [get result final fst snd].
  rewrite !wrap_index by (unfold INT_MAX in *; lia).
  rewrite to_int_small by (unfold INT_MAX in *; lia).
  pose proof (wrap_test (capacity st) s (e - s) HC' ltac:(lia)) as Htest.
  replace (s + (e - s)) with e in Htest by lia. rewrite Htest. clear Htest.
  set (m := s mod capacity st) in *. clearbody m.
  destruct (Z.ltb_spec (m + (e - s)) (capacity st)) as [Hfits | Hwraps].
  - apply readBufferSection_outside.
    destruct (Z.lt_ge_cases i m) as [|Hfrom]; [left; assumption|].
    destruct (Z.lt_ge_cases i (m + (e - s))) as [Hin|]; [|right; assumption].
    exfalso. apply (Hfree (s + (i - m))); [lia|].
    rewrite Hwhere by lia.
    destruct (Z.ltb_spec (m + (s + (i - m) - s)) (capacity st)); lia.
  - rewrite bind_final.
    rewrite readBufferSection_outside, readBufferSection_outside.
    + reflexivity.
    + destruct (Z.lt_ge_cases i m) as [|Hfrom]; [left; assumption|].
      destruct (Z.lt_ge_cases i (m + (capacity st - m))) as [Hin|];
        [|right; assumption].
      exfalso. apply (Hfree (s + (i - m))); [lia|].
      rewrite Hwhere by lia.
      destruct (Z.ltb_spec (m + (s + (i - m) - s)) (capacity st)); lia.
    + destruct (Z.lt_ge_cases i (0 + (e - s - (capacity st - m)))) as [Hin|];
        [|right; assumption].
      exfalso. apply (Hfree (s + (capacity st - m) + i)); [lia|].
      rewrite Hwhere by lia.
      destruct (Z.ltb_spec (m + (s + (capacity st - m) + i - s))
                           (capacity st)); lia.
Qed.

(** X20: a warm refill keeps what is cached from the cursor on. In a
    reachable state served by the background thread, when the looping flag is
    unchanged and [newStart = max (0, nextPlayPos)] is in the valid range,
    the refill (idle or drift) starts the valid range at [newStart], does not
    move its end backwards, and every position from [newStart] up to the old
    end is still in the valid range with the very sample the cache held for
    it, on every channel: only positions past the old end are read from the
    source and written. *)
Theorem warm_refill_keeps_cached_samples st chan p :
  reachable st → isTimeSliceClient st = true → capacity st <= INT_MAX →
  wasSourceLooping st = source_isLooping (source st) →
  bufferValidStart st <= Z.max 0 (nextPlayPos st) < bufferValidEnd st →
  Z.max 0 (nextPlayPos st) <= p < bufferValidEnd st →
  let st' := final (readNextBufferChunk st) in
  bufferValidEnd st <= bufferValidEnd st'
  ∧ bufferValidStart st' <= p < bufferValidEnd st'
  ∧ AudioBuffer.sample (buffer st') chan (p mod capacity st)
    = AudioBuffer.sample (buffer st) chan (p mod capacity st)
  ∧ Forall (λ e, match e with
                 | SectionRead start _ _ => bufferValidEnd st <= start
                 | _ => True
                 end) (events (readNextBufferChunk st)).
Proof.
  intros Hreach Hclient Hint Hflag Hin Hp. cbv zeta.
  pose proof (reachable_cacheInvariant st Hreach) as Hinv.
  destruct (result (readNextBufferChunk st)) eqn:Hresult.
  2: { destruct (idle_refill_shape st Hinv Hclient Hint Hresult) as [-> _].
       cbn [final events fst snd].
       split; [lia|]. split; [lia|]. split; [reflexivity | constructor]. }
  destruct (working_refill_shape st Hinv Hclient Hint Hresult)
    as (before & sStart & newEnd & writes & Hrun & Hwrites & Hcapb & Hbuf & _
        & _ & _ & Hsection & Hchunk & Hwindow & _ & Hfrom).
  destruct Hfrom as [[_ [Hcontra | Hout]] | (_ & _ & ->)];
    [congruence | lia |].
  destruct Hinv as [Hrange Hserved].
  destruct (Hserved Hclient) as (Hcap & _).
  unfold maxChunkSize in *.
  rewrite Hrun.
  cbn [final events fst snd buffer bufferValidStart bufferValidEnd
       set_validRange].
  split; [lia|]. split; [lia|]. split.
  - rewrite <- Hcapb, <- Hbuf. apply readSection_outside; rewrite ?Hcapb;
      try lia.
    + apply Z.mod_pos_bound. lia.
    + intros q Hq. apply wrap_apart; lia.
  - rewrite !Forall_app. split; [|split].
    + clear -Hwrites. induction writes as [|e writes IH]; [constructor|].
      destruct e; cbn [segmentsOf] in Hwrites; try discriminate;
        constructor; auto.
    + destruct (readSection_run (bufferValidEnd st) newEnd before)
        as (s' & b' & _ & _ & ->). cbv zeta.
      destruct (_ <? _); repeat constructor; try lia.
      assert (0 <= to_int (Z.rem (bufferValidEnd st) (capacity before))
              < capacity before).
      { rewrite wrap_index by lia. apply Z.mod_pos_bound. lia. }
      lia.
    + repeat constructor.
Qed.

End RefillFrame.

Lemma warm_refill_keeps_cached_samples_witness :
  bufferValidEnd nearEnd <= bufferValidEnd (final (readNextBufferChunk nearEnd))
  ∧ bufferValidStart (final (readNextBufferChunk nearEnd)) <= 2000
    < bufferValidEnd (final (readNextBufferChunk nearEnd))
  ∧ AudioBuffer.sample (buffer (final (readNextBufferChunk nearEnd))) 1
      (2000 mod capacity nearEnd)
    = AudioBuffer.sample (buffer nearEnd) 1 (2000 mod capacity nearEnd)
  ∧ Forall (λ e, match e with
                 | SectionRead start _ _ => bufferValidEnd nearEnd <= start
                 | _ => True
                 end) (events (readNextBufferChunk nearEnd)).
Proof.
  apply (warm_refill_keeps_cached_samples nearEnd 1 2000).
  - apply reach_setNextReadPosition, filled_reachable.
  - reflexivity.
  - vm_compute; discriminate.
  - reflexivity.
  - split; [vm_compute; discriminate | reflexivity].
  - split; [vm_compute; discriminate | reflexivity].
Defined.

(** ** A seek, a time slice, a read *)

Section Seeking.
Context {S : Type} `{PositionableAudioSource S}.
Implicit Type st : State S.

(** A read of a block that lies inside the valid range: nothing is zeroed
    and the cursor advances. *)
Lemma full_hit_run info out st :
  0 < numSamples info <= INT_MAX →
  bufferValidStart st <= nextPlayPos st →
  nextPlayPos st + numSamples info <= bufferValidEnd st →
  Forall (λ e, ¬ zeroFills e) (events (getNextAudioBlock info (out, st)))
  ∧ snd (final (getNextAudioBlock info (out, st)))
    = set_nextPlayPos (nextPlayPos st + numSamples info) st.
Proof.
  intros Hn Hfirst Hlast.
  pose proof (validRange_full st (numSamples info) Hn Hfirst Hlast) as Hfull.
  assert (Hhitting :
    Range.isEmpty (result (getValidBufferRange (numSamples info) st))
    = false).
  { rewrite Hfull. unfold Range.isEmpty. cbn [Range.getStart Range.getEnd].
    lia. }
  split; [|apply getNextAudioBlock_hit_object; exact Hhitting].
  pose proof (getNextAudioBlock_hit info out st) as Hhit. cbv zeta in Hhit.
  rewrite Hfull in Hhit. cbn [Range.getStart Range.getEnd] in Hhit.
  rewrite !Z.ltb_irrefl in Hhit.
  replace (0 <? numSamples info) with true in Hhit by lia.
  cbn [when app] in Hhit.
  destruct Hhit as [_ ->].
  { unfold Range.isEmpty. cbn [Range.getStart Range.getEnd]. lia. }
  apply forDown_events_Forall.
  - intros. apply copyChannel_object.
  - intros. apply copyChannel_never_clears.
Qed.

(** X6: a seek is served by the next time slice. On a reachable object
    served by the background thread, after [setNextReadPosition] to a
    position [p >= 0] one [useTimeSlice] leaves the cursor at [p] and every
    position of [[p, p + m)], [m = min (capacity - 516, 2048)], in the valid
    range, whether the seek landed inside what was cached (idle or drift) or
    outside it (cold); a block of [0 < n <= m] samples read next is a full
    hit: its block-relative range is [(0, n)], nothing is zeroed and the
    cursor ends at [p + n]. *)
Theorem seek_is_served_by_the_next_slice st newPosition info out :
  reachable st → isTimeSliceClient st = true → capacity st <= INT_MAX →
  0 <= newPosition →
  let st' :=
    final (useTimeSlice (final (setNextReadPosition newPosition st))) in
  let served := Z.min (capacity st - 516) 2048 in
  nextPlayPos st' = newPosition
  ∧ bufferValidStart st' <= newPosition
  ∧ newPosition + served <= bufferValidEnd st'
  ∧ (0 < numSamples info <= served →
     result (getValidBufferRange (numSamples info) st')
     = Range.mk 0 (numSamples info)
     ∧ Forall (λ e, ¬ zeroFills e) (events (getNextAudioBlock info (out, st')))
     ∧ nextPlayPos (snd (final (getNextAudioBlock info (out, st'))))
       = newPosition + numSamples info).
Proof.
  intros Hreach Hclient Hint Hpos. cbv zeta.
  pose proof (reachable_cacheInvariant _
                (reach_setNextReadPosition st newPosition Hreach)) as Hinv.
  change (final (setNextReadPosition newPosition st))
    with (set_nextPlayPos newPosition st) in *.
  set (st0 := set_nextPlayPos newPosition st) in *.
  assert (Hclient0 : isTimeSliceClient st0 = true) by exact Hclient.
  assert (Hcap0 : capacity st0 = capacity st) by reflexivity.
  assert (Hpos0 : nextPlayPos st0 = newPosition) by reflexivity.
  clearbody st0. rewrite <- Hcap0 in *. clear Hcap0 Hclient Hreach.
  rewrite slice_is_refill.
  destruct (readNextBufferChunk_frame st0) as [_ Hpos'].
  destruct (proj2 Hinv Hclient0) as (Hcap & _).
  assert (Hrange :
    bufferValidStart (final (readNextBufferChunk st0)) <= newPosition
    ∧ newPosition + Z.min (capacity st0 - 516) 2048
      <= bufferValidEnd (final (readNextBufferChunk st0))).
  { destruct (result (readNextBufferChunk st0)) eqn:Hresult.
    - destruct (working_refill_shape st0 Hinv Hclient0 Hint Hresult)
        as (before & sStart & newEnd & writes & Hrun & _ & _ & _ & _ & _ & _
            & Hsection & _ & _ & HnewEnd & _).
      rewrite Hrun.
      cbn [final fst snd bufferValidStart bufferValidEnd set_validRange].
      unfold maxChunkSize in *. lia.
    - destruct (idle_refill_shape st0 Hinv Hclient0 Hint Hresult)
        as (-> & _ & Hin & _ & Htail).
      cbn [final fst snd]. lia. }
  destruct Hrange as [Hstart Hend].
  set (st' := final (readNextBufferChunk st0)) in *. clearbody st'.
  split; [congruence|]. split; [exact Hstart|]. split; [exact Hend|].
  intros Hn.
  assert (Hint' : 0 < numSamples info <= INT_MAX) by lia.
  split.
  - apply validRange_full; lia.
  - destruct (full_hit_run info out st' Hint' ltac:(lia) ltac:(lia))
      as [Hevents ->].
    split; [exact Hevents|]. cbn [nextPlayPos set_nextPlayPos]. lia.
Qed.

End Seeking.

Lemma seek_is_served_by_the_next_slice_witness :
  nextPlayPos
    (final (useTimeSlice (final (setNextReadPosition 3000 filled)))) = 3000
  ∧ bufferValidStart
      (final (useTimeSlice (final (setNextReadPosition 3000 filled)))) <= 3000
  ∧ 3000 + Z.min (capacity filled - 516) 2048
    <= bufferValidEnd
         (final (useTimeSlice (final (setNextReadPosition 3000 filled))))
  ∧ result
      (getValidBufferRange (numSamples block512)
         (final (useTimeSlice (final (setNextReadPosition 3000 filled)))))
    = Range.mk 0 (numSamples block512)
  ∧ nextPlayPos
      (snd (final (getNextAudioBlock block512
                     (out512,
                      final (useTimeSlice
                               (final (setNextReadPosition 3000 filled)))))))
    = 3000 + numSamples block512.
Proof.
  destruct (seek_is_served_by_the_next_slice filled 3000 block512 out512)
    as (Hpos & Hstart & Hend & Hread).
  - exact filled_reachable.
  - reflexivity.
  - vm_compute; discriminate.
  - lia.
  - destruct Hread as (Hrange & _ & Hcursor).
    + split; [reflexivity | vm_compute; discriminate].
    + repeat split; assumption.
Defined.
